(** * Correlation explorer (src/App.js)

    A shallow embedding of the computational core of the interactive
    correlation explorer: the Pearson coefficient ([correlation]), the
    synthetic generators ([randomLinear], [randomLinearWithCorrelation]),
    the Anscombe quartet ([anscombe]), the state handled by the [App]
    component (preset, slider value, points) with its handlers, the
    drag gesture of a [DraggableDot], and what the page prints about
    the coefficient ([toFixed(2)], [strength], [direction]).

    JavaScript numbers are abstracted by the interface [Number], so that
    every function of the source is written once, operator for operator
    and in the evaluation order of the source.  Three instances are given:
    - [Fnumber], IEEE 754 binary64 with the kernel's primitive floats,
      which is what a JavaScript engine evaluates, which computes, and
      in which values round, overflow and underflow;
    - [Xnumber], exact arithmetic with the special values of IEEE 754
      (the reals, the two infinities and NaN), in which nothing rounds
      and a quotient by zero is still NaN or an infinity;
    - [Rnumber], the field of the reals, in which the algebra of the
      sums is carried out (permutation invariance, the Anscombe
      values); what is proved there of the formula and of the guards
      of [correlation] is brought to [Xnumber], where a division by
      zero can be seen.

    [Math.random] and [Date.now] are read from an explicit world; every
    function that calls them lives in the state monad [M] over it.

    The source never updates an array or a point in place ([map] and
    object spread build new ones), so arrays are lists and points are
    records, with no store. *)

From Stdlib Require Import Reals Lra Lia List ZArith NArith Bool.
From Stdlib Require Import String Ascii Permutation.
From Stdlib Require Import DecimalString DecimalNat DecimalN.
From Stdlib Require Floats Uint63.
Import ListNotations.

(** ** Numbers *)

Class Number (num : Type) : Type := {
  of_Z : Z -> num;                      (* an integer literal, index or length *)
  nadd : num -> num -> num;             (* a + b *)
  nsub : num -> num -> num;             (* a - b *)
  nmul : num -> num -> num;             (* a * b *)
  ndiv : num -> num -> num;             (* a / b *)
  nsqrt : num -> num;                   (* Math.sqrt(a) *)
  strict_eq : num -> num -> bool;       (* a === b *)
  same_value : num -> num -> bool       (* Object.is(a, b): React's test on deps *)
}.

Declare Scope num_scope.
Delimit Scope num_scope with num.
Infix "+" := nadd : num_scope.
Infix "-" := nsub : num_scope.
Infix "*" := nmul : num_scope.
Infix "/" := ndiv : num_scope.
Infix "===" := strict_eq (at level 70, no associativity) : num_scope.

(** The length of an array or an index, as a number. *)
Definition of_nat {num} `{Number num} (n : nat) : num := of_Z (Z.of_nat n).

(** A decimal literal [m / d] with [d] a power of ten: [lit 804 100] is
    the literal [8.04].  Both integers are exact in either instance and
    the quotient is rounded once, as the literal is when it is read. *)
Definition lit {num} `{Number num} (m : Z) (d : positive) : num :=
  (of_Z m / of_Z (Zpos d))%num.

(** The field of the reals.  Nothing rounds, overflows or underflows,
    and a product is zero only when a factor is; [sqrt] of a negative
    real and a quotient by zero are total ([x / 0 = 0]) where JavaScript
    answers NaN or an infinity, so a guard against a zero divisor
    cannot be told from its absence in this instance.  [Xnumber] below
    is the exact arithmetic in which it can. *)
#[export] Instance Rnumber : Number R := {
  of_Z := IZR;
  nadd := Rplus;
  nsub := Rminus;
  nmul := Rmult;
  ndiv := Rdiv;
  nsqrt := sqrt;
  strict_eq := fun a b => if Req_dec_T a b then true else false;
  same_value := fun a b => if Req_dec_T a b then true else false
}.

(** IEEE 754 binary64.  [of_Z] is the number itself for an integer below
    2^53 in absolute value, which covers the integer literals of the
    program and the lengths and indices of its arrays. *)
Definition float_of_Z (z : Z) : PrimFloat.float :=
  match z with
  | Z0 => PrimFloat.zero
  | Zpos _ => PrimFloat.of_uint63 (Uint63.of_Z z)
  | Zneg p => PrimFloat.opp (PrimFloat.of_uint63 (Uint63.of_Z (Zpos p)))
  end.

#[export] Instance Fnumber : Number PrimFloat.float := {
  of_Z := float_of_Z;
  nadd := PrimFloat.add;
  nsub := PrimFloat.sub;
  nmul := PrimFloat.mul;
  ndiv := PrimFloat.div;
  nsqrt := PrimFloat.sqrt;
  strict_eq := PrimFloat.eqb;
  same_value := PrimFloat.Leibniz.eqb
}.

(** ** Points and the Pearson coefficient *)

Section Core.

Context {num : Type} `{Number num}.
Local Open Scope num_scope.

Record Point : Type := mkPoint { id : string; x : num; y : num }.

(** The body of the [for (const p of points)] loop of [correlation],
    on the three accumulators [(num, denomX, denomY)]. *)
Definition accumulate (meanX meanY : num) (acc : num * num * num) (p : Point)
  : num * num * num :=
  let '(num, denomX, denomY) := acc in
  let dx := p.(x) - meanX in
  let dy := p.(y) - meanY in
  (num + dx * dy, denomX + dx * dx, denomY + dy * dy).

Definition correlation (points : list Point) : num :=
  if (List.length points <? 2)%nat then of_Z 0 else
  let n := of_nat (List.length points) in
  let meanX := fold_left (fun a p => a + p.(x)) points (of_Z 0) / n in
  let meanY := fold_left (fun a p => a + p.(y)) points (of_Z 0) / n in
  let '(num, denomX, denomY) :=
    fold_left (accumulate meanX meanY) points (of_Z 0, of_Z 0, of_Z 0) in
  if denomX * denomY === of_Z 0 then of_Z 0
  else num / nsqrt (denomX * denomY).

(** The accumulators [(num, denomX, denomY)] when the loop of
    [correlation] ends, for a dataset that reaches the loop. *)
Definition loop_sums (points : list Point) : num * num * num :=
  let n := of_nat (List.length points) in
  let meanX := fold_left (fun a p => a + p.(x)) points (of_Z 0) / n in
  let meanY := fold_left (fun a p => a + p.(y)) points (of_Z 0) / n in
  fold_left (accumulate meanX meanY) points (of_Z 0, of_Z 0, of_Z 0).

(** The divisors of the divisions that [correlation] evaluates on
    [points], in evaluation order: [n] for each mean, then the square
    root when the last conditional takes its second branch. *)
Definition divisors (points : list Point) : list num :=
  if (List.length points <? 2)%nat then [] else
  let n := of_nat (List.length points) in
  let '(num, denomX, denomY) := loop_sums points in
  [n; n] ++ (if denomX * denomY === of_Z 0 then []
             else [nsqrt (denomX * denomY)]).

(** ** The environment: [Math.random] and [Date.now]

    Both are read from the world.  The k-th call of [Math.random]
    answers [random w k], the k-th call of [Date.now] answers [now w k]
    (milliseconds since the epoch); the world counts the calls made. *)

Record World : Type := mkWorld {
  random : nat -> num;
  now : nat -> N;
  drawn : nat;
  clock_reads : nat
}.

Definition M (A : Type) : Type := World -> A * World.

Definition ret {A} (a : A) : M A := fun w => (a, w).

Definition bind {A B} (m : M A) (k : A -> M B) : M B :=
  fun w => let '(a, w') := m w in k a w'.

Local Notation "v <- m ;; k" := (bind m (fun v => k))
  (at level 61, m at next level, right associativity).

Definition Math_random : M num :=
  fun w => (random w (drawn w),
            mkWorld (random w) (now w) (S (drawn w)) (clock_reads w)).

Definition Date_now : M N :=
  fun w => (now w (clock_reads w),
            mkWorld (random w) (now w) (drawn w) (S (clock_reads w))).

Fixpoint mapM {A B} (f : A -> M B) (l : list A) : M (list B) :=
  match l with
  | [] => ret []
  | a :: l' => b <- f a ;; bs <- mapM f l' ;; ret (b :: bs)
  end.

(** [Array.from({ length }, (_, i) => f(i))]: [f] is called on the
    indices [0 .. length-1] in increasing order. *)
Definition Array_from {A} (length : nat) (f : nat -> M A) : M (list A) :=
  mapM f (seq 0 length).

(** ** Identifiers: the template strings [`${t}-${i}`] and [`${k}-${i}`] *)

Definition decimal_N (t : N) : string := NilEmpty.string_of_uint (N.to_uint t).
Definition decimal_nat (i : nat) : string := NilEmpty.string_of_uint (Nat.to_uint i).

Definition stamp_id (t : N) (i : nat) : string :=
  (decimal_N t ++ "-" ++ decimal_nat i)%string.

Definition key_id (k : string) (i : nat) : string :=
  (k ++ "-" ++ decimal_nat i)%string.

(** ** Generators *)

(** [randomLinear(slope, noise)].  For each index the random draw is
    made first, while the const [y] is evaluated; the clock is read
    afterwards, when the returned object literal evaluates its [id]. *)
Definition randomLinear (slope noise : num) : M (list Point) :=
  Array_from 20 (fun i =>
    let x := of_nat i + of_Z 1 in
    r <- Math_random ;;
    let y := slope * x + (r - lit 5 10) * noise * of_Z 10 + of_Z 10 in
    t <- Date_now ;;
    ret (mkPoint (stamp_id t i) x y)).

Definition randomLinearWithCorrelation (r sign : num) : M (list Point) :=
  let slope := sign * r in
  let noise := lit 15 10 - r * lit 15 10 + lit 2 10 in
  randomLinear slope noise.

(** ** The Anscombe quartet *)

(** The object literal, before the ids are added: keys in source order,
    each point as [(x, y)] with [y] in hundredths. *)
Definition anscombe_literal : list (string * list (Z * Z)) :=
  [ ("A"%string, [ (10, 804); (8, 695); (13, 758); (9, 881); (11, 833);
            (14, 996); (6, 724); (4, 426); (12, 1084); (7, 482); (5, 568) ]);
    ("B"%string, [ (10, 914); (8, 814); (13, 874); (9, 877); (11, 926);
            (14, 810); (6, 613); (4, 310); (12, 913); (7, 726); (5, 474) ]);
    ("C"%string, [ (10, 746); (8, 677); (13, 1274); (9, 711); (11, 781);
            (14, 884); (6, 608); (4, 539); (12, 815); (7, 642); (5, 573) ]);
    ("D"%string, [ (8, 658); (8, 576); (8, 771); (8, 884); (8, 847);
            (8, 704); (8, 525); (19, 1250); (8, 556); (8, 791); (8, 689) ]) ]%Z.

(** [arr.map((p, i) => f(p, i))], the index starting at [from]. *)
Fixpoint map_index {A B} (f : A -> nat -> B) (from : nat) (l : list A) : list B :=
  match l with
  | [] => []
  | a :: l' => f a from :: map_index f (S from) l'
  end.

(** [Object.keys(anscombe).forEach(k => anscombe[k] = anscombe[k].map(
    (p, i) => ({ ...p, id: `${k}-${i}` })))]. *)
Definition anscombe : list (string * list Point) :=
  map (fun '(k, pts) =>
         (k, map_index (fun p i =>
                          mkPoint (key_id k i) (of_Z (fst p)) (lit (snd p) 100))
                       0 pts))
      anscombe_literal.

(** [obj[k]] on an object with the given own properties: [None] is
    [undefined].  The properties an object literal inherits
    ([constructor], [toString], ...) are not looked up: no key of
    [PRESET_KEYS] names one, and what is said below of a selection is
    said of the keys the select offers ([offered]). *)
Fixpoint property {A} (obj : list (string * A)) (k : string) : option A :=
  match obj with
  | [] => None
  | (k', v) :: obj' => if String.eqb k' k then Some v else property obj' k
  end.

(** [s.split(sep)] for a separator of one character; [cur] is the piece
    being read. *)
Fixpoint split_from (sep : ascii) (cur s : string) : list string :=
  match s with
  | EmptyString => [cur]
  | String c s' =>
      if Ascii.eqb c sep then cur :: split_from sep EmptyString s'
      else split_from sep (cur ++ String c EmptyString)%string s'
  end.

Definition split (sep : ascii) (s : string) : list string :=
  split_from sep EmptyString s.

Definition PRESET_KEYS : list string :=
  [ "Lineare positiva"; "Lineare negativa"; "Nessuna correlazione";
    "Anscombe A"; "Anscombe B"; "Anscombe C"; "Anscombe D" ]%string.

(** ** The [App] component

    The state is the three [useState] cells.  Each render evaluates
    the argument [randomLinearWithCorrelation(0.8, 1)] of [useState]
    anew and drops it after the first one; these evaluations only move
    the world forward.  [step] is what the handlers and the effect do
    from an arbitrary world; [page_step] adds the evaluations of [App]
    around them, for the statements that compare two runs. *)

Record State : Type := mkState {
  correlationValue : num;
  presetKey : string;
  points : list Point
}.

Definition isLinear (presetKey : string) : bool :=
  String.eqb presetKey "Lineare positiva"
  || String.eqb presetKey "Lineare negativa"
  || String.eqb presetKey "Nessuna correlazione".

(** [anscombe[presetKey.split(" ")[1]]]; a missing second piece is
    [undefined], which names no property of [anscombe]. *)
Definition anscombe_of (presetKey : string) : option (list Point) :=
  match nth_error (split " " presetKey) 1 with
  | Some k => property anscombe k
  | None => None
  end.

(** The body of the effect on [[presetKey, correlationValue]]: the next
    value of [points], [None] when [setPoints] receives [undefined]. *)
Definition effect (presetKey : string) (correlationValue : num)
  : M (option (list Point)) :=
  if isLinear presetKey then
    let r := correlationValue in
    let sign := of_Z 1 in
    let sign := if String.eqb presetKey "Lineare negativa" then of_Z (-1) else sign in
    let r := if String.eqb presetKey "Nessuna correlazione" then of_Z 0 else r in
    pts <- randomLinearWithCorrelation r sign ;; ret (Some pts)
  else ret (anscombe_of presetKey).

(** The [regenerate] callback: the same text as the effect, with the
    values of the render that created it (its deps are the state). *)
Definition regenerate (presetKey : string) (correlationValue : num)
  : M (option (list Point)) :=
  if isLinear presetKey then
    let r := correlationValue in
    let sign := of_Z 1 in
    let sign := if String.eqb presetKey "Lineare negativa" then of_Z (-1) else sign in
    let r := if String.eqb presetKey "Nessuna correlazione" then of_Z 0 else r in
    pts <- randomLinearWithCorrelation r sign ;; ret (Some pts)
  else ret (anscombe_of presetKey).

(** The updater that [DraggableDot.handleMove] passes to [setPoints]:
    [pts.map(p => p.id === payload.id ? { ...p, x: xVal, y: yVal } : p)]. *)
Definition movePoint (payload_id : string) (xVal yVal : num)
    (pts : list Point) : list Point :=
  map (fun p => if String.eqb p.(id) payload_id
                then mkPoint p.(id) xVal yVal else p) pts.

Record Rect : Type := mkRect { left : num; top : num; width : num; height : num }.

(** [handleMove(e)] of the dot whose payload has id [payload_id];
    [rect] is [None] when [plotRef.current] is null. *)
Definition handleMove (dragging : bool) (rect : option Rect)
    (clientX clientY : num) (payload_id : string) (pts : list Point)
  : list Point :=
  match dragging, rect with
  | true, Some rect =>
      let xVal := (clientX - rect.(left)) / rect.(width) * of_Z 20 in
      let yVal := of_Z 20 - (clientY - rect.(top)) / rect.(height) * of_Z 20 in
      movePoint payload_id xVal yVal pts
  | _, _ => pts
  end.

(** What reaches the component from the page. *)
Inductive Event : Type :=
| SelectPreset (k : string)                  (* onChange of the select *)
| SetCorrelation (v : num)                   (* onChange of the slider *)
| Regenerate                                 (* onClick of the button *)
| DragPoint (payload_id : string) (xVal yVal : num).   (* a pointer move *)

Definition with_points (s : State) (o : option (list Point)) : option State :=
  match o with
  | Some pts => Some (mkState s.(correlationValue) s.(presetKey) pts)
  | None => None
  end.

(** One event.  A setter called with the value the state already holds
    changes nothing and the effect, whose deps are unchanged, does not
    run; otherwise the effect runs once on the new state.  The answer
    is [None] when [points] ends up [undefined] (the next render throws). *)
Definition step (e : Event) (s : State) : M (option State) :=
  match e with
  | SelectPreset k =>
      if String.eqb k s.(presetKey) then ret (Some s)
      else
        let s' := mkState s.(correlationValue) k s.(points) in
        o <- effect s'.(presetKey) s'.(correlationValue) ;; ret (with_points s' o)
  | SetCorrelation v =>
      if same_value v s.(correlationValue) then ret (Some s)
      else
        let s' := mkState v s.(presetKey) s.(points) in
        o <- effect s'.(presetKey) s'.(correlationValue) ;; ret (with_points s' o)
  | Regenerate =>
      o <- regenerate s.(presetKey) s.(correlationValue) ;; ret (with_points s o)
  | DragPoint payload_id xVal yVal =>
      ret (Some (mkState s.(correlationValue) s.(presetKey)
                         (movePoint payload_id xVal yVal s.(points))))
  end.

(** A run of events, stopping at the first failure. *)
Fixpoint run (es : list Event) (s : State) : M (option State) :=
  match es with
  | [] => ret (Some s)
  | e :: es' =>
      o <- step e s ;;
      match o with
      | Some s' => run es' s'
      | None => ret None
      end
  end.

(** The state after mounting: the three [useState] initial values, then
    the effect, which runs once after the first render. *)
Definition mount : M (option State) :=
  pts <- randomLinearWithCorrelation (lit 8 10) (of_Z 1) ;;
  let s := mkState (lit 8 10) "Lineare positiva" pts in
  o <- effect s.(presetKey) s.(correlationValue) ;; ret (with_points s o).

(** One evaluation of the body of [App] after the first: the argument
    [randomLinearWithCorrelation(0.8, 1)] of [useState] is computed, 20
    draws and 20 clock readings, and dropped. *)
Definition render : M unit :=
  pts <- randomLinearWithCorrelation (lit 8 10) (of_Z 1) ;; ret tt.

Fixpoint renders (n : nat) : M unit :=
  match n with
  | O => ret tt
  | S n' => u <- render ;; renders n'
  end.

(** One event on the page, the evaluations of [App] included.  How
    many there are is decided by React (one for each update it commits;
    an update that changes nothing may or may not cost one more):
    [before] counts those between the setter of the handler and the
    effect, [after] those that follow the last setter.  The button
    calls [regenerate] in its handler, before any of them.  With no
    evaluation at all this is [step]. *)
Definition page_step (before after : nat) (e : Event) (s : State)
  : M (option State) :=
  match e with
  | SelectPreset k =>
      if String.eqb k s.(presetKey) then u <- renders after ;; ret (Some s)
      else
        let s' := mkState s.(correlationValue) k s.(points) in
        u <- renders before ;;
        o <- effect s'.(presetKey) s'.(correlationValue) ;;
        u' <- renders after ;; ret (with_points s' o)
  | SetCorrelation v =>
      if same_value v s.(correlationValue) then u <- renders after ;; ret (Some s)
      else
        let s' := mkState v s.(presetKey) s.(points) in
        u <- renders before ;;
        o <- effect s'.(presetKey) s'.(correlationValue) ;;
        u' <- renders after ;; ret (with_points s' o)
  | Regenerate =>
      o <- regenerate s.(presetKey) s.(correlationValue) ;;
      u <- renders after ;; ret (with_points s o)
  | DragPoint payload_id xVal yVal =>
      u <- renders after ;;
      ret (Some (mkState s.(correlationValue) s.(presetKey)
                         (movePoint payload_id xVal yVal s.(points))))
  end.

(** A run of events on the page, each with its two counts. *)
Fixpoint page_run (es : list (nat * nat * Event)) (s : State)
  : M (option State) :=
  match es with
  | [] => ret (Some s)
  | (before, after, e) :: es' =>
      o <- page_step before after e s ;;
      match o with
      | Some s' => page_run es' s'
      | None => ret None
      end
  end.

(** ** The generator and the controller, in the specification's words *)

(** [generateLinear(targetCorrelation, sign)] and
    [getReferenceDataset(which)] are the specification's names for
    [randomLinearWithCorrelation] and for the lookup [anscombe[which]]. *)
Definition generateLinear (targetCorrelation sign : num) : M (list Point) :=
  randomLinearWithCorrelation targetCorrelation sign.

Definition getReferenceDataset (which : string) : option (list Point) :=
  property anscombe which.

(** The point [randomLinear] builds at index [i] from the draw [r] and
    the clock reading [t]. *)
Definition point_of (slope noise : num) (i : nat) (r : num) (t : N) : Point :=
  let x := of_nat i + of_Z 1 in
  mkPoint (stamp_id t i) x
          (slope * x + (r - lit 5 10) * noise * of_Z 10 + of_Z 10).

(** The points built for the indices [l] when the next draw is the
    [r]-th and the next clock reading the [c]-th. *)
Fixpoint linear_points (rnd : nat -> num) (clk : nat -> N) (slope noise : num)
    (r c : nat) (l : list nat) : list Point :=
  match l with
  | [] => []
  | i :: l' =>
      point_of slope noise i (rnd r) (clk c)
      :: linear_points rnd clk slope noise (S r) (S c) l'
  end.

(** The preset selection of the specification (section 3) and the key
    of [PRESET_KEYS] that stands for it in the source. *)
Inductive Preset : Type :=
| PositiveLinear | NegativeLinear | NoCorrelation
| AnscombeA | AnscombeB | AnscombeC | AnscombeD.

Definition preset_key (p : Preset) : string :=
  match p with
  | PositiveLinear => "Lineare positiva"
  | NegativeLinear => "Lineare negativa"
  | NoCorrelation => "Nessuna correlazione"
  | AnscombeA => "Anscombe A"
  | AnscombeB => "Anscombe B"
  | AnscombeC => "Anscombe C"
  | AnscombeD => "Anscombe D"
  end.

Definition is_reference (p : Preset) : bool :=
  match p with
  | AnscombeA | AnscombeB | AnscombeC | AnscombeD => true
  | _ => false
  end.

(** The generation path of a preset (specification, section 4.3, on
    preset change): the three linear variants call [generateLinear], with
    the current target or with 0, and a reference preset loads its
    fixed dataset. *)
Definition generation_path (p : Preset) (target : num) : M (option (list Point)) :=
  match p with
  | PositiveLinear => pts <- generateLinear target (of_Z 1) ;; ret (Some pts)
  | NegativeLinear => pts <- generateLinear target (of_Z (-1)) ;; ret (Some pts)
  | NoCorrelation => pts <- generateLinear (of_Z 0) (of_Z 1) ;; ret (Some pts)
  | AnscombeA => ret (getReferenceDataset "A")
  | AnscombeB => ret (getReferenceDataset "B")
  | AnscombeC => ret (getReferenceDataset "C")
  | AnscombeD => ret (getReferenceDataset "D")
  end.

(** The world after [n] more draws and [n] more clock readings. *)
Definition advance (n : nat) (w : World) : World :=
  mkWorld (random w) (now w) (drawn w + n) (clock_reads w + n).

(** An event other than a move of the slider. *)
Definition keeps_target (e : Event) : Prop :=
  match e with
  | SetCorrelation _ => False
  | _ => True
  end.

(** An event the page can send: the select offers the keys of
    [PRESET_KEYS] only. *)
Definition offered (e : Event) : Prop :=
  match e with
  | SelectPreset k => In k PRESET_KEYS
  | _ => True
  end.

End Core.

Arguments Point num : clear implicits.
Arguments World num : clear implicits.
Arguments State num : clear implicits.
Arguments Event num : clear implicits.
Arguments Rect num : clear implicits.
Arguments M num A : clear implicits.

(** No character of [s] is the dash of the id templates. *)
Fixpoint dashless (s : string) : Prop :=
  match s with
  | EmptyString => True
  | String c s' => c <> "-"%char /\ dashless s'
  end.

(** ** The specification's Pearson coefficient, over the reals *)

Local Open Scope R_scope.

Definition Rsum (l : list R) : R := fold_right Rplus 0 l.

(** The arithmetic mean of the values [f p]. *)
Definition mean (f : Point R -> R) (pts : list (Point R)) : R :=
  Rsum (map f pts) / INR (List.length pts).

Definition dx (pts : list (Point R)) (p : Point R) : R := p.(x) - mean (@x R) pts.
Definition dy (pts : list (Point R)) (p : Point R) : R := p.(y) - mean (@y R) pts.

(** The sums [Σ dx·dy], [Σ dx²] and [Σ dy²]. *)
Definition Sxy (pts : list (Point R)) : R := Rsum (map (fun p => dx pts p * dy pts p) pts).
Definition Sxx (pts : list (Point R)) : R := Rsum (map (fun p => dx pts p * dx pts p) pts).
Definition Syy (pts : list (Point R)) : R := Rsum (map (fun p => dy pts p * dy pts p) pts).

(** [r = Σ(dx·dy) / sqrt(Σdx² · Σdy²)]. *)
Definition pearson (pts : list (Point R)) : R :=
  Sxy pts / sqrt (Sxx pts * Syy pts).

(** A point without an id of interest. *)
Definition pt (a b : R) : Point R := mkPoint "" a b.

(** A world whose every draw is 1/4 and whose clock advances by one
    millisecond at each reading. *)
Definition quarter_world : World R :=
  mkWorld (fun _ => 1 / 4) (fun k => N.of_nat k) 0 0.

(** A world that agrees with [quarter_world] on the first 20 draws and
    differs from it afterwards. *)
Definition turning_world : World R :=
  mkWorld (fun k => if (k <? 20)%nat then 1 / 4 else 3 / 4)
          (fun k => N.of_nat k) 0 0.

(** Every point of the dataset lies on the line [y = m·x + b]. *)
Definition on_line (m b : R) (pts : list (Point R)) : Prop :=
  forall p, In p pts -> p.(y) = m * p.(x) + b.



(** ** Exact arithmetic with the special values of IEEE 754

    The reals with two infinities and NaN: no operation rounds,
    overflows or underflows, and there is one zero (taken as +0 where
    IEEE 754 looks at the sign of a zero); a quotient by zero and the
    square root of a negative number answer as they do in JavaScript.
    In this instance the guards of [correlation] show: without them a
    dataset with no variance gives NaN. *)
Inductive XR : Type := Fin (r : R) | PInf | NInf | XNaN.

Definition xopp (a : XR) : XR :=
  match a with
  | Fin u => Fin (- u)
  | PInf => NInf
  | NInf => PInf
  | XNaN => XNaN
  end.

Definition xadd (a b : XR) : XR :=
  match a, b with
  | XNaN, _ | _, XNaN => XNaN
  | Fin u, Fin v => Fin (u + v)
  | PInf, NInf | NInf, PInf => XNaN
  | PInf, _ | _, PInf => PInf
  | NInf, _ | _, NInf => NInf
  end.

Definition xsub (a b : XR) : XR := xadd a (xopp b).

(** An infinity times, or divided by, the finite [u]. *)
Definition xscale (i : XR) (u : R) : XR :=
  if Rlt_dec u 0 then xopp i else i.

Definition xmul (a b : XR) : XR :=
  match a, b with
  | XNaN, _ | _, XNaN => XNaN
  | Fin u, Fin v => Fin (u * v)
  | Fin u, i | i, Fin u => if Req_dec_T u 0 then XNaN else xscale i u
  | PInf, PInf | NInf, NInf => PInf
  | PInf, NInf | NInf, PInf => NInf
  end.

Definition xdiv (a b : XR) : XR :=
  match a, b with
  | XNaN, _ | _, XNaN => XNaN
  | Fin u, Fin v =>
      if Req_dec_T v 0
      then if Req_dec_T u 0 then XNaN else xscale PInf u
      else Fin (u / v)
  | Fin _, _ => Fin 0
  | i, Fin v => xscale i v
  | _, _ => XNaN
  end.

Definition xsqrt (a : XR) : XR :=
  match a with
  | Fin u => if Rlt_dec u 0 then XNaN else Fin (sqrt u)
  | PInf => PInf
  | _ => XNaN
  end.

Definition xeq (a b : XR) : bool :=
  match a, b with
  | Fin u, Fin v => if Req_dec_T u v then true else false
  | PInf, PInf | NInf, NInf => true
  | _, _ => false
  end.

Definition xsame (a b : XR) : bool :=
  match a, b with
  | XNaN, XNaN => true
  | _, _ => xeq a b
  end.

#[export] Instance Xnumber : Number XR := {
  of_Z := fun z => Fin (IZR z);
  nadd := xadd;
  nsub := xsub;
  nmul := xmul;
  ndiv := xdiv;
  nsqrt := xsqrt;
  strict_eq := xeq;
  same_value := xsame
}.

(** A dataset of finite points in this arithmetic. *)
Definition exact_points (pts : list (Point R)) : list (Point XR) :=
  map (fun p => mkPoint p.(id) (Fin p.(x)) (Fin p.(y))) pts.

(** ** The formula of the specification, in any arithmetic

    [r = Σ(dx·dy) / sqrt(Σdx² · Σdy²)] with [dx = x - meanX],
    [dy = y - meanY] and the arithmetic means, each [Σ] taken in the
    order of the dataset. *)

Section Formula.
Context {num : Type} `{Number num}.

(** [Σ]: the sum of the terms in the order of the dataset, from 0. *)
Definition total (l : list num) : num := fold_left nadd l (of_Z 0).

Definition mean_of (f : Point num -> num) (pts : list (Point num)) : num :=
  ndiv (total (map f pts)) (of_nat (List.length pts)).

Definition sum_xy (pts : list (Point num)) : num :=
  total (map (fun p => nmul (nsub p.(x) (mean_of (@x num) pts))
                            (nsub p.(y) (mean_of (@y num) pts))) pts).

Definition sum_xx (pts : list (Point num)) : num :=
  total (map (fun p => nmul (nsub p.(x) (mean_of (@x num) pts))
                            (nsub p.(x) (mean_of (@x num) pts))) pts).

Definition sum_yy (pts : list (Point num)) : num :=
  total (map (fun p => nmul (nsub p.(y) (mean_of (@y num) pts))
                            (nsub p.(y) (mean_of (@y num) pts))) pts).

(** [r = Σ(dx·dy) / sqrt(Σdx² · Σdy²)], with no guard. *)
Definition pearson_formula (pts : list (Point num)) : num :=
  ndiv (sum_xy pts) (nsqrt (nmul (sum_xx pts) (sum_yy pts))).

End Formula.

(** A binary64 value that is not a zero. *)
Definition nonzero_sf (x : SpecFloat.spec_float) : Prop :=
  match x with SpecFloat.S754_zero _ => False | _ => True end.

(** ** Binary64 datasets used below *)

Module Binary64.
Import PrimFloat.
Local Open Scope float_scope.

Definition fpt (a b : float) : Point float := mkPoint "" a b.

(** Two points with the same x whose y are [2^600] and [-2^600]
    (about 4.15e180): the squares of the deviations in y overflow. *)
Definition overflow_points : list (Point float) :=
  [ fpt 1 0x1p+600; fpt 1 (-0x1p+600) ].

(** Two points with the same x and moderate y. *)
Definition no_spread_points : list (Point float) := [ fpt 3 1; fpt 3 2 ].

(** A world in which every clock reading falls in one millisecond. *)
Definition same_ms_world : World float :=
  mkWorld (fun _ => 0.5) (fun _ => 1730000000000%N) 0 0.

(** A world whose clock advances by one millisecond at each reading. *)
Definition ticking_world : World float :=
  mkWorld (fun _ => 0.5) (fun k => (1730000000000 + N.of_nat k)%N) 0 0.

(** Three points with ids of their own. *)
Definition named_points : list (Point float) :=
  [ mkPoint "a" 1 2; mkPoint "b" 3 4; mkPoint "c" 5 6 ].

(** A state on the positive linear preset with the initial target. *)
Definition linear_state : State float :=
  mkState (lit 8 10) "Lineare positiva" named_points.

(** A visit to the reference preset B: selection, drag, regeneration. *)
Definition visit : list (Event float) :=
  [ SelectPreset "Anscombe B"; DragPoint "B-7" 100 100; Regenerate ].

(** A session: the slider is moved to 0.35, the reference preset B is
    selected, one of its points is dragged away, the dataset is
    regenerated, and the negative linear preset is selected. *)
Definition session : list (Event float) :=
  [ SetCorrelation (lit 35 100); SelectPreset "Anscombe B";
    DragPoint "B-7" 100 100; Regenerate; SelectPreset "Lineare negativa" ].

(** The state a run of events reaches after mounting in [w], if any. *)
Definition after_mount (es : list (Event float)) (w : World float)
  : option (State float) :=
  let '(o, w') := mount w in
  match o with
  | Some s => fst (run es s w')
  | None => None
  end.

End Binary64.

(** ** The explanation under the chart and the pointer gestures *)

(** The comparisons and the absolute value that the render of [App]
    applies to the coefficient. *)
Class Ordered (num : Type) : Type := {
  ngt : num -> num -> bool;             (* a > b *)
  nlt : num -> num -> bool;             (* a < b *)
  nabs : num -> num                     (* Math.abs(a) *)
}.

#[export] Instance Rordered : Ordered R := {
  ngt := fun a b => if Rlt_dec b a then true else false;
  nlt := fun a b => if Rlt_dec a b then true else false;
  nabs := Rabs
}.

(** In binary64 a comparison with NaN is false. *)
#[export] Instance Fordered : Ordered PrimFloat.float := {
  ngt := fun a b => PrimFloat.ltb b a;
  nlt := PrimFloat.ltb;
  nabs := PrimFloat.abs
}.

Section Display.

Context {num : Type} `{Number num} `{Ordered num}.

(** [Math.abs(r) > 0.7 ? "forte" : Math.abs(r) > 0.3 ? "moderata" : "debole"]. *)
Definition strength (r : num) : string :=
  if ngt (nabs r) (lit 7 10) then "forte"
  else if ngt (nabs r) (lit 3 10) then "moderata"
  else "debole".

(** [r > 0 ? "positiva" : r < 0 ? "negativa" : "nessuna"]. *)
Definition direction (r : num) : string :=
  if ngt r (of_Z 0) then "positiva"
  else if nlt r (of_Z 0) then "negativa"
  else "nessuna".

(** The two labels the render of [App] shows for the current points. *)
Definition explanation (points : list (Point num)) : string * string :=
  let r := correlation points in
  (strength r, direction r).

(** What reaches one [DraggableDot]: a press on its circle, a release
    anywhere in the window, a pointer move anywhere in the window, with
    the rectangle of the plot at that moment ([None] when [plotRef.current]
    is null). *)
Inductive PointerEvent : Type :=
| PointerDown
| PointerUp
| PointerMove (rect : option (Rect num)) (clientX clientY : num).

(** One pointer event on the dot whose payload has id [payload_id]: the
    state is the [dragging] cell of the dot and the points of [App]. *)
Definition dot_step (payload_id : string) (e : PointerEvent)
    (st : bool * list (Point num)) : bool * list (Point num) :=
  let '(dragging, pts) := st in
  match e with
  | PointerDown => (true, pts)
  | PointerUp => (false, pts)
  | PointerMove rect clientX clientY =>
      (dragging, handleMove dragging rect clientX clientY payload_id pts)
  end.

Definition dot_run (payload_id : string) (es : list PointerEvent)
    (st : bool * list (Point num)) : bool * list (Point num) :=
  fold_left (fun st e => dot_step payload_id e st) es st.

(** The coordinates [handleMove] computes from a pointer position. *)
Definition pointer_x (rect : Rect num) (clientX : num) : num :=
  nmul (ndiv (nsub clientX rect.(left)) rect.(width)) (of_Z 20).

Definition pointer_y (rect : Rect num) (clientY : num) : num :=
  nsub (of_Z 20) (nmul (ndiv (nsub clientY rect.(top)) rect.(height)) (of_Z 20)).

(** A pointer move that carries a rectangle. *)
Definition move_with_rect (e : PointerEvent) : Prop :=
  match e with
  | PointerMove (Some _) _ _ => True
  | _ => False
  end.

(** The dataset with the two coordinates of every point exchanged, and
    with the coordinates rescaled and shifted. *)
Definition swap_xy (pts : list (Point num)) : list (Point num) :=
  map (fun p => mkPoint p.(id) p.(y) p.(x)) pts.

Definition affine (a b c d : num) (pts : list (Point num)) : list (Point num) :=
  map (fun p => mkPoint p.(id) (nadd (nmul a p.(x)) b) (nadd (nmul c p.(y)) d)) pts.

(** What every state of [App] is shown below to satisfy: a key
    of the select, 20 points under a linear preset and 11 under a
    reference one, and pairwise distinct ids. *)
Definition well_formed (s : State num) : Prop :=
  In s.(presetKey) PRESET_KEYS /\
  List.length s.(points) = (if isLinear s.(presetKey) then 20 else 11)%nat /\
  NoDup (map (@id num) s.(points)).

(** An event after which the points are generated anew in state [s]. *)
Definition regenerates (s : State num) (e : Event num) : Prop :=
  match e with
  | Regenerate => True
  | SelectPreset k => k <> s.(presetKey)
  | SetCorrelation v => same_value v s.(correlationValue) = false
  | DragPoint _ _ _ => False
  end.

End Display.

Arguments PointerEvent num : clear implicits.

(** A dataset given by integer coordinates, in either arithmetic. *)
Definition integer_points {num : Type} `{Number num} (l : list (Z * Z))
  : list (Point num) :=
  map (fun xy => mkPoint EmptyString (of_Z (fst xy)) (of_Z (snd xy))) l.

(** Five points on the x-axis but for the middle one, lifted to [h]:
    symmetric about [x = 3]. *)
Definition bump (h : Z) : list (Z * Z) :=
  [(1, 0); (2, 0); (3, h); (4, 0); (5, 0)]%Z.

(** Two datasets whose coefficients lie on either side of 0.7. *)
Definition above_threshold : list (Z * Z) := [(1, 0); (2, 0); (3, 11); (4, 6)]%Z.
Definition below_threshold : list (Z * Z) := [(1, 0); (2, 4); (3, 0); (4, 9)]%Z.

(** The scales [2^-300] and [2^300], exact in either arithmetic. *)
Definition tiny_scale {num : Type} `{Number num} : num :=
  let b := of_Z (2 ^ 60)%Z in
  ndiv (of_Z 1) (nmul b (nmul b (nmul b (nmul b b)))).

Definition huge_scale {num : Type} `{Number num} : num :=
  let b := of_Z (2 ^ 60)%Z in
  nmul b (nmul b (nmul b (nmul b b))).

(** Three points of the line [y = x]: [(0,0)], [(s,s)], [(2s,2s)]. *)
Definition scaled_line {num : Type} `{Number num} (s : num) : list (Point num) :=
  [ mkPoint EmptyString (of_Z 0) (of_Z 0);
    mkPoint EmptyString s s;
    mkPoint EmptyString (nmul (of_Z 2) s) (nmul (of_Z 2) s) ].

(** Three points of the line [y = x + 1]. *)
Definition offset_line : list (Z * Z) := [(0, 1); (1, 2); (3, 4)]%Z.

(** The points of the line [y = m·x + b] over [x = 1, ..., 20], and
    the integers from -100 to 100. *)
Definition integer_line (m b : Z) : list (Z * Z) :=
  map (fun i => (Z.of_nat i, m * Z.of_nat i + b)%Z) (seq 1 20).

Definition grid : list Z := map (fun k => (Z.of_nat k - 100)%Z) (seq 0 201).

(** A pointer event other than a press on the dot. *)
Definition not_press {num : Type} (e : PointerEvent num) : Prop :=
  match e with
  | PointerDown => False
  | _ => True
  end.

(** No character of [s] is a space. *)
Fixpoint spaceless (s : string) : Prop :=
  match s with
  | EmptyString => True
  | String c s' => c <> " "%char /\ spaceless s'
  end.

(** The first character of [s] is one of [cs]; false on the empty string. *)
Definition starts_with_one_of (cs : list ascii) (s : string) : Prop :=
  match s with
  | EmptyString => False
  | String c _ => In c cs
  end.

(** The characters a generated id can start with. *)
Definition digits_or_dash : list ascii :=
  ["0"; "1"; "2"; "3"; "4"; "5"; "6"; "7"; "8"; "9"; "-"]%char.

(** A plot of 600 by 400 pixels placed at (8, 8), and the first point
    [generateLinear(0.8, 1)] builds in [quarter_world]. *)
Definition plot_rect : Rect R := mkRect 8 8 600 400.

Definition first_point : Point R :=
  point_of (nmul 1 (8 / 10))
           (nadd (nsub (lit 15 10) (nmul (8 / 10) (lit 15 10))) (lit 2 10))
           0 (1 / 4) 0%N.

(** ** Binary64 classes and inputs used below *)

Module Binary64Classes.
Import PrimFloat SpecFloat FloatOps.
Import Binary64.
Local Open Scope float_scope.

(** [f] is NaN or the infinity of sign [s]. *)
Definition stuck (s : bool) (f : float) : Prop :=
  Prim2SF f = S754_infinity s \/ Prim2SF f = S754_nan.

(** [f] is not negative (or is NaN): the class of an array length. *)
Definition unsigned (f : float) : Prop :=
  match Prim2SF f with
  | S754_zero s | S754_infinity s | S754_finite s _ _ => s = false
  | S754_nan => True
  end.

(** Two points, one with a NaN x-coordinate. *)
Definition nan_points : list (Point float) := [ fpt nan 1; fpt 2 3 ].

(** A plot whose rectangle has collapsed to zero width. *)
Definition collapsed_rect : Rect float := mkRect 8 8 0 400.

(** The dataset A of the quartet. *)
Definition reference_A : list (Point float) :=
  match getReferenceDataset "A" with
  | Some data => data
  | None => []
  end.

(** The dataset A of the quartet with every x, or every y, replaced by
    5.1. *)
Definition same_x_points : list (Point float) :=
  map (fun p => mkPoint p.(id) (lit 51 10) p.(y)) reference_A.

Definition same_y_points : list (Point float) :=
  map (fun p => mkPoint p.(id) p.(y) (lit 51 10)) reference_A.

(** [correlation] on the points of [y = m·x + b] over [x = 1, ..., 20]
    is the sign of [m], bit for bit. *)
Definition exact_on_grid (m b : Z) : bool :=
  PrimFloat.Leibniz.eqb
    (correlation (integer_points (num:=float) (integer_line m b)))
    (of_Z (Z.sgn m)).

(** Moves of a drag and what follows its release. *)
Definition drag_moves : list (PointerEvent float) :=
  [ PointerMove (Some (mkRect 8 8 600 400)) 100 100;
    PointerMove (Some (mkRect 8 8 600 400)) 120 90 ].

Definition after_release : list (PointerEvent float) :=
  [ PointerMove (Some (mkRect 8 8 600 400)) 300 300; PointerUp ].

End Binary64Classes.

(** ** What the page prints *)

Module Binary64Display.
Import PrimFloat SpecFloat FloatOps.
Import Binary64.
Local Open Scope string_scope.

Fixpoint zeros (k : nat) : string :=
  match k with
  | O => EmptyString
  | S k' => String "0" (zeros k')
  end.

(** The integer [n] nearest to [100·m·2^e], the larger one of two. *)
Definition hundredths (m : positive) (e : Z) : Z :=
  match e with
  | Zneg p => (200 * Zpos m + 2 ^ Zpos p) / 2 ^ (Zpos p + 1)
  | _ => 100 * Zpos m * 2 ^ e
  end.

(** [10^21 <= m·2^e]. *)
Definition huge (m : positive) (e : Z) : bool :=
  match e with
  | Zneg p => (10 ^ 21 * 2 ^ Zpos p <=? Zpos m)%Z
  | _ => (10 ^ 21 <=? Zpos m * 2 ^ e)%Z
  end.

(** The digits of [n] with a point before the last two, [n] being
    padded with zeros to three digits. *)
Definition fixed2 (n : N) : string :=
  let m := decimal_N n in
  let k := String.length m in
  let m := if (k <=? 2)%nat then zeros (3 - k) ++ m else m in
  let k := if (k <=? 2)%nat then 3%nat else k in
  substring 0 (k - 2) m ++ "." ++ substring (k - 2) 2 m.

Section ToFixed.

(** [Number::toString] on the finite values of magnitude at least
    10^21, which [toFixed] hands over to it. *)
Variable Number_toString : float -> string.

(** [x.toFixed(2)]. *)
Definition toFixed2 (x : float) : string :=
  match Prim2SF x with
  | S754_nan => "NaN"
  | S754_infinity false => "Infinity"
  | S754_infinity true => "-Infinity"
  | S754_zero _ => fixed2 0
  | S754_finite s m e =>
      (if s then "-" else EmptyString) ++
      (if huge m e then Number_toString (abs x)
       else fixed2 (Z.to_N (hundredths m e)))
  end.

(** What the paragraph under the chart shows: [rRounded], [strength]
    and [direction]. *)
Definition headline (points : list (Point float)) : string * string * string :=
  let r := correlation points in
  (toFixed2 r, strength r, direction r).

End ToFixed.

(** The label [k / 100] with two decimals. *)
Definition two_decimals (k : nat) : string :=
  decimal_nat (k / 100) ++ "." ++ decimal_nat (k / 10 mod 10) ++ decimal_nat (k mod 10).

(** The positions of the slider, in hundredths. *)
Definition slider_values : list nat := seq 0 101.

End Binary64Display.

(** * Theorems *)

(** ** The loop of [correlation] computes the three sums *)

Section Loop.

Context {num : Type} `{Number num}.

(** [correlation] through the accumulators of its loop, in any
    arithmetic. *)
Lemma correlation_loop_sums (pts : list (Point num)) :
  correlation pts =
  if (List.length pts <? 2)%nat then of_Z 0
  else let '(n, dX, dY) := loop_sums pts in
       if strict_eq (nmul dX dY) (of_Z 0) then of_Z 0
       else ndiv n (nsqrt (nmul dX dY)).
Proof. reflexivity. Qed.

Lemma correlation_short (pts : list (Point num)) :
  (List.length pts < 2)%nat -> correlation pts = of_Z 0.
Proof.
  intros Hlt. rewrite correlation_loop_sums.
  destruct (Nat.ltb_spec (List.length pts) 2); [reflexivity|lia].
Qed.

End Loop.

Lemma fold_left_add (f : Point R -> R) (l : list (Point R)) (a : R) :
  fold_left (fun a p => nadd a (f p)) l a = a + Rsum (map f l).
Proof.
  revert a; induction l as [|p l IH]; intros a; simpl.
  - lra.
  - rewrite IH. simpl. lra.
Qed.

Lemma fold_left_accumulate (mX mY : R) (l : list (Point R)) (a b c : R) :
  fold_left (accumulate mX mY) l (a, b, c) =
  (a + Rsum (map (fun p => (p.(x) - mX) * (p.(y) - mY)) l),
   b + Rsum (map (fun p => (p.(x) - mX) * (p.(x) - mX)) l),
   c + Rsum (map (fun p => (p.(y) - mY) * (p.(y) - mY)) l)).
Proof.
  revert a b c; induction l as [|p l IH]; intros a b c; simpl.
  - f_equal; [f_equal|]; lra.
  - rewrite IH. f_equal; [f_equal|]; simpl; lra.
Qed.

(** Over the reals the accumulators end as the three sums of the
    specification. *)
Lemma loop_sums_R (pts : list (Point R)) :
  loop_sums pts = (Sxy pts, Sxx pts, Syy pts).
Proof.
  unfold loop_sums.
  rewrite !fold_left_add, fold_left_accumulate.
  unfold of_nat. simpl of_Z. simpl ndiv. rewrite <- INR_IZR_INZ.
  rewrite !Rplus_0_l. reflexivity.
Qed.

(** [correlation] in terms of the sums, on every input. *)
Lemma correlation_sums (pts : list (Point R)) :
  correlation pts =
  if (List.length pts <? 2)%nat then 0
  else if Req_dec_T (Sxx pts * Syy pts) 0 then 0
       else Sxy pts / sqrt (Sxx pts * Syy pts).
Proof.
  rewrite correlation_loop_sums, loop_sums_R.
  destruct (List.length pts <? 2)%nat; [reflexivity|].
  simpl. destruct (Req_dec_T (Sxx pts * Syy pts) 0); reflexivity.
Qed.

(** Over the reals, on every dataset of at least two points whose
    variance sums [Σdx²] and [Σdy²] are both non-zero, [correlation] is
    the Pearson coefficient [Σ(dx·dy) / sqrt(Σdx² · Σdy²)], the
    deviations being taken from the arithmetic means. *)
Lemma correlation_pearson_R (pts : list (Point R)) :
  (2 <= List.length pts)%nat ->
  Sxx pts <> 0 -> Syy pts <> 0 ->
  correlation pts = pearson pts.
Proof.
  intros Hn Hx Hy. rewrite correlation_sums.
  destruct (Nat.ltb_spec (List.length pts) 2) as [Hlt|_]; [lia|].
  destruct (Req_dec_T (Sxx pts * Syy pts) 0) as [Hz|_].
  - apply Rmult_integral in Hz. tauto.
  - reflexivity.
Qed.

(** ** Order of the points *)

Lemma Rsum_Permutation (l l' : list R) : Permutation l l' -> Rsum l = Rsum l'.
Proof.
  induction 1; simpl; lra.
Qed.

Lemma mean_Permutation (f : Point R -> R) (pts pts' : list (Point R)) :
  Permutation pts pts' -> mean f pts = mean f pts'.
Proof.
  intros HP. unfold mean.
  rewrite (Rsum_Permutation _ _ (Permutation_map f HP)).
  now rewrite (Permutation_length HP).
Qed.

Lemma sums_Permutation (pts pts' : list (Point R)) :
  Permutation pts pts' ->
  Sxy pts = Sxy pts' /\ Sxx pts = Sxx pts' /\ Syy pts = Syy pts'.
Proof.
  intros HP. unfold Sxy, Sxx, Syy, dx, dy.
  rewrite !(mean_Permutation _ _ _ HP).
  repeat split; apply Rsum_Permutation, Permutation_map, HP.
Qed.

(** C8.  In exact arithmetic [correlation] does not depend on the
    order of the points: two datasets that are permutations of one
    another have the same coefficient. *)
Theorem correlation_Permutation (pts pts' : list (Point R)) :
  Permutation pts pts' -> correlation pts = correlation pts'.
Proof.
  intros HP. rewrite !correlation_sums.
  destruct (sums_Permutation _ _ HP) as (-> & -> & ->).
  now rewrite (Permutation_length HP).
Qed.

Lemma correlation_Permutation_witness :
  Permutation [pt 1 2; pt 2 4; pt 3 5] [pt 3 5; pt 1 2; pt 2 4] /\
  correlation [pt 1 2; pt 2 4; pt 3 5] = correlation [pt 3 5; pt 1 2; pt 2 4].
Proof.
  assert (HP : Permutation [pt 1 2; pt 2 4; pt 3 5] [pt 3 5; pt 1 2; pt 2 4]).
  { apply Permutation_sym.
    apply (Permutation_cons_app [pt 1 2; pt 2 4] [] (pt 3 5)).
    rewrite app_nil_r. apply Permutation_refl. }
  exact (conj HP (correlation_Permutation _ _ HP)).
Defined.

(** ** Points on a line *)

Lemma Rsum_map_ext_in (f g : Point R -> R) (l : list (Point R)) :
  (forall p, In p l -> f p = g p) -> Rsum (map f l) = Rsum (map g l).
Proof.
  intros E. now rewrite (map_ext_in _ _ _ E).
Qed.

Lemma Rsum_map_scale (m : R) (f : Point R -> R) (l : list (Point R)) :
  Rsum (map (fun p => m * f p) l) = m * Rsum (map f l).
Proof.
  induction l as [|p l IH]; simpl; [|rewrite IH]; lra.
Qed.

Lemma Rsum_map_affine (m b : R) (f : Point R -> R) (l : list (Point R)) :
  Rsum (map (fun p => m * f p + b) l) = m * Rsum (map f l) + INR (List.length l) * b.
Proof.
  induction l as [|p l IH].
  - simpl. lra.
  - cbn [map Rsum fold_right List.length]. fold (Rsum (map (fun p => m * f p + b) l)).
    fold (Rsum (map f l)). rewrite IH, S_INR. lra.
Qed.

Lemma Rsum_squares_nonneg (f : Point R -> R) (l : list (Point R)) :
  0 <= Rsum (map (fun p => f p * f p) l).
Proof.
  induction l as [|p l IH]; simpl; [lra|].
  fold (Rsum (map (fun p => f p * f p) l)). nra.
Qed.

Lemma Rsum_squares_pos (f : Point R -> R) (l : list (Point R)) (p : Point R) :
  In p l -> f p <> 0 -> 0 < Rsum (map (fun p => f p * f p) l).
Proof.
  induction l as [|q l IH]; intros Hin Hp; [contradiction|].
  simpl. fold (Rsum (map (fun p => f p * f p) l)).
  pose proof (Rsum_squares_nonneg f l) as Hl.
  destruct Hin as [->|Hin].
  - nra.
  - specialize (IH Hin Hp). nra.
Qed.

Lemma Sxx_nonneg (pts : list (Point R)) : 0 <= Sxx pts.
Proof. apply Rsum_squares_nonneg. Qed.

Lemma Syy_nonneg (pts : list (Point R)) : 0 <= Syy pts.
Proof. apply Rsum_squares_nonneg. Qed.

(** Two points with different abscissas: at least two points, and a
    positive [Σdx²]. *)
Lemma distinct_x_spread (pts : list (Point R)) (p q : Point R) :
  In p pts -> In q pts -> p.(x) <> q.(x) ->
  (2 <= List.length pts)%nat /\ 0 < Sxx pts.
Proof.
  intros Hp Hq Hne. split.
  - destruct pts as [|a [|b l]]; simpl in *; try lia; try tauto.
    destruct Hp as [<-|[]], Hq as [<-|[]]. congruence.
  - destruct (Req_dec_T (dx pts p) 0) as [Ep|Np].
    + apply (Rsum_squares_pos (dx pts) pts q Hq).
      unfold dx in *. lra.
    + apply (Rsum_squares_pos (dx pts) pts p Hp Np).
Qed.

Lemma on_line_mean (m b : R) (pts : list (Point R)) :
  on_line m b pts -> pts <> [] ->
  mean (@y R) pts = m * mean (@x R) pts + b.
Proof.
  intros Hl Hne. unfold mean.
  rewrite (Rsum_map_ext_in (@y R) (fun p => m * p.(x) + b) pts Hl).
  rewrite Rsum_map_affine.
  assert (INR (List.length pts) <> 0).
  { apply not_0_INR. destruct pts; [congruence|simpl; lia]. }
  field. assumption.
Qed.

Lemma on_line_sums (m b : R) (pts : list (Point R)) :
  on_line m b pts ->
  Sxy pts = m * Sxx pts /\ Syy pts = (m * m) * Sxx pts.
Proof.
  intros Hl. destruct pts as [|a l] eqn:E.
  - unfold Sxy, Syy, Sxx. simpl. lra.
  - rewrite <- E in *. assert (Hne : pts <> []) by (rewrite E; discriminate).
    assert (Hdy : forall p, In p pts -> dy pts p = m * dx pts p).
    { intros p Hp. unfold dy, dx. rewrite (on_line_mean _ _ _ Hl Hne), (Hl p Hp). lra. }
    unfold Sxy, Syy, Sxx. rewrite <- !Rsum_map_scale. split.
    + apply Rsum_map_ext_in. intros p Hp. rewrite (Hdy p Hp). lra.
    + apply Rsum_map_ext_in. intros p Hp. rewrite (Hdy p Hp). lra.
Qed.

Lemma sqrt_line (m s : R) : 0 < s -> sqrt (s * (m * m * s)) = Rabs m * s.
Proof.
  intros Hs.
  replace (s * (m * m * s)) with (Rsqr (m * s)) by (unfold Rsqr; lra).
  rewrite sqrt_Rsqr_abs, Rabs_mult, (Rabs_pos_eq s); lra.
Qed.

(** Over the reals, on a dataset whose points all lie on a line
    [y = m·x + b]: when [m = 0] the coefficient is [0]; when two of the
    points have different x-coordinates, the coefficient is [1] for
    [m > 0] and [-1] for [m < 0]. *)
Lemma line_coefficient_R (m b : R) (pts : list (Point R)) :
  on_line m b pts ->
  (m = 0 -> correlation pts = 0) /\
  ((exists p q, In p pts /\ In q pts /\ p.(x) <> q.(x)) ->
   (0 < m -> correlation pts = 1) /\ (m < 0 -> correlation pts = -1)).
Proof.
  intros Hl. destruct (on_line_sums _ _ _ Hl) as [Hxy Hyy].
  rewrite correlation_sums, Hxy, Hyy. split.
  - intros ->. destruct (_ <? _)%nat; [reflexivity|].
    destruct (Req_dec_T _ 0) as [_|Hn]; [reflexivity|].
    exfalso; apply Hn; ring.
  - intros (p & q & Hp & Hq & Hne).
    destruct (distinct_x_spread pts p q Hp Hq Hne) as [Hn Hs].
    destruct (Nat.ltb_spec (List.length pts) 2) as [Hlt|_]; [lia|].
    rewrite (sqrt_line m _ Hs).
    assert (Hpos : m <> 0 -> 0 < Sxx pts * (m * m * Sxx pts)).
    { intros Hm. assert (0 < m * m) by nra.
      apply Rmult_lt_0_compat; [|apply Rmult_lt_0_compat]; assumption. }
    split; intros Hm.
    + destruct (Req_dec_T _ 0) as [Hz|_]; [specialize (Hpos ltac:(lra)); lra|].
      rewrite Rabs_pos_eq by lra. field. lra.
    + destruct (Req_dec_T _ 0) as [Hz|_]; [specialize (Hpos ltac:(lra)); lra|].
      rewrite Rabs_left by lra. field. lra.
Qed.

(** ** The Anscombe quartet *)

Lemma ratio_between (a P lo hi : R) :
  0 < a -> 0 < P -> 0 < lo -> 0 < hi ->
  lo * lo * P < a * a -> a * a < hi * hi * P ->
  lo < a / sqrt P < hi.
Proof.
  intros Ha HP Hlo Hhi H1 H2.
  pose proof (sqrt_lt_R0 P HP) as Hs.
  pose proof (sqrt_sqrt P (Rlt_le _ _ HP)) as Hss.
  set (s := sqrt P) in *.
  assert (lo * s < a).
  { destruct (Rlt_le_dec (lo * s) a) as [|Hle]; [assumption|exfalso].
    assert (a * a <= lo * lo * P); [|lra].
    replace (lo * lo * P) with ((lo * s) * (lo * s)) by (rewrite <- Hss; ring).
    apply Rmult_le_compat; lra. }
  assert (a < hi * s).
  { destruct (Rlt_le_dec a (hi * s)) as [|Hle]; [assumption|exfalso].
    assert (0 < hi * s) by (apply Rmult_lt_0_compat; lra).
    assert (hi * hi * P <= a * a); [|lra].
    replace (hi * hi * P) with ((hi * s) * (hi * s)) by (rewrite <- Hss; ring).
    apply Rmult_le_compat; lra. }
  split.
  - apply (Rmult_lt_reg_r s); [assumption|]. unfold Rdiv.
    rewrite Rmult_assoc, Rinv_l by lra. lra.
  - apply (Rmult_lt_reg_r s); [assumption|]. unfold Rdiv.
    rewrite Rmult_assoc, Rinv_l by lra. lra.
Qed.

Lemma correlation_between (pts : list (Point R)) (lo hi : R) :
  (2 <= List.length pts)%nat ->
  0 < Sxy pts -> 0 < Sxx pts * Syy pts -> 0 < lo -> 0 < hi ->
  lo * lo * (Sxx pts * Syy pts) < Sxy pts * Sxy pts ->
  Sxy pts * Sxy pts < hi * hi * (Sxx pts * Syy pts) ->
  lo < correlation pts < hi.
Proof.
  intros Hn Ha HP Hlo Hhi H1 H2. rewrite correlation_sums.
  destruct (Nat.ltb_spec (List.length pts) 2) as [Hlt|_]; [lia|].
  destruct (Req_dec_T _ 0) as [Hz|_]; [lra|].
  now apply ratio_between.
Qed.

Ltac unfold_sums :=
  unfold Sxy, Sxx, Syy, dx, dy, mean;
  cbn [map_index map Rsum fold_right List.length x y fst snd of_Z lit ndiv Rnumber];
  rewrite ?INR_IZR_INZ; cbn [Z.of_nat Pos.of_succ_nat Pos.succ].

(** Each dataset is loaded by computation from the literal, and its
    coefficient is bracketed through the exact rational sums. *)
Ltac anscombe_bracket :=
  eexists; split; [reflexivity|]; split; [reflexivity|];
  apply correlation_between; [simpl; lia|unfold_sums; lra..].

Lemma anscombe_bracket_A :
  exists pts, property (anscombe (num:=R)) "A" = Some pts /\
    List.length pts = 11%nat /\ 0.8164 < correlation pts < 0.8165.
Proof. anscombe_bracket. Qed.

Lemma anscombe_bracket_B :
  exists pts, property (anscombe (num:=R)) "B" = Some pts /\
    List.length pts = 11%nat /\ 0.8162 < correlation pts < 0.8163.
Proof. anscombe_bracket. Qed.

Lemma anscombe_bracket_C :
  exists pts, property (anscombe (num:=R)) "C" = Some pts /\
    List.length pts = 11%nat /\ 0.8162 < correlation pts < 0.8163.
Proof. anscombe_bracket. Qed.

Lemma anscombe_bracket_D :
  exists pts, property (anscombe (num:=R)) "D" = Some pts /\
    List.length pts = 11%nat /\ 0.8165 < correlation pts < 0.8166.
Proof. anscombe_bracket. Qed.

(** C5.  Each of the keys A, B, C and D of [anscombe] holds a dataset
    of exactly 11 points, and in exact arithmetic the four coefficients
    are within 0.001 of 0.816, hence within 0.01 of one another. *)
Theorem anscombe_correlations :
  exists a b c d : list (Point R),
    (property anscombe "A" = Some a /\ property anscombe "B" = Some b /\
     property anscombe "C" = Some c /\ property anscombe "D" = Some d) /\
    (List.length a = 11 /\ List.length b = 11 /\
     List.length c = 11 /\ List.length d = 11)%nat /\
    (forall r, In r (map correlation [a; b; c; d]) -> Rabs (r - 0.816) < 0.001) /\
    (forall r r', In r (map correlation [a; b; c; d]) ->
                  In r' (map correlation [a; b; c; d]) -> Rabs (r - r') < 0.01).
Proof.
  destruct anscombe_bracket_A as (a & Ea & La & Ha).
  destruct anscombe_bracket_B as (b & Eb & Lb & Hb).
  destruct anscombe_bracket_C as (c & Ec & Lc & Hc).
  destruct anscombe_bracket_D as (d & Ed & Ld & Hd).
  exists a, b, c, d. repeat split; try assumption.
  - intros r [<-|[<-|[<-|[<-|[]]]]]; apply Rabs_def1; lra.
  - intros r r' [<-|[<-|[<-|[<-|[]]]]] [<-|[<-|[<-|[<-|[]]]]];
      apply Rabs_def1; lra.
Qed.

(** ** The guards of [correlation] *)

(** Over the reals no division of [correlation] has a zero divisor,
    whatever the dataset. *)
Lemma divisors_nonzero (pts : list (Point R)) (d : R) :
  In d (divisors pts) -> d <> 0.
Proof.
  unfold divisors.
  destruct (Nat.ltb_spec (List.length pts) 2) as [|Hn]; [intros []|].
  rewrite loop_sums_R.
  assert (Hlen : of_nat (List.length pts) <> 0).
  { unfold of_nat. simpl of_Z. rewrite <- INR_IZR_INZ. apply not_0_INR. lia. }
  simpl strict_eq. destruct (Req_dec_T _ _) as [|Hp]; simpl.
  - intros [<-|[<-|[]]]; assumption.
  - intros [<-|[<-|[<-|[]]]]; try assumption.
    pose proof (Sxx_nonneg pts). pose proof (Syy_nonneg pts).
    assert (0 < Sxx pts * Syy pts).
    { simpl in Hp. destruct (Rmult_neq_0_reg _ _ Hp).
      apply Rmult_lt_0_compat; lra. }
    pose proof (sqrt_lt_R0 _ H1). simpl. lra.
Qed.

Lemma correlation_no_variance (pts : list (Point R)) :
  Sxx pts = 0 \/ Syy pts = 0 -> correlation pts = 0.
Proof.
  intros Hz. rewrite correlation_sums.
  destruct (_ <? _)%nat; [reflexivity|].
  destruct (Req_dec_T _ 0) as [_|Hn]; [reflexivity|].
  exfalso; apply Hn. destruct Hz as [-> | ->]; ring.
Qed.

Module Binary64Facts.
Import PrimFloat SpecFloat FloatOps FloatAxioms.
Import Binary64.
Local Open Scope float_scope.

(** A zero times a finite number is a zero; with an infinity or a NaN
    in place of the finite number the product is NaN. *)
Lemma zero_times_finite (a b : float) :
  (a =? 0) = true -> is_finite b = true ->
  (a * b =? 0) = true /\ (b * a =? 0) = true.
Proof.
  unfold is_finite, is_nan, is_infinity.
  rewrite !eqb_spec, !mul_spec, abs_spec.
  change (Prim2SF 0) with (S754_zero false).
  change (Prim2SF infinity) with (S754_infinity false).
  destruct (Prim2SF a) as [sa|sa| |sa ma ea], (Prim2SF b) as [sb|sb| |sb mb eb];
    cbn; intros Ha Hb; try discriminate;
    try (destruct sb; discriminate); try (destruct sa; discriminate); auto.
Qed.

(** On [overflow_points] the sum [denomX] is exactly 0 and [denomY]
    has overflowed to infinity: the product tested by the guard is
    NaN, which is not [=== 0], and [correlation] answers NaN. *)
Lemma correlation_overflow_is_nan :
  loop_sums overflow_points = (0, 0, infinity) /\
  is_nan (0 * infinity) = true /\
  is_nan (correlation overflow_points) = true /\
  (correlation overflow_points =? 0) = false.
Proof. repeat split; vm_compute; reflexivity. Qed.

(** X1.  Evaluated in binary64, as the engine does, the four datasets of
    the quartet have 11 points each and a coefficient between 0.8162
    and 0.8166. *)
Example anscombe_correlations_binary64 :
  map (fun kv => (fst kv, List.length (snd kv),
                  (lit 8162 10000 <? correlation (snd kv))
                  && (correlation (snd kv) <? lit 8166 10000)))
      (anscombe (num:=float)) =
  [ ("A", 11%nat, true); ("B", 11%nat, true);
    ("C", 11%nat, true); ("D", 11%nat, true) ]%string.
Proof. vm_compute. reflexivity. Qed.

(** Three points on a line of slope 2, three on a line of slope -2. *)
Example correlation_line_binary64 :
  correlation [fpt 1 3; fpt 2 5; fpt 3 7] = 1 /\
  correlation [fpt 1 7; fpt 2 5; fpt 3 3] = -1.
Proof. split; vm_compute; reflexivity. Qed.

(** The session, run: after the drag the coefficient of B has left
    0.816; the regeneration brings back the 11 fixed points with their
    ids; the target set before the reference preset was selected is
    still stored when the linear preset comes back. *)
Example session_run :
  option_map (fun s => (presetKey s, map (@id _) (points s)))
             (after_mount (firstn 4 session) ticking_world) =
  Some ("Anscombe B",
        ["B-0"; "B-1"; "B-2"; "B-3"; "B-4"; "B-5"; "B-6"; "B-7"; "B-8";
         "B-9"; "B-10"])%string /\
  option_map (fun s => points s) (after_mount (firstn 4 session) ticking_world) =
  property anscombe "B" /\
  option_map (fun s => lit 9 10 <? correlation (points s))
             (after_mount (firstn 3 session) ticking_world) = Some true /\
  option_map (fun s => (correlationValue s, presetKey s, List.length (points s)))
             (after_mount session ticking_world) =
  Some (lit 35 100, "Lineare negativa"%string, 20%nat).
Proof. repeat split; vm_compute; reflexivity. Qed.

End Binary64Facts.

(** ** The generated points *)

Section Generator.

Context {num : Type} `{Number num}.

Lemma mapM_point_of (slope noise : num) (l : list nat) (w : World num) :
  mapM (fun i => bind Math_random (fun r => bind Date_now (fun t =>
          ret (point_of slope noise i r t)))) l w =
  (linear_points (random w) (now w) slope noise (drawn w) (clock_reads w) l,
   advance (List.length l) w).
Proof.
  revert w; induction l as [|i l IH]; intros [rnd clk r c].
  - unfold advance; simpl. unfold ret. now rewrite !Nat.add_0_r.
  - cbn [mapM]. unfold bind at 1. unfold bind at 1. unfold Math_random at 1.
    cbn [random now drawn clock_reads]. unfold bind at 1. unfold Date_now at 1.
    cbn [random now drawn clock_reads]. unfold ret at 1. unfold bind at 1.
    rewrite IH. unfold ret, advance. cbn.
    now rewrite <- !Nat.add_succ_comm.
Qed.

(** [randomLinear] makes 20 draws and 20 clock readings, one of each
    per point, in index order. *)
Lemma randomLinear_points (slope noise : num) (w : World num) :
  randomLinear slope noise w =
  (linear_points (random w) (now w) slope noise (drawn w) (clock_reads w) (seq 0 20),
   advance 20 w).
Proof. apply (mapM_point_of slope noise (seq 0 20) w). Qed.

Lemma linear_points_length rnd clk (slope noise : num) r c l :
  List.length (linear_points rnd clk slope noise r c l) = List.length l.
Proof.
  revert r c; induction l; intros; simpl; auto.
Qed.

Lemma linear_points_nth rnd clk (slope noise : num) (n : nat) :
  forall s r c j, (j < n)%nat ->
  nth_error (linear_points rnd clk slope noise r c (seq s n)) j =
  Some (point_of slope noise (s + j) (rnd (r + j)%nat) (clk (c + j)%nat)).
Proof.
  induction n as [|n IH]; intros s r c j Hj; [lia|].
  destruct j as [|j]; simpl.
  - now rewrite !Nat.add_0_r.
  - rewrite IH by lia. now rewrite !Nat.add_succ_comm.
Qed.

Lemma linear_points_In rnd clk (slope noise : num) (n : nat) s r c p :
  In p (linear_points rnd clk slope noise r c (seq s n)) ->
  exists j, (j < n)%nat /\
    p = point_of slope noise (s + j) (rnd (r + j)%nat) (clk (c + j)%nat).
Proof.
  intros Hin. apply In_nth_error in Hin. destruct Hin as [j Hj].
  assert (Hlt : (j < n)%nat).
  { assert (Hs : nth_error (linear_points rnd clk slope noise r c (seq s n)) j <> None)
      by congruence.
    apply nth_error_Some in Hs. now rewrite linear_points_length, length_seq in Hs. }
  exists j. split; [assumption|].
  rewrite linear_points_nth in Hj by assumption. congruence.
Qed.

(** The points of [generateLinear]: index [j] is built from the
    [j]-th next draw and the [j]-th next clock reading. *)
Lemma generateLinear_nth (target sign : num) (w : World num) (j : nat) :
  (j < 20)%nat ->
  nth_error (fst (generateLinear target sign w)) j =
  Some (point_of (nmul sign target)
                 (nadd (nsub (lit 15 10) (nmul target (lit 15 10))) (lit 2 10))
                 j (random w (drawn w + j)) (now w (clock_reads w + j))).
Proof.
  intros Hj. unfold generateLinear, randomLinearWithCorrelation.
  rewrite randomLinear_points. cbn [fst].
  now rewrite linear_points_nth.
Qed.

Lemma generateLinear_In (target sign : num) (w : World num) (p : Point num) :
  In p (fst (generateLinear target sign w)) ->
  exists j t, (j < 20)%nat /\ t = now w (clock_reads w + j) /\ p.(id) = stamp_id t j.
Proof.
  unfold generateLinear, randomLinearWithCorrelation.
  rewrite randomLinear_points. cbn [fst]. intros Hin.
  apply linear_points_In in Hin. destruct Hin as (j & Hj & ->).
  exists j, (now w (clock_reads w + j)). auto.
Qed.

Lemma generateLinear_length (target sign : num) (w : World num) :
  List.length (fst (generateLinear target sign w)) = 20%nat.
Proof.
  unfold generateLinear, randomLinearWithCorrelation.
  rewrite randomLinear_points. cbn [fst]. now rewrite linear_points_length.
Qed.

End Generator.

(** ** Identifiers *)

Lemma string_of_uint_dashless (d : Decimal.uint) :
  dashless (NilEmpty.string_of_uint d).
Proof.
  induction d; simpl; auto; split; auto; discriminate.
Qed.

Lemma append_dash_inj (a a' b b' : string) :
  dashless a -> dashless a' ->
  (a ++ "-" ++ b = a' ++ "-" ++ b')%string -> a = a' /\ b = b'.
Proof.
  revert a'; induction a as [|c a IH]; intros [|c' a'] Ha Ha' E; simpl in *.
  - injection E as E. auto.
  - injection E as E1 E2. destruct Ha' as [Hc _]. congruence.
  - injection E as E1 E2. destruct Ha as [Hc _]. congruence.
  - injection E as E1 E2. destruct Ha as [_ Ha], Ha' as [_ Ha'].
    destruct (IH a' Ha Ha' E2) as [-> ->]. subst. auto.
Qed.

Lemma string_of_uint_inj (d d' : Decimal.uint) :
  NilEmpty.string_of_uint d = NilEmpty.string_of_uint d' -> d = d'.
Proof.
  intros E. pose proof (NilEmpty.usu d) as U.
  rewrite E, NilEmpty.usu in U. congruence.
Qed.

(** The template [`${t}-${i}`] determines both [t] and [i]. *)
Lemma stamp_id_inj (t t' : N) (i i' : nat) :
  stamp_id t i = stamp_id t' i' -> t = t' /\ i = i'.
Proof.
  unfold stamp_id, decimal_N, decimal_nat. intros E.
  apply append_dash_inj in E; try apply string_of_uint_dashless.
  destruct E as [E1 E2]. split.
  - apply DecimalN.Unsigned.to_uint_inj, string_of_uint_inj, E1.
  - apply DecimalNat.Unsigned.to_uint_inj, string_of_uint_inj, E2.
Qed.

Section Identifiers.

Context {num : Type} `{Number num}.

(** C9 (amended).  The ids of a dataset made by [generateLinear] are
    pairwise distinct, and two such datasets have no id in common as
    soon as, index by index, the clock readings of the two generations
    differ (the clock, in milliseconds, has moved between them). *)
Theorem generated_ids (target sign target' sign' : num) (w w' : World num) :
  NoDup (map (@id num) (fst (generateLinear target sign w))) /\
  ((forall j, (j < 20)%nat ->
      now w (clock_reads w + j) <> now w' (clock_reads w' + j)) ->
   forall p q,
     In p (fst (generateLinear target sign w)) ->
     In q (fst (generateLinear target' sign' w')) ->
     p.(id) <> q.(id)).
Proof.
  split.
  - apply NoDup_nth_error. intros i j Hi E.
    rewrite length_map, generateLinear_length in Hi.
    assert (Hj : (j < 20)%nat).
    { assert (Hs : nth_error (map (@id num) (fst (generateLinear target sign w))) j <> None).
      { rewrite <- E, nth_error_map, generateLinear_nth by assumption. discriminate. }
      apply nth_error_Some in Hs.
      now rewrite length_map, generateLinear_length in Hs. }
    rewrite !nth_error_map, !generateLinear_nth in E by assumption.
    cbn in E. injection E as E. now apply stamp_id_inj in E.
  - intros Hclock p q Hp Hq E.
    apply generateLinear_In in Hp, Hq.
    destruct Hp as (j & t & Hj & -> & Ep), Hq as (j' & t' & Hj' & -> & Eq').
    rewrite Ep, Eq' in E. apply stamp_id_inj in E. destruct E as [Et <-].
    exact (Hclock j Hj Et).
Qed.

End Identifiers.

Module Binary64Ids.
Import Binary64.

Lemma generated_ids_witness :
  NoDup (map (@id _) (fst (generateLinear (lit 8 10) (of_Z 1) ticking_world))) /\
  (forall p q,
     In p (fst (generateLinear (lit 8 10) (of_Z 1) ticking_world)) ->
     In q (fst (generateLinear (lit 8 10) (of_Z 1) (advance 20 ticking_world))) ->
     p.(id) <> q.(id)).
Proof.
  destruct (generated_ids (lit 8 10) (of_Z 1) (lit 8 10) (of_Z 1)
              ticking_world (advance 20 ticking_world)) as [Hnodup Hfresh].
  split; [exact Hnodup|].
  apply Hfresh. intros j Hj.
  cbn [now clock_reads ticking_world advance]. lia.
Defined.

(** C9 as stated fails when two generations fall in one millisecond:
    the dataset generated next, from the world the first generation
    leaves, carries the very same ids. *)
Lemma generated_ids_same_millisecond :
  snd (generateLinear (lit 8 10) (of_Z 1) same_ms_world) = advance 20 same_ms_world /\
  map (@id _) (fst (generateLinear (lit 8 10) (of_Z 1) (advance 20 same_ms_world))) =
  map (@id _) (fst (generateLinear (lit 8 10) (of_Z 1) same_ms_world)) /\
  nth_error (map (@id _) (fst (generateLinear (lit 8 10) (of_Z 1) same_ms_world))) 0 =
  Some "1730000000000-0"%string.
Proof.
  split; [|split].
  - unfold generateLinear, randomLinearWithCorrelation.
    now rewrite randomLinear_points.
  - vm_compute. reflexivity.
  - vm_compute. reflexivity.
Qed.

End Binary64Ids.

(** ** The generated coordinates *)

(** C4.  Whatever the target, the sign and the draws of the random
    source, [generateLinear] returns exactly 20 points; the point of
    index [i] has x-coordinate [i + 1] and y-coordinate
    [slope·x + u·noise·10 + 10] with [slope = sign·target],
    [noise = 1.7 - 1.5·target] and [u = Math.random() - 0.5] for a
    draw of its own, the [i]-th next one.  As the random source
    answers in [0, 1), [u] ranges over [-0.5, 0.5). *)
Theorem generateLinear_points (target sign : R) (w : World R) :
  (forall k, 0 <= random w k < 1) ->
  List.length (fst (generateLinear target sign w)) = 20%nat /\
  forall i, (i < 20)%nat ->
    exists p u,
      nth_error (fst (generateLinear target sign w)) i = Some p /\
      u = random w (drawn w + i) - 0.5 /\ -0.5 <= u < 0.5 /\
      p.(x) = INR (i + 1) /\
      p.(y) = (sign * target) * p.(x) + u * (1.7 - 1.5 * target) * 10 + 10.
Proof.
  intros Hrnd. split; [apply generateLinear_length|].
  intros i Hi. rewrite generateLinear_nth by assumption.
  eexists. exists (random w (drawn w + i) - 0.5).
  split; [reflexivity|]. split; [reflexivity|].
  specialize (Hrnd (drawn w + i)%nat).
  split; [lra|].
  assert (Ex : nadd (of_nat i) (of_Z 1) = INR (i + 1)).
  { unfold of_nat. cbn [of_Z nadd Rnumber].
    rewrite <- INR_IZR_INZ, plus_INR. cbn [INR]. lra. }
  unfold point_of. cbn [x y]. rewrite Ex.
  unfold lit. cbn [of_Z nadd nsub nmul ndiv Rnumber].
  split; [reflexivity|]. lra.
Qed.

Lemma generateLinear_points_witness :
  (forall k, 0 <= random quarter_world k < 1) /\
  List.length (fst (generateLinear (8 / 10) 1 quarter_world)) = 20%nat /\
  forall i, (i < 20)%nat ->
    exists p u,
      nth_error (fst (generateLinear (8 / 10) 1 quarter_world)) i = Some p /\
      u = random quarter_world (drawn quarter_world + i) - 0.5 /\
      -0.5 <= u < 0.5 /\
      p.(x) = INR (i + 1) /\
      p.(y) = (1 * (8 / 10)) * p.(x) + u * (1.7 - 1.5 * (8 / 10)) * 10 + 10.
Proof.
  assert (Hrnd : forall k, 0 <= random quarter_world k < 1) by (intros k; cbn [random quarter_world]; lra).
  split; [exact Hrnd|].
  exact (generateLinear_points (8 / 10) 1 quarter_world Hrnd).
Defined.

(** ** Dragging a point *)

Section Drag.

Context {num : Type} `{Number num}.

(** C7.  [movePoint], the update a pointer move applies to the
    dataset, keeps the length, the order and every id; at each index
    it puts the new coordinates on a point whose id matches and leaves
    a point whose id differs as it was; in a dataset whose ids are
    pairwise distinct at most one index holds the id; when no point has
    the id the dataset is returned unchanged. *)
Theorem movePoint_frame (payload_id : string) (newX newY : num)
    (pts : list (Point num)) :
  List.length (movePoint payload_id newX newY pts) = List.length pts /\
  map (@id num) (movePoint payload_id newX newY pts) = map (@id num) pts /\
  (forall i p, nth_error pts i = Some p -> p.(id) = payload_id ->
     nth_error (movePoint payload_id newX newY pts) i =
     Some (mkPoint payload_id newX newY)) /\
  (forall i p, nth_error pts i = Some p -> p.(id) <> payload_id ->
     nth_error (movePoint payload_id newX newY pts) i = Some p) /\
  (NoDup (map (@id num) pts) ->
   forall i j p q, nth_error pts i = Some p -> nth_error pts j = Some q ->
     p.(id) = payload_id -> q.(id) = payload_id -> i = j) /\
  ((forall p, In p pts -> p.(id) <> payload_id) ->
     movePoint payload_id newX newY pts = pts).
Proof.
  unfold movePoint. split; [|split; [|split; [|split; [|split]]]].
  - apply length_map.
  - rewrite map_map. apply map_ext. intros p.
    destruct (String.eqb p.(id) payload_id); reflexivity.
  - intros i p Hi Hid. rewrite nth_error_map, Hi. cbn.
    apply String.eqb_eq in Hid as Hb. rewrite Hb. now rewrite Hid.
  - intros i p Hi Hid. rewrite nth_error_map, Hi. cbn.
    apply String.eqb_neq in Hid. now rewrite Hid.
  - intros Hnd i j p q Hi Hj Hp Hq.
    apply (proj1 (NoDup_nth_error (map (@id num) pts)) Hnd).
    + rewrite length_map. apply nth_error_Some. congruence.
    + rewrite !nth_error_map, Hi, Hj. cbn. congruence.
  - intros Hno. rewrite <- (map_id pts) at 2. apply map_ext_in.
    intros p Hp. apply Hno, String.eqb_neq in Hp. now rewrite Hp.
Qed.

(** A pointer move reaches the dataset through [movePoint] only, and
    only while a drag is on and the plot is mounted. *)
Lemma handleMove_movePoint (dragging : bool) (rect : option (Rect num))
    (clientX clientY : num) (payload_id : string) (pts : list (Point num)) :
  handleMove dragging rect clientX clientY payload_id pts = pts \/
  exists xVal yVal,
    handleMove dragging rect clientX clientY payload_id pts =
    movePoint payload_id xVal yVal pts.
Proof.
  destruct dragging, rect as [rect|]; simpl; eauto.
Qed.

End Drag.

(** ** The controller *)

(** Evaluates the tests on the (closed) preset key of the goal. *)
Ltac eval_key :=
  repeat match goal with
  | |- context [isLinear ?k] =>
      let b := eval vm_compute in (isLinear k) in change (isLinear k) with b
  | |- context [String.eqb ?k ?k'] =>
      let b := eval vm_compute in (String.eqb k k') in change (String.eqb k k') with b
  | |- context [nth_error (split ?c ?k) ?n] =>
      let b := eval vm_compute in (nth_error (split c k) n) in
      change (nth_error (split c k) n) with b
  end; cbv beta iota zeta.

Section Controller.

Context {num : Type} `{Number num}.

Lemma effect_generation_path (p : Preset) (t : num) :
  effect (preset_key p) t = generation_path p t.
Proof.
  destruct p; unfold effect, anscombe_of, generation_path, generateLinear,
    getReferenceDataset, preset_key; eval_key; reflexivity.
Qed.

Lemma regenerate_generation_path (p : Preset) (t : num) :
  regenerate (preset_key p) t = generation_path p t.
Proof.
  destruct p; unfold regenerate, anscombe_of, generation_path, generateLinear,
    getReferenceDataset, preset_key; eval_key; reflexivity.
Qed.

Lemma preset_key_offered (k : string) :
  In k PRESET_KEYS <-> exists p, k = preset_key p.
Proof.
  split.
  - intros Hk. simpl in Hk.
    (destruct Hk as [<-|[<-|[<-|[<-|[<-|[<-|[<-|[]]]]]]]];
      [exists PositiveLinear|exists NegativeLinear|exists NoCorrelation
      |exists AnscombeA|exists AnscombeB|exists AnscombeC|exists AnscombeD];
      reflexivity).
  - intros [p ->]. (destruct p; simpl; tauto).
Qed.

Lemma reference_data (p : Preset) :
  is_reference p = true ->
  exists data : list (Point num),
    List.length data = 11%nat /\ forall t w, generation_path p t w = (Some data, w).
Proof.
  (destruct p; try discriminate; intros _; eexists;
    (split; [|intros t w; reflexivity]); reflexivity).
Qed.
Lemma generation_path_succeeds (p : Preset) (t : num) (w : World num) :
  exists pts w', generation_path p t w = (Some pts, w').
Proof.
  destruct (is_reference p) eqn:E.
  - destruct (reference_data p E) as (data & _ & Hd). exists data, w. apply Hd.
  - destruct p; try discriminate; unfold generation_path, bind, ret;
      match goal with |- context [generateLinear ?a ?b w] =>
        destruct (generateLinear a b w) as [pts w'] end; eauto.
Qed.

Lemma step_select (p : Preset) (s : State num) (w : World num) :
  presetKey s <> preset_key p ->
  step (SelectPreset (preset_key p)) s w =
  bind (generation_path p (correlationValue s))
       (fun o => ret (with_points
                        (mkState (correlationValue s) (preset_key p) (points s)) o)) w.
Proof.
  intros Hne. unfold step.
  assert (E : String.eqb (preset_key p) (presetKey s) = false)
    by (apply String.eqb_neq; congruence).
  rewrite E. cbn [presetKey correlationValue]. now rewrite effect_generation_path.
Qed.

Lemma step_regenerate (p : Preset) (s : State num) (w : World num) :
  presetKey s = preset_key p ->
  step Regenerate s w =
  bind (generation_path p (correlationValue s)) (fun o => ret (with_points s o)) w.
Proof.
  intros E. unfold step. now rewrite E, regenerate_generation_path.
Qed.

(** C6.  In every state, selecting a preset other than the active one
    and asking for a regeneration both replace the dataset by what the
    generation path of the (new) active preset yields: [generateLinear]
    with sign [+1] and the current target for the positive preset, sign
    [-1] and the current target for the negative one, sign [+1] and
    target [0] whatever the slider for the uncorrelated one, and the
    fixed dataset for a reference preset.  For a reference preset the
    dataset loaded and the dataset regenerated are one and the same
    list of 11 points, whatever the state (points dragged or not) and
    the world (clock, random source), which is left untouched. *)
Theorem preset_generation (p : Preset) :
  (forall (s : State num) (w : World num),
     (presetKey s <> preset_key p ->
      step (SelectPreset (preset_key p)) s w =
      bind (generation_path p (correlationValue s))
           (fun o => ret (with_points
              (mkState (correlationValue s) (preset_key p) (points s)) o)) w) /\
     (presetKey s = preset_key p ->
      step Regenerate s w =
      bind (generation_path p (correlationValue s))
           (fun o => ret (with_points s o)) w)) /\
  (is_reference p = true ->
   exists data : list (Point num),
     List.length data = 11%nat /\
     forall (s : State num) (w : World num),
       (presetKey s <> preset_key p ->
        step (SelectPreset (preset_key p)) s w =
        (Some (mkState (correlationValue s) (preset_key p) data), w)) /\
       (presetKey s = preset_key p ->
        step Regenerate s w =
        (Some (mkState (correlationValue s) (preset_key p) data), w))).
Proof.
  split.
  - intros s w. split; [apply step_select|apply step_regenerate].
  - intros Href. destruct (reference_data p Href) as (data & Hlen & Hd).
    exists data. split; [exact Hlen|]. intros s w. split; intros Hk.
    + rewrite (step_select p s w Hk). unfold bind. now rewrite Hd.
    + rewrite (step_regenerate p s w Hk). unfold bind. rewrite Hd.
      unfold ret, with_points. now rewrite Hk.
Qed.

Lemma with_points_target (s s' : State num) o :
  with_points s o = Some s' ->
  correlationValue s' = correlationValue s /\ presetKey s' = presetKey s.
Proof.
  destruct o; simpl; [|discriminate]. intros [= <-]. auto.
Qed.

Lemma step_keeps_target (e : Event num) (s s' : State num) (w w' : World num) :
  keeps_target e -> step e s w = (Some s', w') ->
  correlationValue s' = correlationValue s.
Proof.
  destruct e as [k|v| |pid a b]; simpl; intros Hk E; try contradiction.
  - destruct (String.eqb k (presetKey s)).
    + unfold ret in E. now injection E as <- _.
    + unfold bind, ret in E.
      destruct (effect k (correlationValue s) w) as [o w1].
      injection E as E _. now apply with_points_target in E.
  - unfold bind, ret in E.
    destruct (regenerate (presetKey s) (correlationValue s) w) as [o w1].
    injection E as E _. now apply with_points_target in E.
  - unfold ret in E. now injection E as <- _.
Qed.

Lemma run_keeps_target (es : list (Event num)) :
  forall (s s' : State num) (w w' : World num),
  Forall keeps_target es -> run es s w = (Some s', w') ->
  correlationValue s' = correlationValue s.
Proof.
  induction es as [|e es IH]; intros s s' w w' Hall E.
  - cbn in E. unfold ret in E. now injection E as <- _.
  - inversion Hall as [|? ? He Hes]; subst.
    cbn [run] in E. unfold bind in E.
    destruct (step e s w) as [[s1|] w1] eqn:E1.
    + rewrite (IH _ _ _ _ Hes E). exact (step_keeps_target e s s1 w w1 He E1).
    + unfold ret in E. discriminate.
Qed.

Lemma step_progress (e : Event num) (s : State num) (w : World num) :
  In (presetKey s) PRESET_KEYS -> offered e ->
  exists s' w', step e s w = (Some s', w') /\ In (presetKey s') PRESET_KEYS.
Proof.
  intros Hs He.
  apply preset_key_offered in Hs as [q Hq].
  destruct e as [k|v| |pid a b].
  - apply preset_key_offered in He as [p ->].
    destruct (string_dec (presetKey s) (preset_key p)) as [E|N].
    + exists s, w. unfold step. rewrite E, String.eqb_refl. split; [reflexivity|].
      apply preset_key_offered. eauto.
    + rewrite (step_select p s w N). unfold bind.
      destruct (generation_path_succeeds p (correlationValue s) w) as (pts & w' & ->).
      eexists; eexists; split; [reflexivity|].
      cbn [with_points presetKey]. apply preset_key_offered. eauto.
  - unfold step. destruct (same_value v (correlationValue s)).
    + exists s, w. split; [reflexivity|]. apply preset_key_offered. eauto.
    + cbn [presetKey correlationValue]. rewrite Hq, effect_generation_path.
      unfold bind.
      destruct (generation_path_succeeds q v w) as (pts & w' & ->).
      eexists; eexists; split; [reflexivity|].
      cbn [with_points presetKey]. apply preset_key_offered. eauto.
  - rewrite (step_regenerate q s w Hq). unfold bind.
    destruct (generation_path_succeeds q (correlationValue s) w) as (pts & w' & ->).
    eexists; eexists; split; [reflexivity|].
    cbn [with_points presetKey]. apply preset_key_offered. eauto.
  - eexists; eexists; split; [reflexivity|].
    cbn [with_points presetKey]. apply preset_key_offered. eauto.
Qed.

Lemma run_progress (es : list (Event num)) :
  forall (s : State num) (w : World num),
  In (presetKey s) PRESET_KEYS -> Forall offered es ->
  exists s' w', run es s w = (Some s', w') /\ In (presetKey s') PRESET_KEYS.
Proof.
  induction es as [|e es IH]; intros s w Hs Hall.
  - exists s, w. split; [reflexivity|assumption].
  - inversion Hall as [|? ? He Hes]; subst.
    destruct (step_progress e s w Hs He) as (s1 & w1 & E1 & Hs1).
    destruct (IH s1 w1 Hs1 Hes) as (s2 & w2 & E2 & Hs2).
    exists s2, w2. split; [|assumption].
    cbn [run]. unfold bind. now rewrite E1.
Qed.

Lemma mount_state (w : World num) :
  exists s w', mount w = (Some s, w') /\
    correlationValue s = lit 8 10 /\ presetKey s = "Lineare positiva"%string.
Proof.
  unfold mount, bind.
  destruct (randomLinearWithCorrelation (lit 8 10) (of_Z 1) w) as [pts0 w0].
  cbn [presetKey correlationValue].
  change "Lineare positiva"%string with (preset_key PositiveLinear).
  rewrite effect_generation_path.
  destruct (generation_path_succeeds PositiveLinear (lit 8 10) w0) as (pts & w' & ->).
  eexists; eexists; split; [reflexivity|]. auto.
Qed.

(** C10.  The stored target is 0.8 after mounting; an event other than
    a move of the slider (a preset selection, a regeneration, a drag)
    leaves it as it is, and a move of the slider stores the value it
    carries.  Hence after any run of such events the next selection of a
    preset generates its dataset from the target that was stored before
    the run. *)
Theorem target_is_kept :
  (forall w : World num,
     exists s w', mount w = (Some s, w') /\ correlationValue s = lit 8 10) /\
  (forall (e : Event num) s w s' w',
     keeps_target e -> step e s w = (Some s', w') ->
     correlationValue s' = correlationValue s) /\
  (forall (v : num) s w s' w',
     step (SetCorrelation v) s w = (Some s', w') ->
     correlationValue s' = v \/
     (s' = s /\ same_value v (correlationValue s) = true)) /\
  (forall (es : list (Event num)) s w,
     In (presetKey s) PRESET_KEYS -> Forall offered es ->
     Forall keeps_target es ->
     exists s' w',
       run es s w = (Some s', w') /\
       correlationValue s' = correlationValue s /\
       forall p, presetKey s' <> preset_key p ->
         step (SelectPreset (preset_key p)) s' w' =
         bind (generation_path p (correlationValue s))
              (fun o => ret (with_points
                 (mkState (correlationValue s) (preset_key p) (points s')) o)) w').
Proof.
  split; [|split; [|split]].
  - intros w. destruct (mount_state w) as (s & w' & E & Hv & _). eauto.
  - intros e s w s' w'. apply step_keeps_target.
  - intros v s w s' w' E. unfold step in E.
    destruct (same_value v (correlationValue s)) eqn:Esame.
    + unfold ret in E. injection E as <- _. auto.
    + unfold bind, ret in E. cbn [presetKey correlationValue] in E.
      destruct (effect (presetKey s) v w) as [o w1].
      injection E as E _. apply with_points_target in E. left. apply E.
  - intros es s w Hs Hoff Hkeep.
    destruct (run_progress es s w Hs Hoff) as (s' & w' & E & _).
    exists s', w'. split; [exact E|].
    pose proof (run_keeps_target es s s' w w' Hkeep E) as Hv.
    split; [exact Hv|]. intros p Hp.
    rewrite (step_select p s' w' Hp). now rewrite Hv.
Qed.

End Controller.

(** ** The theorems on the controller at concrete inputs *)

Module Binary64Controller.
Import PrimFloat.
Import Binary64.
Local Open Scope float_scope.

Lemma movePoint_frame_witness :
  nth_error named_points 1 = Some (mkPoint "b" 3 4) /\
  nth_error (movePoint "b" 9 9 named_points) 1 = Some (mkPoint "b" 9 9) /\
  nth_error (movePoint "b" 9 9 named_points) 0 = Some (mkPoint "a" 1 2) /\
  (forall p, In p named_points -> p.(id) <> "z"%string) /\
  movePoint "z" 9 9 named_points = named_points.
Proof.
  destruct (movePoint_frame "b" 9 9 named_points) as (_ & _ & Hhit & Hmiss & _).
  destruct (movePoint_frame "z" 9 9 named_points) as (_ & _ & _ & _ & _ & Hnone).
  assert (Hz : forall p, In p named_points -> p.(id) <> "z"%string).
  { intros p [<-|[<-|[<-|[]]]]; discriminate. }
  split; [reflexivity|].
  split; [exact (Hhit 1%nat (mkPoint "b" 3 4) eq_refl eq_refl)|].
  split; [apply (Hmiss 0%nat (mkPoint "a" 1 2) eq_refl); discriminate|].
  split; [exact Hz|exact (Hnone Hz)].
Defined.

Lemma preset_generation_witness :
  is_reference AnscombeB = true /\
  exists data : list (Point float),
    List.length data = 11%nat /\
    forall (s : State float) (w : World float),
      (presetKey s <> preset_key AnscombeB ->
       step (SelectPreset (preset_key AnscombeB)) s w =
       (Some (mkState (correlationValue s) (preset_key AnscombeB) data), w)) /\
      (presetKey s = preset_key AnscombeB ->
       step Regenerate s w =
       (Some (mkState (correlationValue s) (preset_key AnscombeB) data), w)).
Proof.
  split; [reflexivity|].
  exact (proj2 (preset_generation AnscombeB) eq_refl).
Defined.

Lemma target_is_kept_witness :
  In (presetKey linear_state) PRESET_KEYS /\
  Forall offered visit /\ Forall keeps_target visit /\
  exists s' w',
    run visit linear_state ticking_world = (Some s', w') /\
    correlationValue s' = correlationValue linear_state /\
    forall p, presetKey s' <> preset_key p ->
      step (SelectPreset (preset_key p)) s' w' =
      bind (generation_path p (correlationValue linear_state))
           (fun o => ret (with_points
              (mkState (correlationValue linear_state) (preset_key p) (points s')) o))
           w'.
Proof.
  assert (Hs : In (presetKey linear_state) PRESET_KEYS) by (simpl; tauto).
  assert (Ho : Forall offered visit) by (repeat constructor; simpl; tauto).
  assert (Hk : Forall keeps_target visit) by (repeat constructor).
  repeat (split; [assumption|]).
  exact (proj2 (proj2 (proj2 target_is_kept)) visit linear_state ticking_world Hs Ho Hk).
Defined.

End Binary64Controller.

(** * Further properties of the code *)

(** ** The range of the coefficient *)

Lemma square_le (u v : R) : 0 <= v -> u * u <= v * v -> u <= v.
Proof.
  intros Hv Hsq. destruct (Rle_lt_dec u v) as [|Hlt]; [assumption|exfalso].
  assert (v * v < u * u) by (apply Rmult_le_0_lt_compat; lra). lra.
Qed.

Lemma square_lt (u v : R) : 0 <= u -> u * u < v * v -> 0 <= v -> u < v.
Proof.
  intros Hu Hsq Hv. destruct (Rlt_le_dec u v) as [|Hle]; [assumption|exfalso].
  assert (v * v <= u * u) by (apply Rmult_le_compat; lra). lra.
Qed.

(** The inequality of Cauchy and Schwarz on the sums over a list. *)
Lemma Rsum_cauchy_schwarz (f g : Point R -> R) (l : list (Point R)) :
  Rsum (map (fun p => f p * g p) l) * Rsum (map (fun p => f p * g p) l) <=
  Rsum (map (fun p => f p * f p) l) * Rsum (map (fun p => g p * g p) l).
Proof.
  induction l as [|p l IH]; simpl; [lra|].
  fold (Rsum (map (fun p => f p * g p) l)) (Rsum (map (fun p => f p * f p) l))
       (Rsum (map (fun p => g p * g p) l)).
  pose proof (Rsum_squares_nonneg f l) as HA.
  pose proof (Rsum_squares_nonneg g l) as HB.
  set (C := Rsum (map (fun p => f p * g p) l)) in *.
  set (A := Rsum (map (fun p => f p * f p) l)) in *.
  set (B := Rsum (map (fun p => g p * g p) l)) in *.
  set (a := f p). set (b := g p).
  assert (Hmix : 2 * C * (a * b) <= A * (b * b) + B * (a * a)).
  { apply square_le.
    - assert (0 <= a * a) by nra. assert (0 <= b * b) by nra.
      assert (0 <= A * (b * b)) by (apply Rmult_le_pos; assumption).
      assert (0 <= B * (a * a)) by (apply Rmult_le_pos; assumption). lra.
    - assert (H1 : (C * C) * ((a * b) * (a * b)) <= (A * B) * ((a * b) * (a * b))).
      { apply Rmult_le_compat_r; [nra|assumption]. }
      pose proof (Rle_0_sqr (A * (b * b) - B * (a * a))) as H2. unfold Rsqr in H2.
      lra. }
  nra.
Qed.

Lemma coefficient_range_R (pts : list (Point R)) : -1 <= correlation pts <= 1.
Proof.
  rewrite correlation_sums.
  destruct (_ <? _)%nat; [lra|].
  destruct (Req_dec_T _ 0) as [|Hn]; [lra|].
  pose proof (Sxx_nonneg pts) as Hx. pose proof (Syy_nonneg pts) as Hy.
  assert (HP : 0 < Sxx pts * Syy pts).
  { destruct (Rmult_neq_0_reg _ _ Hn). apply Rmult_lt_0_compat; lra. }
  pose proof (Rsum_cauchy_schwarz (dx pts) (dy pts) pts) as HCS.
  fold (Sxy pts) (Sxx pts) (Syy pts) in HCS.
  pose proof (sqrt_lt_R0 _ HP) as Hs.
  pose proof (sqrt_sqrt _ (Rlt_le _ _ HP)) as Hss.
  set (s := sqrt (Sxx pts * Syy pts)) in *.
  assert (Sxy pts <= s) by (apply square_le; lra).
  assert (- Sxy pts <= s) by (apply square_le; lra).
  split.
  - apply (Rmult_le_reg_r s); [assumption|]. unfold Rdiv.
    rewrite Rmult_assoc, Rinv_l by lra. lra.
  - apply (Rmult_le_reg_r s); [assumption|]. unfold Rdiv.
    rewrite Rmult_assoc, Rinv_l by lra. lra.
Qed.

Module Binary64Range.
Import PrimFloat.
Import Binary64.
Local Open Scope float_scope.

(** X2.  In exact arithmetic [correlation] lies between -1 and 1 on
    every dataset.  In binary64 rounding can carry it outside: the
    datasets [generateLinear(0.7, 1)] and [generateLinear(0.7, -1)]
    build when every draw is 0.5 (no noise, 20 points on a line) have
    a coefficient above 1 and below -1. *)
Theorem correlation_range :
  (forall pts : list (Point R), (-1 <= correlation pts <= 1)%R) /\
  (1 <? correlation (fst (generateLinear (lit 7 10) (of_Z 1) ticking_world))) = true /\
  (correlation (fst (generateLinear (lit 7 10) (of_Z (-1)) ticking_world)) <? -1) = true.
Proof.
  split; [exact coefficient_range_R|split; vm_compute; reflexivity].
Qed.

End Binary64Range.

(** ** Rescaling, shifting and exchanging the coordinates *)

Lemma mean_map_affine (a b : R) (f g : Point R -> R) (h : Point R -> Point R)
    (pts : list (Point R)) :
  (forall p, g (h p) = a * f p + b) -> pts <> [] ->
  mean g (map h pts) = a * mean f pts + b.
Proof.
  intros Hg Hne. unfold mean. rewrite map_map, length_map.
  rewrite (Rsum_map_ext_in (fun p => g (h p)) (fun p => a * f p + b) pts (fun p _ => Hg p)).
  rewrite Rsum_map_affine.
  assert (INR (List.length pts) <> 0).
  { apply not_0_INR. destruct pts; [congruence|simpl; lia]. }
  field. assumption.
Qed.

Lemma affine_sums (a b c d : R) (pts : list (Point R)) :
  Sxy (affine a b c d pts) = (a * c) * Sxy pts /\
  Sxx (affine a b c d pts) = (a * a) * Sxx pts /\
  Syy (affine a b c d pts) = (c * c) * Syy pts.
Proof.
  destruct pts as [|p0 l] eqn:E.
  - unfold Sxy, Sxx, Syy. simpl. lra.
  - rewrite <- E. assert (Hne : pts <> []) by (rewrite E; discriminate).
    set (h := fun p : Point R =>
                mkPoint p.(id) (nadd (nmul a p.(x)) b) (nadd (nmul c p.(y)) d)).
    change (affine a b c d pts) with (map h pts).
    assert (Hx : forall p, dx (map h pts) (h p) = a * dx pts p).
    { intros p. unfold dx.
      rewrite (mean_map_affine a b (@x R) (@x R) h pts (fun _ => eq_refl) Hne).
      simpl. lra. }
    assert (Hy : forall p, dy (map h pts) (h p) = c * dy pts p).
    { intros p. unfold dy.
      rewrite (mean_map_affine c d (@y R) (@y R) h pts (fun _ => eq_refl) Hne).
      simpl. lra. }
    unfold Sxy, Sxx, Syy. rewrite !map_map.
    rewrite <- !Rsum_map_scale.
    repeat split; apply Rsum_map_ext_in; intros p _; rewrite ?Hx, ?Hy; lra.
Qed.

(** X3.  In exact arithmetic the coefficient is unchanged when x is
    replaced by [a·x + b] and y by [c·y + d] with [a·c > 0] (a change of
    units or of origin on either axis), and it changes sign when
    [a·c < 0] (one axis is reversed). *)
Theorem correlation_affine (a b c d : R) (pts : list (Point R)) :
  (0 < a * c -> correlation (affine a b c d pts) = correlation pts) /\
  (a * c < 0 -> correlation (affine a b c d pts) = - correlation pts).
Proof.
  rewrite !correlation_sums.
  destruct (affine_sums a b c d pts) as (-> & -> & ->).
  replace (List.length (affine a b c d pts)) with (List.length pts)
    by (symmetry; apply length_map).
  destruct (_ <? _)%nat; [split; intros; lra|].
  replace (a * a * Sxx pts * (c * c * Syy pts))
    with ((a * c) * (a * c) * (Sxx pts * Syy pts)) by ring.
  assert (Hsq : forall t, t <> 0 ->
     sqrt (t * t * (Sxx pts * Syy pts)) = Rabs t * sqrt (Sxx pts * Syy pts)).
  { intros t Ht. rewrite sqrt_mult_alt by nra.
    replace (t * t) with (Rsqr t) by reflexivity. now rewrite sqrt_Rsqr_abs. }
  pose proof (Sxx_nonneg pts) as Hxx. pose proof (Syy_nonneg pts) as Hyy.
  assert (Hpos : a * c <> 0 -> 0 < Sxx pts * Syy pts ->
                 0 < a * c * (a * c) * (Sxx pts * Syy pts)).
  { intros Hac HP. apply Rmult_lt_0_compat; [|assumption].
    pose proof (Rsqr_pos_lt _ Hac) as Hs. unfold Rsqr in Hs. exact Hs. }
  split; intros Hac;
    (assert (Ha : a <> 0) by (intros ->; lra));
    (assert (Hc : c <> 0) by (intros ->; lra)).
  - destruct (Req_dec_T (Sxx pts * Syy pts) 0) as [E|N].
    + rewrite E, Rmult_0_r. destruct (Req_dec_T 0 0); [reflexivity|lra].
    + assert (HP : 0 < Sxx pts * Syy pts).
      { destruct (Rmult_neq_0_reg _ _ N). apply Rmult_lt_0_compat; lra. }
      destruct (Req_dec_T _ 0) as [E|_]; [specialize (Hpos ltac:(lra) HP); lra|].
      rewrite Hsq by lra. rewrite Rabs_pos_eq by lra.
      pose proof (sqrt_lt_R0 _ HP). field; repeat split; (assumption || lra).
  - destruct (Req_dec_T (Sxx pts * Syy pts) 0) as [E|N].
    + rewrite E, Rmult_0_r. destruct (Req_dec_T 0 0); [lra|lra].
    + assert (HP : 0 < Sxx pts * Syy pts).
      { destruct (Rmult_neq_0_reg _ _ N). apply Rmult_lt_0_compat; lra. }
      destruct (Req_dec_T _ 0) as [E|_]; [specialize (Hpos ltac:(lra) HP); lra|].
      rewrite Hsq by lra. rewrite Rabs_left by lra.
      pose proof (sqrt_lt_R0 _ HP). field; repeat split; (assumption || lra).
Qed.

Lemma correlation_affine_witness :
  0 < 2 * 3 /\
  correlation (affine 2 5 3 (-1) [pt 1 2; pt 2 4; pt 3 5]) =
  correlation [pt 1 2; pt 2 4; pt 3 5].
Proof.
  assert (Hac : 0 < 2 * 3) by lra.
  exact (conj Hac (proj1 (correlation_affine 2 5 3 (-1) [pt 1 2; pt 2 4; pt 3 5]) Hac)).
Defined.

Section Swap.

Context {num : Type} `{Number num}.
Hypothesis nmul_comm : forall a b : num, nmul a b = nmul b a.

Lemma fold_left_swap_xy (l : list (Point num)) (a : num) :
  fold_left (fun a p => nadd a p.(x)) (swap_xy l) a =
  fold_left (fun a p => nadd a p.(y)) l a /\
  fold_left (fun a p => nadd a p.(y)) (swap_xy l) a =
  fold_left (fun a p => nadd a p.(x)) l a.
Proof.
  revert a; induction l as [|p l IH]; intros a; simpl; [split; reflexivity|].
  split; [apply (proj1 (IH _))|apply (proj2 (IH _))].
Qed.

Lemma fold_left_accumulate_swap (mX mY : num) (l : list (Point num)) :
  forall n b c : num,
  fold_left (accumulate mY mX) (swap_xy l) (n, b, c) =
  (let '(n', c', b') := fold_left (accumulate mX mY) l (n, c, b) in (n', b', c')).
Proof.
  induction l as [|p l IH]; intros n b c; [reflexivity|].
  cbn [swap_xy map fold_left]. fold (swap_xy l).
  unfold accumulate at 2 4. cbn [x y].
  rewrite IH. now rewrite (nmul_comm (nsub (y p) mY) (nsub (x p) mX)).
Qed.

Lemma loop_sums_swap (pts : list (Point num)) :
  loop_sums (swap_xy pts) =
  (let '(n, dX, dY) := loop_sums pts in (n, dY, dX)).
Proof.
  unfold loop_sums.
  replace (List.length (swap_xy pts)) with (List.length pts)
    by (symmetry; apply length_map).
  rewrite (proj1 (fold_left_swap_xy pts (of_Z 0))), (proj2 (fold_left_swap_xy pts (of_Z 0))).
  apply fold_left_accumulate_swap.
Qed.

(** With a commutative product, exchanging the coordinates changes
    nothing, operation for operation. *)
Lemma swap_comm_correlation (pts : list (Point num)) :
  correlation (swap_xy pts) = correlation pts.
Proof.
  rewrite !correlation_loop_sums, loop_sums_swap.
  replace (List.length (swap_xy pts)) with (List.length pts)
    by (symmetry; apply length_map).
  destruct (loop_sums pts) as [[n dX] dY].
  now rewrite (nmul_comm dY dX).
Qed.

End Swap.

Module Binary64Swap.
Import PrimFloat SpecFloat FloatOps FloatAxioms.
Local Open Scope float_scope.

Lemma SFmul_comm (a b : spec_float) : SF64mul a b = SF64mul b a.
Proof.
  unfold SF64mul, SFmul.
  destruct a as [sa|sa| |sa ma ea], b as [sb|sb| |sb mb eb]; try reflexivity;
    try (now rewrite xorb_comm).
  now rewrite xorb_comm, Pos.mul_comm, Z.add_comm.
Qed.

Lemma float_mul_comm (a b : float) : a * b = b * a.
Proof.
  apply Prim2SF_inj. rewrite !mul_spec. apply SFmul_comm.
Qed.

(** X4.  Exchanging the x and y coordinates of every point leaves the
    coefficient unchanged: in binary64 the two results are the same
    float, bit for bit (NaN included), and in exact arithmetic the same
    real. *)
Theorem correlation_swap :
  (forall pts : list (Point float), correlation (swap_xy pts) = correlation pts) /\
  (forall pts : list (Point R), correlation (swap_xy pts) = correlation pts).
Proof.
  split; intros pts.
  - apply swap_comm_correlation. exact float_mul_comm.
  - apply swap_comm_correlation. exact Rmult_comm.
Qed.

End Binary64Swap.

(** ** Coordinates that are not finite *)

Module Binary64NonFinite.
Import PrimFloat SpecFloat FloatOps FloatAxioms.
Import Binary64 Binary64Classes Binary64Display.
Local Open Scope float_scope.

Lemma is_nan_iff (f : float) : Prim2SF f = S754_nan <-> f = nan.
Proof.
  split; [|intros ->; reflexivity].
  intros E. apply Prim2SF_inj. rewrite E. reflexivity.
Qed.

Lemma not_finite_stuck (f : float) :
  is_finite f = false -> exists s, stuck s f.
Proof.
  unfold is_finite, is_nan, is_infinity, stuck.
  rewrite !eqb_spec, abs_spec.
  change (Prim2SF infinity) with (S754_infinity false).
  destruct (Prim2SF f) as [s|s| |s m e]; cbn; intros Hf.
  - discriminate.
  - exists s. now left.
  - exists false. now right.
  - exfalso. destruct s; cbn in Hf;
      rewrite ?Z.compare_refl, ?Pos.compare_cont_refl in Hf; cbn in Hf; discriminate.
Qed.

Lemma add_stuck_l (s : bool) (a b : float) : stuck s a -> stuck s (a + b).
Proof.
  unfold stuck. rewrite add_spec. intros [-> | ->]; [|now right].
  destruct (Prim2SF b) as [sb|sb| |sb mb eb]; cbn; auto.
  destruct s, sb; auto.
Qed.

Lemma add_stuck_r (s : bool) (a b : float) : stuck s b -> stuck s (a + b).
Proof.
  unfold stuck. rewrite add_spec. intros [-> | ->].
  - destruct (Prim2SF a) as [sa|sa| |sa ma ea]; cbn; auto.
    destruct sa, s; auto.
  - destruct (Prim2SF a); cbn; auto.
Qed.

Lemma div_stuck (s : bool) (a n : float) : stuck s a -> unsigned n -> stuck s (a / n).
Proof.
  unfold stuck, unsigned. rewrite div_spec. intros [-> | ->] Hn; [|now right].
  destruct (Prim2SF n) as [sn|sn| |sn mn en]; cbn; subst; auto;
    rewrite xorb_false_r; auto.
Qed.

Lemma sub_stuck_nan (s : bool) (a m : float) : stuck s a -> stuck s m -> a - m = nan.
Proof.
  unfold stuck. intros Ha Hm. apply is_nan_iff. rewrite sub_spec.
  destruct Ha as [-> | ->], Hm as [-> | ->]; cbn; auto. destruct s; reflexivity.
Qed.

(** NaN absorbs the sums, products and quotients it enters. *)
Lemma nan_absorbs (a : float) :
  nan + a = nan /\ a + nan = nan /\ nan * a = nan /\ a * nan = nan /\
  nan / a = nan /\ a / nan = nan.
Proof.
  repeat split; apply is_nan_iff;
    rewrite ?add_spec, ?mul_spec, ?div_spec; cbn;
    destruct (Prim2SF a); reflexivity.
Qed.

Lemma binary_round_aux_unsigned (m e : Z) (l : location) :
  match binary_round_aux prec emax false m e l with
  | S754_zero s | S754_infinity s | S754_finite s _ _ => s = false
  | S754_nan => True
  end.
Proof.
  unfold binary_round_aux.
  destruct (shr_fexp prec emax m e l) as [mrs' e'].
  destruct (shr_fexp prec emax _ e' loc_Exact) as [mrs'' e''].
  destruct (shr_m mrs''); auto. destruct (Z.leb _ _); auto.
Qed.

(** The length of an array, as a number, is not negative. *)
Lemma of_nat_unsigned (n : nat) : unsigned (of_nat n).
Proof.
  unfold unsigned, of_nat. cbn [of_Z Fnumber]. unfold float_of_Z.
  destruct (Z.of_nat n) as [|p|p] eqn:E; [reflexivity| |lia].
  rewrite of_uint63_spec.
  pose proof (Uint63.to_Z_bounded (Uint63.of_Z (Z.pos p))) as [Hb _].
  destruct (Uint63.to_Z (Uint63.of_Z (Z.pos p))) as [|q|q]; [reflexivity| |lia].
  cbn [binary_normalize]. unfold binary_round.
  destruct (shl_align _ _ _) as [mz ez]. apply binary_round_aux_unsigned.
Qed.

Lemma fold_left_add_stuck (f : Point float -> float) (s : bool)
    (l : list (Point float)) :
  forall a, stuck s a \/ (exists p, In p l /\ stuck s (f p)) ->
  stuck s (fold_left (fun a p => nadd a (f p)) l a).
Proof.
  induction l as [|q l IH]; intros a Hs; cbn [fold_left].
  - destruct Hs as [Ha|(p & [] & _)]. exact Ha.
  - apply IH. destruct Hs as [Ha|(p & [<-|Hin] & Hp)].
    + left. now apply add_stuck_l.
    + left. now apply add_stuck_r.
    + right. eauto.
Qed.

(** Once a deviation in x is NaN, the accumulators it feeds are NaN
    when the loop ends. *)
Lemma fold_left_accumulate_nan (mX mY : float) (l : list (Point float)) :
  forall n dX dY,
  (n = nan /\ dX = nan) \/ (exists p, In p l /\ p.(x) - mX = nan) ->
  exists dY', fold_left (accumulate mX mY) l (n, dX, dY) = (nan, nan, dY').
Proof.
  induction l as [|q l IH]; intros n dX dY Hs.
  - destruct Hs as [[-> ->]|(p & [] & _)]. now exists dY.
  - cbn [fold_left]. unfold accumulate at 2. cbn [nadd nsub nmul Fnumber].
    apply IH. destruct Hs as [[-> ->]|(p & [<-|Hin] & Hp)].
    + left. split; apply nan_absorbs.
    + left. rewrite Hp.
      rewrite (proj1 (proj2 (proj2 (nan_absorbs (q.(y) - mY))))).
      rewrite (proj1 (proj2 (proj2 (nan_absorbs nan)))).
      split; apply nan_absorbs.
    + right. eauto.
Qed.

Lemma correlation_stuck_x (pts : list (Point float)) (p : Point float) (s : bool) :
  (2 <= List.length pts)%nat -> In p pts -> stuck s p.(x) ->
  correlation pts = nan.
Proof.
  intros Hn Hin Hs.
  rewrite correlation_loop_sums.
  destruct (Nat.ltb_spec (List.length pts) 2) as [|_]; [lia|].
  unfold loop_sums. cbn [nadd nsub nmul ndiv Fnumber].
  set (mX := fold_left _ pts _ / _).
  set (mY := fold_left _ pts _ / _).
  assert (HmX : stuck s mX).
  { apply div_stuck; [|apply of_nat_unsigned].
    apply (fold_left_add_stuck (@x float)). right. eauto. }
  destruct (fold_left_accumulate_nan mX mY pts (of_Z 0) (of_Z 0) (of_Z 0)) as [dY' ->].
  { right. exists p. split; [assumption|]. now apply (sub_stuck_nan s). }
  cbn [strict_eq nsqrt Fnumber].
  rewrite (proj1 (proj2 (proj2 (nan_absorbs dY')))).
  change (nan =? of_Z 0) with false. cbv iota.
  apply nan_absorbs.
Qed.

Lemma correlation_stuck_y (pts : list (Point float)) (p : Point float) (s : bool) :
  (2 <= List.length pts)%nat -> In p pts -> stuck s p.(y) ->
  correlation pts = nan.
Proof.
  intros Hn Hin Hs.
  rewrite <- (@swap_comm_correlation float Fnumber Binary64Swap.float_mul_comm pts).
  apply (correlation_stuck_x (swap_xy pts) (mkPoint p.(id) p.(y) p.(x)) s).
  - unfold swap_xy. now rewrite length_map.
  - unfold swap_xy. apply (in_map (fun p => mkPoint p.(id) p.(y) p.(x))), Hin.
  - exact Hs.
Qed.

Lemma headline_nan (pts : list (Point float)) :
  correlation pts = nan ->
  forall Number_toString,
    headline Number_toString pts = ("NaN", "debole", "nessuna")%string.
Proof.
  intros E big. unfold headline. rewrite E. vm_compute. reflexivity.
Qed.

(** X5.  In binary64, on a dataset of at least two points one of whose
    coordinates is NaN or an infinity, [correlation] returns NaN, and
    the paragraph under the chart shows "NaN", "debole" and
    "nessuna". *)
Theorem explanation_not_finite (pts : list (Point float)) (p : Point float) :
  (2 <= List.length pts)%nat -> In p pts ->
  is_finite p.(x) = false \/ is_finite p.(y) = false ->
  correlation pts = nan /\
  forall Number_toString,
    headline Number_toString pts = ("NaN", "debole", "nessuna")%string.
Proof.
  intros Hn Hin Hf.
  assert (E : correlation pts = nan).
  { destruct Hf as [Hf|Hf]; apply not_finite_stuck in Hf as [s Hs].
    - exact (correlation_stuck_x pts p s Hn Hin Hs).
    - exact (correlation_stuck_y pts p s Hn Hin Hs). }
  split; [exact E|exact (headline_nan pts E)].
Qed.

Lemma explanation_not_finite_witness :
  (2 <= List.length nan_points)%nat /\ In (fpt nan 1) nan_points /\
  is_finite (fpt nan 1).(x) = false /\
  correlation nan_points = nan /\
  forall Number_toString,
    headline Number_toString nan_points = ("NaN", "debole", "nessuna")%string.
Proof.
  assert (Hn : (2 <= List.length nan_points)%nat) by (simpl; lia).
  assert (Hin : In (fpt nan 1) nan_points) by (left; reflexivity).
  assert (Hf : is_finite (fpt nan 1).(x) = false) by reflexivity.
  repeat (split; [assumption|]).
  exact (explanation_not_finite nan_points (fpt nan 1) Hn Hin (or_introl Hf)).
Defined.

(** A quotient by zero is NaN or an infinity, and stays so when
    multiplied by 20. *)
Lemma div_zero_stuck (a w : float) :
  (w =? 0) = true -> exists s, stuck s (a / w * of_Z 20).
Proof.
  unfold stuck. rewrite eqb_spec, mul_spec, div_spec.
  change (Prim2SF 0) with (S754_zero false).
  let v := eval vm_compute in (Prim2SF (of_Z 20)) in
  change (Prim2SF (of_Z 20)) with v.
  destruct (Prim2SF w) as [sw|sw| |sw mw ew]; cbn; try discriminate;
    try (destruct sw; discriminate). intros _.
  destruct (Prim2SF a) as [sa|sa| |sa ma ea]; cbn;
    first [ eexists; left; reflexivity | exists false; right; reflexivity ].
Qed.

(** X6.  In binary64, a pointer move that reaches a dragged dot while
    the rectangle of the plot has zero width puts a coordinate that is
    NaN or an infinity on that point: from then on [correlation] of
    the dataset (of at least two points) is NaN and the paragraph
    under the chart shows "NaN", "debole" and "nessuna". *)
Theorem zero_width_drag (rect : Rect float) (cx cy : float) (i : string)
    (pts : list (Point float)) :
  (rect.(width) =? 0) = true -> (2 <= List.length pts)%nat ->
  (exists p, In p pts /\ p.(id) = i) ->
  correlation (handleMove true (Some rect) cx cy i pts) = nan /\
  forall Number_toString,
    headline Number_toString (handleMove true (Some rect) cx cy i pts) =
    ("NaN", "debole", "nessuna")%string.
Proof.
  intros Hw Hn (p & Hin & Hid).
  destruct (div_zero_stuck (cx - rect.(left)) rect.(width) Hw) as [s Hs].
  cbn [handleMove].
  set (xVal := nmul (ndiv (nsub cx rect.(left)) rect.(width)) (of_Z 20)) in *.
  set (yVal := nsub (of_Z 20) (nmul (ndiv (nsub cy rect.(top)) rect.(height)) (of_Z 20))).
  assert (E : correlation (movePoint i xVal yVal pts) = nan).
  { apply (correlation_stuck_x _ (mkPoint i xVal yVal) s).
    - unfold movePoint. now rewrite length_map.
    - unfold movePoint. apply in_map_iff. exists p. split; [|assumption].
      apply String.eqb_eq in Hid as Hb. rewrite Hb. now rewrite Hid.
    - exact Hs. }
  split; [exact E|exact (headline_nan _ E)].
Qed.

Lemma zero_width_drag_witness :
  (collapsed_rect.(width) =? 0) = true /\ (2 <= List.length named_points)%nat /\
  (exists p, In p named_points /\ p.(id) = "b"%string) /\
  correlation (handleMove true (Some collapsed_rect) 100 50 "b" named_points) = nan /\
  forall Number_toString,
    headline Number_toString
      (handleMove true (Some collapsed_rect) 100 50 "b" named_points) =
    ("NaN", "debole", "nessuna")%string.
Proof.
  assert (Hw : (collapsed_rect.(width) =? 0) = true) by reflexivity.
  assert (Hn : (2 <= List.length named_points)%nat) by (simpl; lia).
  assert (Hp : exists p, In p named_points /\ p.(id) = "b"%string).
  { exists (mkPoint "b" 3 4). split; [right; left; reflexivity|reflexivity]. }
  repeat (split; [assumption|]).
  exact (zero_width_drag collapsed_rect 100 50 "b" named_points Hw Hn Hp).
Defined.

End Binary64NonFinite.

(** ** The explanation under the chart *)

Lemma direction_R (r : R) :
  (direction r = "positiva"%string <-> 0 < r) /\
  (direction r = "negativa"%string <-> r < 0) /\
  (direction r = "nessuna"%string <-> r = 0).
Proof.
  unfold direction. cbn [ngt nlt Rordered of_Z Rnumber].
  destruct (Rlt_dec 0 r), (Rlt_dec r 0);
    repeat split; intros; try discriminate; try reflexivity; lra.
Qed.

Lemma strength_R (r : R) :
  (strength r = "forte"%string <-> 0.7 < Rabs r) /\
  (strength r = "moderata"%string <-> 0.3 < Rabs r <= 0.7) /\
  (strength r = "debole"%string <-> Rabs r <= 0.3).
Proof.
  unfold strength, lit. cbn [ngt nabs Rordered of_Z ndiv Rnumber].
  destruct (Rlt_dec (7 / 10) (Rabs r)), (Rlt_dec (3 / 10) (Rabs r));
    repeat split; intros; try discriminate; try reflexivity; lra.
Qed.

(** Comparing [|a / sqrt P|] with a threshold without the square root. *)
Lemma ratio_threshold (a P t : R) :
  0 < P -> 0 <= t ->
  (t < Rabs (a / sqrt P) <-> t * t * P < a * a).
Proof.
  intros HP Ht.
  pose proof (sqrt_lt_R0 _ HP) as Hs.
  pose proof (sqrt_sqrt _ (Rlt_le _ _ HP)) as Hss.
  set (s := sqrt P) in *.
  unfold Rdiv. rewrite Rabs_mult, (Rabs_pos_eq (/ s)) by (left; now apply Rinv_0_lt_compat).
  assert (Habs : Rabs a * Rabs a = a * a).
  { rewrite <- Rabs_mult. apply Rabs_pos_eq. nra. }
  pose proof (Rabs_pos a) as Ha.
  assert (Heq : t < Rabs a * / s <-> t * s < Rabs a).
  { split; intros H.
    - apply (Rmult_lt_compat_r s) in H; [|assumption].
      rewrite Rmult_assoc, Rinv_l in H by lra. lra.
    - apply (Rmult_lt_reg_r s); [assumption|].
      rewrite Rmult_assoc, Rinv_l by lra. lra. }
  rewrite Heq. rewrite <- Habs, <- Hss.
  replace (t * t * (s * s)) with ((t * s) * (t * s)) by ring.
  assert (0 <= t * s) by (apply Rmult_le_pos; lra).
  split; intros H0.
  - apply Rmult_le_0_lt_compat; assumption.
  - apply square_lt; assumption.
Qed.

(** X7.  Over the reals, on a dataset of at least two points with
    [Σdx²·Σdy² <> 0], the words of the explanation can be read off the
    sums without a square root or a division: the direction is the sign
    of [Σdx·dy], the strength is "forte" exactly when
    [(Σdx·dy)² > 0.49·Σdx²·Σdy²] and "debole" exactly when
    [(Σdx·dy)² <= 0.09·Σdx²·Σdy²]. *)
Theorem explanation_sums (pts : list (Point R)) :
  (2 <= List.length pts)%nat -> Sxx pts * Syy pts <> 0 ->
  (snd (explanation pts) = "positiva"%string <-> 0 < Sxy pts) /\
  (snd (explanation pts) = "negativa"%string <-> Sxy pts < 0) /\
  (snd (explanation pts) = "nessuna"%string <-> Sxy pts = 0) /\
  (fst (explanation pts) = "forte"%string <->
     0.49 * (Sxx pts * Syy pts) < Sxy pts * Sxy pts) /\
  (fst (explanation pts) = "debole"%string <->
     Sxy pts * Sxy pts <= 0.09 * (Sxx pts * Syy pts)).
Proof.
  intros Hn HP0. unfold explanation. cbn [fst snd].
  rewrite correlation_sums.
  destruct (Nat.ltb_spec (List.length pts) 2) as [|_]; [lia|].
  destruct (Req_dec_T _ 0) as [|_]; [contradiction|].
  pose proof (Sxx_nonneg pts) as Hx. pose proof (Syy_nonneg pts) as Hy.
  assert (HP : 0 < Sxx pts * Syy pts).
  { destruct (Rmult_neq_0_reg _ _ HP0). apply Rmult_lt_0_compat; lra. }
  pose proof (sqrt_lt_R0 _ HP) as Hs.
  set (P := Sxx pts * Syy pts) in *. set (a := Sxy pts).
  assert (Ea : a = a / sqrt P * sqrt P) by (field; lra).
  assert (Hsign : (0 < a / sqrt P <-> 0 < a) /\ (a / sqrt P < 0 <-> a < 0) /\
                  (a / sqrt P = 0 <-> a = 0)).
  { generalize dependent (a / sqrt P). intros r Er. clear -Er Hs.
    split; [|split]; split; intros H0.
    - rewrite Er. now apply Rmult_lt_0_compat.
    - destruct (Rlt_le_dec 0 r) as [|Hle]; [assumption|exfalso].
      assert (r * sqrt P <= 0 * sqrt P) by (apply Rmult_le_compat_r; lra). lra.
    - rewrite Er. assert (r * sqrt P < 0 * sqrt P) by (apply Rmult_lt_compat_r; lra). lra.
    - destruct (Rlt_le_dec r 0) as [|Hle]; [assumption|exfalso].
      assert (0 * sqrt P <= r * sqrt P) by (apply Rmult_le_compat_r; lra). lra.
    - rewrite Er, H0. ring.
    - rewrite H0 in Er. symmetry in Er. destruct (Rmult_integral _ _ Er); lra. }
  destruct (direction_R (a / sqrt P)) as (D1 & D2 & D3).
  destruct (strength_R (a / sqrt P)) as (S1 & _ & S3).
  destruct Hsign as (H1 & H2 & H3).
  pose proof (ratio_threshold a P 0.7 HP ltac:(lra)) as T7.
  pose proof (ratio_threshold a P 0.3 HP ltac:(lra)) as T3.
  repeat split; intros H0.
  - apply H1, D1, H0.
  - apply D1, H1, H0.
  - apply H2, D2, H0.
  - apply D2, H2, H0.
  - apply H3, D3, H0.
  - apply D3, H3, H0.
  - apply S1, T7 in H0. lra.
  - apply S1, T7. lra.
  - apply S3 in H0. destruct (Rle_lt_dec (a * a) (0.09 * P)) as [|Hlt]; [assumption|].
    assert (0.3 < Rabs (a / sqrt P)) by (apply T3; lra). lra.
  - apply S3. destruct (Rle_lt_dec (Rabs (a / sqrt P)) 0.3) as [|Hlt]; [assumption|].
    apply T3 in Hlt. lra.
Qed.

Lemma explanation_sums_witness :
  (2 <= List.length [pt 1 2; pt 2 4; pt 3 5])%nat /\
  Sxx [pt 1 2; pt 2 4; pt 3 5] * Syy [pt 1 2; pt 2 4; pt 3 5] <> 0 /\
  (snd (explanation [pt 1 2; pt 2 4; pt 3 5]) = "positiva"%string <->
     0 < Sxy [pt 1 2; pt 2 4; pt 3 5]).
Proof.
  assert (Hn : (2 <= List.length [pt 1 2; pt 2 4; pt 3 5])%nat) by (simpl; lia).
  assert (Hx : Sxx [pt 1 2; pt 2 4; pt 3 5] <> 0)
    by (unfold Sxx, dx, mean; simpl; lra).
  assert (Hy : Syy [pt 1 2; pt 2 4; pt 3 5] <> 0)
    by (unfold Syy, dy, mean; simpl; lra).
  assert (HP : Sxx [pt 1 2; pt 2 4; pt 3 5] * Syy [pt 1 2; pt 2 4; pt 3 5] <> 0).
  { intros E. apply Rmult_integral in E. tauto. }
  exact (conj Hn (conj HP (proj1 (explanation_sums _ Hn HP)))).
Defined.

(** ** Successive moves and the gesture of a drag *)

Section Moves.

Context {num : Type} `{Number num}.

Lemma movePoint_again (i : string) (a b c d : num) (pts : list (Point num)) :
  movePoint i c d (movePoint i a b pts) = movePoint i c d pts.
Proof.
  unfold movePoint. rewrite map_map. apply map_ext. intros p.
  destruct (String.eqb (id p) i) eqn:E; cbn [id]; rewrite ?E; reflexivity.
Qed.

Lemma movePoint_swap (i j : string) (a b c d : num) (pts : list (Point num)) :
  i <> j ->
  movePoint j c d (movePoint i a b pts) = movePoint i a b (movePoint j c d pts).
Proof.
  intros Hij. unfold movePoint. rewrite !map_map. apply map_ext. intros p.
  destruct (String.eqb (id p) i) eqn:Ei, (String.eqb (id p) j) eqn:Ej;
    cbn [id]; rewrite ?Ei, ?Ej; try reflexivity.
  apply String.eqb_eq in Ei, Ej. congruence.
Qed.

(** X8.  Of two successive moves of the same id only the second shows
    (whatever the first wrote, and whether or not the id occurs), and
    moves of two different ids can be applied in either order. *)
Theorem movePoint_compose (i j : string) (a b c d : num) (pts : list (Point num)) :
  movePoint i c d (movePoint i a b pts) = movePoint i c d pts /\
  (i <> j ->
   movePoint j c d (movePoint i a b pts) = movePoint i a b (movePoint j c d pts)).
Proof.
  split; [apply movePoint_again|apply movePoint_swap].
Qed.

Lemma handleMove_pointer (rect : Rect num) (cx cy : num) (i : string)
    (pts : list (Point num)) :
  handleMove true (Some rect) cx cy i pts =
  movePoint i (pointer_x rect cx) (pointer_y rect cy) pts.
Proof. reflexivity. Qed.

(** While the dot is not pressed, no pointer event changes the points. *)
Lemma dot_run_idle (i : string) (es : list (PointerEvent num))
    (pts : list (Point num)) :
  Forall not_press es -> dot_run i es (false, pts) = (false, pts).
Proof.
  unfold dot_run. induction es as [|e es IH]; intros Hall; [reflexivity|].
  inversion Hall as [|? ? He Hes]; subst. cbn [fold_left].
  destruct e as [| |rect cx cy]; cbn [dot_step]; [contradiction|apply IH, Hes|].
  cbn [handleMove]. apply IH, Hes.
Qed.

(** While the dot is pressed, a run of moves leaves what its last move
    writes. *)
Lemma dot_run_moves (i : string) (es : list (PointerEvent num)) :
  forall (rect : Rect num) (cx cy : num) (pts : list (Point num)),
  Forall move_with_rect es ->
  dot_run i (es ++ [PointerMove (Some rect) cx cy]) (true, pts) =
  (true, movePoint i (pointer_x rect cx) (pointer_y rect cy) pts).
Proof.
  unfold dot_run.
  induction es as [|e es IH]; intros rect cx cy pts Hall; [reflexivity|].
  inversion Hall as [|? ? He Hes]; subst.
  destruct e as [| |[r|] x0 y0]; try contradiction.
  cbn [app fold_left dot_step]. rewrite handleMove_pointer.
  rewrite (IH rect cx cy _ Hes).
  now rewrite movePoint_again.
Qed.

Lemma dot_run_app (i : string) (es es' : list (PointerEvent num))
    (st : bool * list (Point num)) :
  dot_run i (es ++ es') st = dot_run i es' (dot_run i es st).
Proof. unfold dot_run. apply fold_left_app. Qed.

(** X9.  A whole drag of one dot: pointer events before the press
    change nothing; after the press, however many moves the pointer
    makes over the mounted plot, at the release the dataset is the one
    before the press with that dot's point at the position of the last
    move; and events after the release, until the next press, change
    nothing more. *)
Theorem drag_gesture (i : string) (before moves after : list (PointerEvent num))
    (rect : Rect num) (cx cy : num) (pts : list (Point num)) :
  Forall not_press before -> Forall move_with_rect moves ->
  Forall not_press after ->
  dot_run i (before ++ [PointerDown] ++
             (moves ++ [PointerMove (Some rect) cx cy]) ++
             [PointerUp] ++ after) (false, pts) =
  (false, movePoint i (pointer_x rect cx) (pointer_y rect cy) pts).
Proof.
  intros Hb Hm Ha.
  rewrite dot_run_app, (dot_run_idle i before pts Hb).
  rewrite (dot_run_app i [PointerDown]).
  change (dot_run i [PointerDown] (false, pts)) with (true, pts).
  rewrite (dot_run_app i (moves ++ _)), (dot_run_moves i moves rect cx cy pts Hm).
  set (pts' := movePoint _ _ _ _).
  rewrite (dot_run_app i [PointerUp]).
  change (dot_run i [PointerUp] (true, pts')) with (false, pts').
  apply dot_run_idle, Ha.
Qed.

End Moves.

Lemma movePoint_compose_witness :
  "a"%string <> "b"%string /\
  movePoint "b" 7 8 (movePoint "a" 5 6 [pt 1 2; pt 2 4]) =
  movePoint "a" 5 6 (movePoint "b" 7 8 [pt 1 2; pt 2 4]).
Proof.
  assert (Hab : "a"%string <> "b"%string) by discriminate.
  exact (conj Hab (proj2 (movePoint_compose "a" "b" 5 6 7 8 [pt 1 2; pt 2 4]) Hab)).
Defined.

Module Binary64Gesture.
Import PrimFloat.
Import Binary64 Binary64Classes.
Local Open Scope float_scope.

Lemma drag_gesture_witness :
  Forall not_press (@nil (PointerEvent float)) /\
  Forall move_with_rect drag_moves /\ Forall not_press after_release /\
  dot_run "b" ([] ++ [PointerDown] ++
               (drag_moves ++ [PointerMove (Some (mkRect 8 8 600 400)) 308 208]) ++
               [PointerUp] ++ after_release) (false, named_points) =
  (false, movePoint "b" (pointer_x (mkRect 8 8 600 400) 308)
                        (pointer_y (mkRect 8 8 600 400) 208) named_points).
Proof.
  assert (Hb : Forall not_press (@nil (PointerEvent float))) by constructor.
  assert (Hm : Forall move_with_rect drag_moves) by (repeat constructor).
  assert (Ha : Forall not_press after_release) by (repeat constructor).
  repeat (split; [assumption|]).
  exact (drag_gesture "b" [] drag_moves after_release _ 308 208 named_points Hb Hm Ha).
Defined.

End Binary64Gesture.

(** ** The pointer and the visible domain *)

(** X10.  Over the reals, with a plot rectangle of positive width and
    height, the coordinates [handleMove] computes lie in the axis
    domain [0, 20] exactly when the pointer lies within the rectangle
    (so a pointer outside it puts the point outside the visible
    domain: nothing clamps it), y growing upwards; and the pointer
    position is recovered from the coordinates. *)
Theorem pointer_domain (rect : Rect R) (cx cy : R) :
  0 < rect.(width) -> 0 < rect.(height) ->
  (0 <= pointer_x rect cx <= 20 <-> rect.(left) <= cx <= rect.(left) + rect.(width)) /\
  (0 <= pointer_y rect cy <= 20 <-> rect.(top) <= cy <= rect.(top) + rect.(height)) /\
  cx = rect.(left) + pointer_x rect cx / 20 * rect.(width) /\
  cy = rect.(top) + (20 - pointer_y rect cy) / 20 * rect.(height).
Proof.
  intros Hw Hh. unfold pointer_x, pointer_y. cbn [nmul ndiv nsub of_Z Rnumber].
  set (u := (cx - left rect) / width rect).
  set (v := (cy - top rect) / height rect).
  assert (Eu : cx - left rect = u * width rect) by (unfold u; field; lra).
  assert (Ev : cy - top rect = v * height rect) by (unfold v; field; lra).
  assert (Hu : (0 <= u <= 1) <-> left rect <= cx <= left rect + width rect).
  { split; intros [H1 H2].
    - split; nra.
    - split.
      + destruct (Rle_lt_dec 0 u) as [|Hlt]; [assumption|exfalso]. nra.
      + destruct (Rle_lt_dec u 1) as [|Hlt]; [assumption|exfalso]. nra. }
  assert (Hv : (0 <= v <= 1) <-> top rect <= cy <= top rect + height rect).
  { split; intros [H1 H2].
    - split; nra.
    - split.
      + destruct (Rle_lt_dec 0 v) as [|Hlt]; [assumption|exfalso]. nra.
      + destruct (Rle_lt_dec v 1) as [|Hlt]; [assumption|exfalso]. nra. }
  repeat split; try (apply Hu; lra); try (apply Hv; lra);
    try (assert (0 <= u <= 1) by (apply Hu; lra); lra);
    try (assert (0 <= v <= 1) by (apply Hv; lra); lra).
  - lra.
  - lra.
Qed.

Lemma pointer_domain_witness :
  0 < plot_rect.(width) /\ 0 < plot_rect.(height) /\
  (0 <= pointer_x plot_rect 700 <= 20 <->
   plot_rect.(left) <= 700 <= plot_rect.(left) + plot_rect.(width)).
Proof.
  assert (Hw : 0 < plot_rect.(width)) by (cbn [plot_rect width]; lra).
  assert (Hh : 0 < plot_rect.(height)) by (cbn [plot_rect height]; lra).
  exact (conj Hw (conj Hh (proj1 (pointer_domain plot_rect 700 0 Hw Hh)))).
Defined.

(** ** An invariant of the page *)

Ltac distinct_strings :=
  repeat (constructor; [cbn; intuition discriminate|]); constructor.

Section Invariant.

Context {num : Type} `{Number num}.

Lemma generateLinear_NoDup (target sign : num) (w : World num) :
  NoDup (map (@id num) (fst (generateLinear target sign w))).
Proof.
  apply NoDup_nth_error. intros i j Hi E.
  rewrite length_map, generateLinear_length in Hi.
  assert (Hj : (j < 20)%nat).
  { assert (Hs : nth_error (map (@id num) (fst (generateLinear target sign w))) j <> None).
    { rewrite <- E, nth_error_map, generateLinear_nth by assumption. discriminate. }
    apply nth_error_Some in Hs. now rewrite length_map, generateLinear_length in Hs. }
  rewrite !nth_error_map, !generateLinear_nth in E by assumption.
  cbn in E. injection E as E. now apply stamp_id_inj in E.
Qed.

Lemma reference_well_formed (p : Preset) :
  is_reference p = true ->
  exists data : list (Point num),
    (forall t w, generation_path p t w = (Some data, w)) /\
    List.length data = 11%nat /\ NoDup (map (@id num) data).
Proof.
  destruct p; try discriminate; intros _; eexists;
    (split; [intros t w; reflexivity|]); (split; [reflexivity|]);
    cbn; distinct_strings.
Qed.

Lemma generation_path_well_formed (p : Preset) (t : num) (w : World num) :
  exists pts w', generation_path p t w = (Some pts, w') /\
    List.length pts = (if isLinear (preset_key p) then 20 else 11)%nat /\
    NoDup (map (@id num) pts).
Proof.
  destruct (is_reference p) eqn:E.
  - destruct (reference_well_formed p E) as (data & Hd & Hl & Hn).
    exists data, w. rewrite Hd. split; [reflexivity|].
    split; [|assumption]. destruct p; try discriminate; exact Hl.
  - destruct p; try discriminate; unfold generation_path, bind, ret;
      match goal with |- context [generateLinear ?a ?b w] =>
        pose proof (generateLinear_length a b w);
        pose proof (generateLinear_NoDup a b w);
        destruct (generateLinear a b w) as [pts w'] end;
      exists pts, w'; auto.
Qed.

Lemma movePoint_ids (i : string) (a b : num) (pts : list (Point num)) :
  map (@id num) (movePoint i a b pts) = map (@id num) pts.
Proof.
  unfold movePoint. rewrite map_map. apply map_ext. intros p.
  destruct (String.eqb p.(id) i); reflexivity.
Qed.

Lemma step_well_formed (e : Event num) (s : State num) (w : World num) :
  well_formed s -> offered e ->
  exists s' w', step e s w = (Some s', w') /\ well_formed s'.
Proof.
  intros (Hk & Hl & Hn) He.
  apply preset_key_offered in Hk as [q Hq].
  assert (Hgen : forall p v (s0 : State num), presetKey s0 = preset_key p ->
     exists s' w', bind (generation_path p v) (fun o => ret (with_points s0 o)) w = (Some s', w')
       /\ well_formed s').
  { intros p v s0 E0. unfold bind.
    destruct (generation_path_well_formed p v w) as (pts & w' & -> & Hl' & Hn').
    eexists; eexists; split; [reflexivity|].
    unfold well_formed. cbn [with_points presetKey points]. rewrite E0.
    split; [apply preset_key_offered; eauto|auto]. }
  destruct e as [k|v| |pid a b].
  - apply preset_key_offered in He as [p ->].
    destruct (string_dec (presetKey s) (preset_key p)) as [E|N].
    + exists s, w. unfold step. rewrite E, String.eqb_refl. split; [reflexivity|].
      unfold well_formed. split; [apply preset_key_offered; eauto|auto].
    + rewrite (step_select p s w N). apply Hgen. reflexivity.
  - unfold step. destruct (same_value v (correlationValue s)).
    + exists s, w. split; [reflexivity|].
      unfold well_formed. split; [apply preset_key_offered; eauto|auto].
    + cbn [presetKey correlationValue]. rewrite Hq, effect_generation_path.
      apply Hgen. reflexivity.
  - rewrite (step_regenerate q s w Hq). apply Hgen. exact Hq.
  - eexists; eexists; split; [reflexivity|].
    unfold well_formed. cbn [presetKey points].
    rewrite movePoint_ids. unfold movePoint. rewrite length_map.
    split; [apply preset_key_offered; eauto|auto].
Qed.

Lemma run_from_well_formed (es : list (Event num)) :
  forall (s : State num) (w : World num),
  well_formed s -> Forall offered es ->
  exists s' w', run es s w = (Some s', w') /\ well_formed s'.
Proof.
  induction es as [|e es IH]; intros s w Hs Hall.
  - exists s, w. split; [reflexivity|assumption].
  - inversion Hall as [|? ? He Hes]; subst.
    destruct (step_well_formed e s w Hs He) as (s1 & w1 & E1 & Hs1).
    destruct (IH s1 w1 Hs1 Hes) as (s2 & w2 & E2 & Hs2).
    exists s2, w2. split; [|assumption].
    cbn [run]. unfold bind. now rewrite E1.
Qed.

Lemma mount_well_formed (w : World num) :
  exists s w', mount w = (Some s, w') /\ well_formed s.
Proof.
  unfold mount, bind.
  destruct (randomLinearWithCorrelation (lit 8 10) (of_Z 1) w) as [pts0 w0].
  cbn [presetKey correlationValue].
  change "Lineare positiva"%string with (preset_key PositiveLinear).
  rewrite effect_generation_path.
  destruct (generation_path_well_formed PositiveLinear (lit 8 10) w0)
    as (pts & w' & -> & Hl & Hn).
  eexists; eexists; split; [reflexivity|].
  unfold well_formed. cbn [with_points presetKey points].
  split; [simpl; tauto|auto].
Qed.

(** X11.  Whatever the page sends after mounting (selections among the
    offered keys, slider values, regenerations, drags of any id to any
    position), the run succeeds and in the state it reaches the key is
    one of [PRESET_KEYS], the dataset has 20 points on a linear preset
    and 11 on a reference preset, and no two points share an id (so a
    move changes at most one point). *)
Theorem run_well_formed (es : list (Event num)) (w : World num) :
  Forall offered es ->
  exists s0 w0 s w',
    mount w = (Some s0, w0) /\ run es s0 w0 = (Some s, w') /\ well_formed s.
Proof.
  intros Hall.
  destruct (mount_well_formed w) as (s0 & w0 & E0 & H0).
  destruct (run_from_well_formed es s0 w0 H0 Hall) as (s & w' & E & Hs).
  exists s0, w0, s, w'. auto.
Qed.

Lemma renders_world (n : nat) (w : World num) :
  renders n w = (tt, advance (20 * n) w).
Proof.
  revert w; induction n as [|n IH]; intros w.
  - unfold advance. cbn. unfold ret. destruct w; cbn. now rewrite !Nat.add_0_r.
  - cbn [renders]. unfold bind at 1. unfold render, bind at 1.
    unfold randomLinearWithCorrelation. rewrite randomLinear_points.
    unfold ret at 1. rewrite IH. unfold advance. cbn [random now drawn clock_reads].
    f_equal. f_equal; lia.
Qed.

Lemma page_step_no_render (e : Event num) (s : State num) (w : World num) :
  page_step 0 0 e s w = step e s w.
Proof.
  destruct e as [k|v| |i a b]; cbn [page_step step renders].
  - destruct (String.eqb k (presetKey s)); [reflexivity|].
    unfold bind, ret. destruct (effect _ _ w). reflexivity.
  - destruct (same_value v (correlationValue s)); [reflexivity|].
    unfold bind, ret. destruct (effect _ _ w). reflexivity.
  - unfold bind, ret. destruct (regenerate _ _ w). reflexivity.
  - reflexivity.
Qed.

Lemma page_step_discards (e : Event num) (s : State num) (pts : list (Point num))
    (n m : nat) (w : World num) :
  regenerates s e ->
  page_step n m e (mkState s.(correlationValue) s.(presetKey) pts) w =
  page_step n m e s w.
Proof.
  intros Hr.
  destruct e as [k|v| |j c d]; cbn [regenerates] in Hr; [| | |contradiction];
    cbn [page_step]; cbn [presetKey correlationValue points].
  - apply String.eqb_neq in Hr. rewrite Hr. reflexivity.
  - rewrite Hr. reflexivity.
  - reflexivity.
Qed.

Lemma page_step_state (e : Event num) (s : State num) (n m m' : nat) (w : World num) :
  fst (page_step n m e s w) = fst (page_step n m' e s w).
Proof.
  destruct e as [k|v| |j c d]; cbn [page_step].
  - destruct (String.eqb k (presetKey s)); unfold bind, ret; rewrite ?renders_world;
      [reflexivity|].
    destruct (effect _ _ _) as [o w1]. now rewrite !renders_world.
  - destruct (same_value v (correlationValue s)); unfold bind, ret; rewrite ?renders_world;
      [reflexivity|].
    destruct (effect _ _ _) as [o w1]. now rewrite !renders_world.
  - unfold bind, ret. destruct (regenerate _ _ _) as [o w1]. now rewrite !renders_world.
  - unfold bind, ret. now rewrite !renders_world.
Qed.

Lemma page_step_progress (e : Event num) (s : State num) (n m : nat)
    (w : World num) :
  In (presetKey s) PRESET_KEYS -> offered e ->
  exists s' w', page_step n m e s w = (Some s', w').
Proof.
  intros Hs He.
  apply preset_key_offered in Hs as [q Hq].
  destruct e as [k|v| |pid a b]; cbn [page_step].
  - apply preset_key_offered in He as [p ->].
    destruct (String.eqb (preset_key p) (presetKey s)); unfold bind, ret;
      rewrite renders_world; [eauto|].
    cbn [presetKey correlationValue]. rewrite effect_generation_path.
    destruct (generation_path_succeeds p (correlationValue s) (advance (20 * n) w))
      as (pts & w' & ->).
    rewrite renders_world. cbn [with_points]. eauto.
  - destruct (same_value v (correlationValue s)); unfold bind, ret;
      rewrite renders_world; [eauto|].
    cbn [presetKey correlationValue]. rewrite Hq, effect_generation_path.
    destruct (generation_path_succeeds q v (advance (20 * n) w)) as (pts & w' & ->).
    rewrite renders_world. cbn [with_points]. eauto.
  - unfold bind, ret. rewrite Hq, regenerate_generation_path.
    destruct (generation_path_succeeds q (correlationValue s) w) as (pts & w' & ->).
    rewrite renders_world. cbn [with_points]. eauto.
  - unfold bind, ret. rewrite renders_world. eauto.
Qed.

(** X12.  On the page, in a state whose key is one the select offers,
    a drag followed by a regeneration, by the selection of another
    offered preset or by a slider value other than the stored one
    succeeds and leaves no trace of the point that was dragged or of
    where it was dragged to: whatever the number of evaluations of
    [App] in between, the state and the world reached are the same for
    every drag, and the state is the one the event alone gives from the
    world that the evaluations after the drag have moved by 20 draws
    and 20 clock readings each. *)
Theorem drag_is_discarded (e : Event num) (s : State num) (w : World num)
    (n m n' m' : nat) (i : string) (a b : num) :
  In (presetKey s) PRESET_KEYS -> offered e -> regenerates s e ->
  (exists s' w',
     page_run [(n, m, DragPoint i a b); (n', m', e)] s w = (Some s', w')) /\
  (forall (i' : string) (a' b' : num),
     page_run [(n, m, DragPoint i a b); (n', m', e)] s w =
     page_run [(n, m, DragPoint i' a' b'); (n', m', e)] s w) /\
  (forall m'' : nat,
     fst (page_run [(n, m, DragPoint i a b); (n', m', e)] s w) =
     fst (page_run [(n', m'', e)] s (advance (20 * m) w))).
Proof.
  intros Hk He Hr.
  assert (E : forall j c d,
            page_run [(n, m, DragPoint j c d); (n', m', e)] s w =
            page_run [(n', m', e)] s (advance (20 * m) w)).
  { intros j c d. cbn [page_run page_step]. unfold bind at 1. unfold bind at 1.
    rewrite renders_world. unfold ret at 1. unfold bind at 1.
    rewrite (page_step_discards e s _ n' m' _ Hr). reflexivity. }
  split; [|split].
  - rewrite E. cbn [page_run]. unfold bind.
    destruct (page_step_progress e s n' m' (advance (20 * m) w) Hk He)
      as (s' & w' & ->).
    exists s', w'. reflexivity.
  - intros i' a' b'. now rewrite !E.
  - intros m''. rewrite E. cbn [page_run]. unfold bind.
    pose proof (page_step_state e s n' m' m'' (advance (20 * m) w)) as Hs.
    destruct (page_step n' m' e s _) as [[s1|] w1];
      destruct (page_step n' m'' e s _) as [[s2|] w2]; cbn [fst] in Hs;
      try discriminate; [injection Hs as ->|]; reflexivity.
Qed.

End Invariant.

Module Binary64Invariant.
Import PrimFloat.
Import Binary64.
Local Open Scope float_scope.

Lemma run_well_formed_witness :
  Forall offered session /\
  exists s0 w0 s w',
    mount ticking_world = (Some s0, w0) /\ run session s0 w0 = (Some s, w') /\
    well_formed s.
Proof.
  assert (Ho : Forall offered session) by (repeat constructor; simpl; tauto).
  exact (conj Ho (run_well_formed session ticking_world Ho)).
Defined.

Lemma drag_is_discarded_witness :
  In (presetKey linear_state) PRESET_KEYS /\
  offered (@Regenerate float) /\ regenerates linear_state Regenerate /\
  (exists s' w',
     page_run [(1%nat, 1%nat, DragPoint "a" 9 9); (1%nat, 1%nat, Regenerate)]
              linear_state ticking_world = (Some s', w')) /\
  page_run [(1%nat, 1%nat, DragPoint "a" 9 9); (1%nat, 1%nat, Regenerate)]
           linear_state ticking_world =
  page_run [(1%nat, 1%nat, DragPoint "b" 2 7); (1%nat, 1%nat, Regenerate)]
           linear_state ticking_world /\
  fst (page_run [(1%nat, 1%nat, DragPoint "a" 9 9); (1%nat, 1%nat, Regenerate)]
                linear_state ticking_world) =
  fst (page_run [(1%nat, 0%nat, Regenerate)] linear_state (advance 20 ticking_world)).
Proof.
  assert (Hk : In (presetKey linear_state) PRESET_KEYS) by (left; reflexivity).
  assert (Ho : offered (@Regenerate float)) by exact I.
  assert (Hr : regenerates linear_state (@Regenerate float)) by exact I.
  destruct (drag_is_discarded Regenerate linear_state ticking_world 1 1 1 1 "a" 9 9
              Hk Ho Hr) as (H0 & H1 & H2).
  exact (conj Hk (conj Ho (conj Hr (conj H0 (conj (H1 "b"%string 2 7) (H2 0%nat)))))).
Defined.

End Binary64Invariant.

(** ** Where the generated points fall *)

Lemma generateLinear_point_R (target sign : R) (w : World R) (p : Point R) :
  In p (fst (generateLinear target sign w)) ->
  exists j, (j < 20)%nat /\ p.(x) = INR (j + 1) /\
    p.(y) = sign * target * p.(x)
            + (random w (drawn w + j) - 0.5) * (1.7 - 1.5 * target) * 10 + 10.
Proof.
  intros Hin. apply In_nth_error in Hin as [j Hj].
  assert (Hlt : (j < 20)%nat).
  { assert (Hs : nth_error (fst (generateLinear target sign w)) j <> None) by congruence.
    apply nth_error_Some in Hs. now rewrite generateLinear_length in Hs. }
  rewrite generateLinear_nth in Hj by assumption. injection Hj as <-.
  exists j. split; [assumption|].
  assert (Ex : nadd (of_nat j) (of_Z 1) = INR (j + 1)).
  { unfold of_nat. cbn [of_Z nadd Rnumber].
    rewrite <- INR_IZR_INZ, plus_INR. cbn [INR]. lra. }
  unfold point_of. cbn [x y]. rewrite Ex.
  unfold lit. cbn [of_Z nadd nsub nmul ndiv Rnumber].
  split; [reflexivity|lra].
Qed.

(** X13.  Over the reals, with draws in [0, 1), a target in [0, 1] and
    a sign of 1 or -1, every generated point has x between 1 and 20
    and y within [5·(1.7 - 1.5·target)] of the line
    [sign·target·x + 10], hence in [-11, 31).  Nothing keeps y in the
    visible domain [0, 20]: at target 1 every point with x >= 12 lies
    above 20 for sign 1, and every point with x >= 11 lies below 0 for
    sign -1. *)
Theorem generateLinear_band (target sign : R) (w : World R) (p : Point R) :
  (forall k, 0 <= random w k < 1) ->
  0 <= target <= 1 -> sign = 1 \/ sign = -1 ->
  In p (fst (generateLinear target sign w)) ->
  1 <= p.(x) <= 20 /\
  - (5 * (1.7 - 1.5 * target)) <= p.(y) - (sign * target * p.(x) + 10)
    < 5 * (1.7 - 1.5 * target) /\
  -11 <= p.(y) < 31 /\
  (target = 1 -> sign = 1 -> 12 <= p.(x) -> 20 < p.(y)) /\
  (target = 1 -> sign = -1 -> 11 <= p.(x) -> p.(y) < 0).
Proof.
  intros Hrnd Ht Hs Hin.
  destruct (generateLinear_point_R target sign w p Hin) as (j & Hj & Ex & Ey).
  specialize (Hrnd (drawn w + j)%nat).
  assert (Hx : 1 <= x p <= 20).
  { rewrite Ex, plus_INR. cbn [INR].
    pose proof (pos_INR j). pose proof (le_INR j 19 ltac:(lia)) as H19.
    rewrite (INR_IZR_INZ 19) in H19. cbn [Z.of_nat Pos.of_succ_nat Pos.succ] in H19. lra. }
  set (u := random w (drawn w + j)) in *.
  split; [exact Hx|].
  destruct Hs as [-> | ->]; repeat split; intros; subst; try nra.
Qed.

Lemma generateLinear_band_witness :
  (forall k, 0 <= random quarter_world k < 1) /\ 0 <= 8 / 10 <= 1 /\
  (1 = 1 \/ 1 = -1) /\
  In first_point (fst (generateLinear (8 / 10) 1 quarter_world)) /\
  1 <= first_point.(x) <= 20 /\ -11 <= first_point.(y) < 31.
Proof.
  assert (Hr : forall k, 0 <= random quarter_world k < 1)
    by (intros k; cbn [random quarter_world]; lra).
  assert (Ht : 0 <= 8 / 10 <= 1) by lra.
  assert (Hs : 1 = 1 \/ 1 = -1) by (left; reflexivity).
  assert (Hin : In first_point (fst (generateLinear (8 / 10) 1 quarter_world))).
  { apply (nth_error_In _ 0). rewrite generateLinear_nth by lia. reflexivity. }
  repeat (split; [assumption|]).
  pose proof (generateLinear_band (8 / 10) 1 quarter_world first_point Hr Ht Hs Hin)
    as (Hx & _ & Hy & _).
  exact (conj Hx Hy).
Defined.

Lemma generated_Sxx (target sign : R) (w : World R) :
  Sxx (fst (generateLinear target sign w)) = 665.
Proof.
  unfold generateLinear, randomLinearWithCorrelation.
  rewrite randomLinear_points. cbn [fst seq linear_points].
  unfold Sxx, dx, mean, point_of, of_nat.
  cbn [map Rsum fold_right List.length x y of_Z nadd Rnumber Z.of_nat Pos.of_succ_nat Pos.succ].
  rewrite ?INR_IZR_INZ; cbn [Z.of_nat Pos.of_succ_nat Pos.succ].
  lra.
Qed.

(** X14.  Over the reals, whatever the target, the sign and the draws,
    the x-values of a generated dataset have [Σdx² = 665], so that
    only the second guard of [correlation] can ever apply to it: the
    coefficient is [Σdx·dy / sqrt (665·Σdy²)] unless all the y-values
    coincide, in which case it is 0. *)
Theorem generated_spread (target sign : R) (w : World R) :
  Sxx (fst (generateLinear target sign w)) = 665 /\
  (Syy (fst (generateLinear target sign w)) <> 0 ->
   correlation (fst (generateLinear target sign w)) =
   Sxy (fst (generateLinear target sign w)) /
   sqrt (665 * Syy (fst (generateLinear target sign w)))) /\
  (Syy (fst (generateLinear target sign w)) = 0 ->
   correlation (fst (generateLinear target sign w)) = 0).
Proof.
  pose proof (generated_Sxx target sign w) as Ex.
  pose proof (generateLinear_length target sign w) as El.
  split; [exact Ex|].
  rewrite correlation_sums, El, Ex. cbn [Nat.ltb Nat.leb].
  split; intros Hy; destruct (Req_dec_T _ 0) as [Hz|Hz]; try reflexivity.
  - exfalso. lra.
  - exfalso. apply Hz. rewrite Hy. ring.
Qed.

(** ** What a generation reads and consumes *)

Section Locality.

Context {num : Type} `{Number num}.

Lemma linear_points_ext (rnd rnd' : nat -> num) (clk clk' : nat -> N)
    (slope noise : num) (l : list nat) :
  forall r c r' c',
  (forall j, (j < List.length l)%nat ->
     rnd (r + j)%nat = rnd' (r' + j)%nat /\ clk (c + j)%nat = clk' (c' + j)%nat) ->
  linear_points rnd clk slope noise r c l = linear_points rnd' clk' slope noise r' c' l.
Proof.
  induction l as [|i l IH]; intros r c r' c' Hw; [reflexivity|].
  cbn [linear_points].
  destruct (Hw 0%nat ltac:(simpl; lia)) as [E1 E2].
  rewrite !Nat.add_0_r in E1, E2. rewrite E1, E2. f_equal.
  apply IH. intros j Hj. specialize (Hw (S j) ltac:(simpl; lia)).
  now rewrite <- !Nat.add_succ_comm in Hw.
Qed.

(** X15.  A generation consumes exactly 20 draws and 20 clock readings
    and changes nothing else in the world; its points depend on the
    world only through these: two worlds that agree on the next 20
    draws and the next 20 readings give the same dataset. *)
Theorem generateLinear_window (target sign : num) (w w' : World num) :
  snd (generateLinear target sign w) = advance 20 w /\
  ((forall j, (j < 20)%nat ->
      random w (drawn w + j) = random w' (drawn w' + j) /\
      now w (clock_reads w + j) = now w' (clock_reads w' + j)) ->
   fst (generateLinear target sign w) = fst (generateLinear target sign w')).
Proof.
  unfold generateLinear, randomLinearWithCorrelation.
  rewrite !randomLinear_points. cbn [fst snd]. split; [reflexivity|].
  intros Hw. apply linear_points_ext. now rewrite length_seq.
Qed.

End Locality.

(** ** Ids of the reference data and of generated data *)

Lemma stamp_id_first (t : N) (i : nat) :
  starts_with_one_of digits_or_dash (stamp_id t i).
Proof.
  unfold stamp_id, decimal_N.
  destruct (N.to_uint t); cbn; tauto.
Qed.

Section ReferenceIds.

Context {num : Type} `{Number num}.

Lemma reference_ids (which : string) (data : list (Point num)) (p : Point num) :
  getReferenceDataset which = Some data -> In p data ->
  starts_with_one_of ["A"; "B"; "C"; "D"]%char p.(id).
Proof.
  unfold getReferenceDataset, anscombe. cbn [map anscombe_literal property].
  intros E Hin.
  repeat match type of E with
  | (if String.eqb ?k which then _ else _) = _ =>
      destruct (String.eqb_spec k which) as [<-|_]
  end; try discriminate; injection E as <-; cbn in Hin;
  repeat (destruct Hin as [<-|Hin]; [cbn; tauto|]); contradiction.
Qed.

(** X16.  The id of a point of a reference dataset is never the id of a
    generated point, whatever the clock: the former starts with the
    letter of its dataset, the latter with a digit of the timestamp. *)
Theorem reference_ids_fresh (which : string) (data : list (Point num))
    (p q : Point num) (target sign : num) (w : World num) :
  getReferenceDataset which = Some data -> In p data ->
  In q (fst (generateLinear target sign w)) ->
  p.(id) <> q.(id).
Proof.
  intros E Hp Hq Heq.
  pose proof (reference_ids which data p E Hp) as Hfirst.
  apply generateLinear_In in Hq as (j & t & _ & _ & Eq).
  rewrite Heq, Eq in Hfirst.
  pose proof (stamp_id_first t j) as Hd.
  destruct (stamp_id t j) as [|c s]; [contradiction|].
  cbn in Hfirst, Hd.
  repeat (destruct Hd as [<-|Hd]; [intuition discriminate|]). contradiction.
Qed.

End ReferenceIds.

Module Binary64ReferenceIds.
Import PrimFloat.
Import Binary64 Binary64Classes.
Local Open Scope float_scope.

Lemma reference_ids_fresh_witness :
  getReferenceDataset "A" = Some reference_A /\
  exists p q,
    In p reference_A /\
    In q (fst (generateLinear (lit 8 10) (of_Z 1) ticking_world)) /\
    p.(id) <> q.(id).
Proof.
  assert (E : getReferenceDataset "A" = Some reference_A) by reflexivity.
  split; [exact E|].
  exists (nth 0 reference_A (fpt 0 0)),
         (nth 0 (fst (generateLinear (lit 8 10) (of_Z 1) ticking_world)) (fpt 0 0)).
  assert (Hp : In (nth 0 reference_A (fpt 0 0)) reference_A)
    by (left; reflexivity).
  assert (Hq : In (nth 0 (fst (generateLinear (lit 8 10) (of_Z 1) ticking_world)) (fpt 0 0))
                  (fst (generateLinear (lit 8 10) (of_Z 1) ticking_world))).
  { apply nth_In. rewrite generateLinear_length. lia. }
  repeat (split; [assumption|]).
  exact (reference_ids_fresh "A" reference_A _ _ (lit 8 10) (of_Z 1) ticking_world E Hp Hq).
Defined.

End Binary64ReferenceIds.

(** ** Keys the select does not offer *)

Lemma append_assoc' (a b c : string) : ((a ++ b) ++ c = a ++ (b ++ c))%string.
Proof. induction a; simpl; congruence. Qed.

Lemma append_nil_r (a : string) : (a ++ EmptyString)%string = a.
Proof. induction a; simpl; congruence. Qed.

Lemma split_from_spaceless (a : string) :
  forall cur, spaceless a -> split_from " " cur a = [(cur ++ a)%string].
Proof.
  induction a as [|c a IH]; intros cur Ha; cbn [split_from].
  - now rewrite append_nil_r.
  - destruct Ha as [Hc Ha]. apply Ascii.eqb_neq in Hc. rewrite Hc.
    rewrite (IH _ Ha), append_assoc'. reflexivity.
Qed.

Lemma split_from_word (a rest : string) :
  forall cur, spaceless a ->
  split_from " " cur (a ++ " " ++ rest)%string =
  (cur ++ a)%string :: split_from " " EmptyString rest.
Proof.
  induction a as [|c a IH]; intros cur Ha; cbn [split_from append].
  - cbn. now rewrite append_nil_r.
  - destruct Ha as [Hc Ha]. apply Ascii.eqb_neq in Hc. rewrite Hc.
    rewrite (IH _ Ha), append_assoc'. reflexivity.
Qed.

Lemma isLinear_spaced (k : string) : isLinear k = true -> ~ spaceless k.
Proof.
  unfold isLinear. intros Hl Hs.
  apply orb_true_iff in Hl as [Hl|Hl]; [apply orb_true_iff in Hl as [Hl|Hl]|];
    apply String.eqb_eq in Hl; subst k; cbn in Hs; intuition congruence.
Qed.

Section Keys.

Context {num : Type} `{Number num}.

(** X17.  The lookup of a reference dataset reads the second
    space-separated word of the key and nothing else.  Selecting a key
    without a space (other than the current one) leaves the page
    without a dataset; and when the second word is one of A, B, C, D,
    the key names that dataset whatever its first word and whatever
    follows the second. *)
Theorem key_lookup (a b c : string) (s : State num) (w : World num) :
  spaceless a -> In b ["A"; "B"; "C"; "D"]%string ->
  (a <> presetKey s -> step (SelectPreset a) s w = (None, w)) /\
  anscombe_of (num:=num) (a ++ " " ++ b) = getReferenceDataset b /\
  anscombe_of (num:=num) (a ++ " " ++ b ++ " " ++ c) = getReferenceDataset b /\
  getReferenceDataset (num:=num) b <> None.
Proof.
  intros Ha Hin.
  assert (Hb : spaceless b).
  { cbn in Hin. repeat (destruct Hin as [<-|Hin]; [cbn; intuition discriminate|]).
    contradiction. }
  split; [|split; [|split]].
  - intros Hne. unfold step.
    apply String.eqb_neq in Hne. rewrite Hne. cbn [presetKey correlationValue].
    unfold effect.
    destruct (isLinear a) eqn:El; [exfalso; exact (isLinear_spaced a El Ha)|].
    unfold bind, ret, anscombe_of, split.
    rewrite (split_from_spaceless a EmptyString Ha). reflexivity.
  - unfold anscombe_of, split.
    rewrite (split_from_word a b EmptyString Ha), (split_from_spaceless b EmptyString Hb).
    reflexivity.
  - unfold anscombe_of, split.
    rewrite (split_from_word a _ EmptyString Ha), (split_from_word b c EmptyString Hb).
    reflexivity.
  - cbn in Hin. repeat (destruct Hin as [<-|Hin]; [discriminate|]). contradiction.
Qed.

End Keys.

Module Binary64Keys.
Import Binary64.

Lemma key_lookup_witness :
  spaceless "Dataset" /\ In "C"%string ["A"; "B"; "C"; "D"]%string /\
  anscombe_of (num:=PrimFloat.float) ("Dataset" ++ " " ++ "C" ++ " " ++ "again") =
  getReferenceDataset "C".
Proof.
  assert (Ha : spaceless "Dataset") by (cbn; intuition discriminate).
  assert (Hb : In "C"%string ["A"; "B"; "C"; "D"]%string) by (cbn; tauto).
  repeat (split; [assumption|]).
  exact (proj1 (proj2 (proj2
    (key_lookup "Dataset" "C" "again" linear_state ticking_world Ha Hb)))).
Defined.

End Binary64Keys.

(** ** The slider and the words of the explanation *)







Lemma sums_cauchy_schwarz (pts : list (Point R)) :
  Sxy pts * Sxy pts <= Sxx pts * Syy pts.
Proof. apply (Rsum_cauchy_schwarz (dx pts) (dy pts) pts). Qed.






(** ** The words for the reference data, and for every binary64 value *)

Lemma forte_positiva (r : R) :
  0.7 < r -> (strength r, direction r) = ("forte", "positiva")%string.
Proof.
  intros Hr. f_equal.
  - apply strength_R. rewrite Rabs_pos_eq by lra. exact Hr.
  - apply direction_R. lra.
Qed.

Module Binary64Labels.
Import PrimFloat SpecFloat FloatOps FloatAxioms.
Import Binary64 Binary64Classes Binary64Display.
Local Open Scope float_scope.

(** X19.  For each of the four reference datasets the explanation
    reads "forte" and "positiva" in exact arithmetic, and in binary64
    the paragraph under the chart shows the same three words for all
    four: "0.82", "forte", "positiva". *)
Theorem anscombe_explanation :
  (forall which, In which ["A"; "B"; "C"; "D"]%string ->
     exists data : list (Point R),
       getReferenceDataset which = Some data /\
       explanation data = ("forte", "positiva")%string) /\
  (forall which, In which ["A"; "B"; "C"; "D"]%string ->
     exists data : list (Point float),
       getReferenceDataset which = Some data /\
       forall Number_toString,
         headline Number_toString data = ("0.82", "forte", "positiva")%string).
Proof.
  split; intros which Hin; cbn in Hin.
  - destruct Hin as [<-|[<-|[<-|[<-|[]]]]].
    + destruct anscombe_bracket_A as (pts & E & _ & Hr). exists pts. split; [exact E|].
      apply forte_positiva. lra.
    + destruct anscombe_bracket_B as (pts & E & _ & Hr). exists pts. split; [exact E|].
      apply forte_positiva. lra.
    + destruct anscombe_bracket_C as (pts & E & _ & Hr). exists pts. split; [exact E|].
      apply forte_positiva. lra.
    + destruct anscombe_bracket_D as (pts & E & _ & Hr). exists pts. split; [exact E|].
      apply forte_positiva. lra.
  - destruct Hin as [<-|[<-|[<-|[<-|[]]]]];
      (eexists; split; [reflexivity|intros big; vm_compute; reflexivity]).
Qed.

(** X20.  In binary64, for every value [r]: the direction reads
    "nessuna" exactly when [r] is a zero or NaN; the strength of [-r]
    is that of [r]; and a strength other than "debole" comes with a
    direction other than "nessuna". *)
Theorem labels_binary64 (r : float) :
  (direction r = "nessuna"%string <-> (r =? 0) = true \/ is_nan r = true) /\
  strength (- r) = strength r /\
  (strength r <> "debole"%string -> direction r <> "nessuna"%string).
Proof.
  unfold direction, strength. cbn [ngt nlt nabs Fordered of_Z Fnumber float_of_Z].
  split; [|split].
  - unfold is_nan. rewrite !ltb_spec, !eqb_spec.
    change (Prim2SF 0) with (S754_zero false).
    destruct (Prim2SF r) as [s|s| |s m e]; cbn; try destruct s; cbn;
      rewrite ?Z.compare_refl, ?Pos.compare_cont_refl; cbn;
      split; intros H; first [discriminate | destruct H; discriminate | auto].
  - assert (E : abs (- r) = abs r).
    { apply Prim2SF_inj. rewrite !abs_spec, opp_spec.
      destruct (Prim2SF r); reflexivity. }
    now rewrite E.
  - rewrite !ltb_spec, abs_spec.
    change (Prim2SF 0) with (S754_zero false).
    let v := eval vm_compute in (Prim2SF (lit 7 10)) in
      change (Prim2SF (lit 7 10)) with v.
    let v := eval vm_compute in (Prim2SF (lit 3 10)) in
      change (Prim2SF (lit 3 10)) with v.
    destruct (Prim2SF r) as [s|s| |s m e]; cbn; try destruct s; cbn;
      intros H; try congruence; discriminate.
Qed.

End Binary64Labels.

(** ** Instances of the properties above *)

Lemma generated_spread_witness :
  Syy (fst (generateLinear 0 1 quarter_world)) = 0 /\
  correlation (fst (generateLinear 0 1 quarter_world)) = 0.
Proof.
  assert (Hl : on_line 0 5.75 (fst (generateLinear 0 1 quarter_world))).
  { intros p Hp.
    destruct (generateLinear_point_R 0 1 quarter_world p Hp) as (j & _ & _ & ->).
    cbn [random quarter_world]. lra. }
  assert (Hy : Syy (fst (generateLinear 0 1 quarter_world)) = 0).
  { destruct (on_line_sums 0 5.75 _ Hl) as [_ E]. rewrite E.
    apply Rmult_eq_0_compat_r, Rmult_0_l. }
  exact (conj Hy (proj2 (proj2 (generated_spread 0 1 quarter_world)) Hy)).
Defined.

Lemma generateLinear_window_witness :
  (forall j, (j < 20)%nat ->
     random quarter_world (drawn quarter_world + j) =
     random turning_world (drawn turning_world + j) /\
     now quarter_world (clock_reads quarter_world + j) =
     now turning_world (clock_reads turning_world + j)) /\
  fst (generateLinear (8 / 10) 1 quarter_world) =
  fst (generateLinear (8 / 10) 1 turning_world).
Proof.
  assert (Hw : forall j, (j < 20)%nat ->
     random quarter_world (drawn quarter_world + j) =
     random turning_world (drawn turning_world + j) /\
     now quarter_world (clock_reads quarter_world + j) =
     now turning_world (clock_reads turning_world + j)).
  { intros j Hj. cbn [random now drawn clock_reads quarter_world turning_world Nat.add].
    destruct (Nat.ltb_spec j 20) as [_|]; [split; reflexivity|lia]. }
  exact (conj Hw (proj2 (generateLinear_window (8 / 10) 1 quarter_world turning_world) Hw)).
Defined.

Module Binary64LabelsInstances.
Import PrimFloat.
Import Binary64 Binary64Classes Binary64Display.
Local Open Scope float_scope.

Lemma anscombe_explanation_witness :
  In "B"%string ["A"; "B"; "C"; "D"]%string /\
  exists data : list (Point float),
    getReferenceDataset "B" = Some data /\
    forall Number_toString,
      headline Number_toString data = ("0.82", "forte", "positiva")%string.
Proof.
  assert (Hin : In "B"%string ["A"; "B"; "C"; "D"]%string) by (cbn; tauto).
  exact (conj Hin (proj2 Binary64Labels.anscombe_explanation "B"%string Hin)).
Defined.

Lemma labels_binary64_witness :
  strength (lit 9 10) <> "debole"%string /\
  direction (lit 9 10) <> "nessuna"%string.
Proof.
  assert (Hs : strength (lit 9 10) <> "debole"%string) by (vm_compute; discriminate).
  exact (conj Hs (proj2 (proj2 (Binary64Labels.labels_binary64 (lit 9 10))) Hs)).
Defined.

End Binary64LabelsInstances.

(** ** Two decimals *)

Module Binary64Rounding.
Import PrimFloat SpecFloat FloatOps FloatAxioms.
Import Binary64 Binary64Display.

(** The integer [toFixed] prints is the nearest to [100·m·2^e], the
    larger of the two when [100·m·2^e] lies half way. *)
Lemma hundredths_nearest (m : positive) (e : Z) :
  match e with
  | Zneg p =>
      (2 * 2 ^ Zpos p * hundredths m e <= 200 * Zpos m + 2 ^ Zpos p
       < 2 * 2 ^ Zpos p * (hundredths m e + 1))%Z
  | _ => (hundredths m e = 100 * (Zpos m * 2 ^ e))%Z
  end.
Proof.
  destruct e as [|p|p]; cbn [hundredths]; try ring.
  assert (Hd : (0 < 2 ^ Z.pos p)%Z) by (apply Z.pow_pos_nonneg; lia).
  rewrite Z.pow_add_r by lia. change (2 ^ 1)%Z with 2%Z.
  set (d := (2 ^ Z.pos p)%Z) in *. set (a := (200 * Z.pos m + d)%Z).
  pose proof (Z.mul_div_le a (d * 2) ltac:(lia)).
  pose proof (Z.mul_succ_div_gt a (d * 2) ltac:(lia)).
  lia.
Qed.

(** X21.  In binary64, for every position [k / 100] of the slider
    ([k] from 0 to 100) the label next to it shows exactly that value
    with two decimals, and 0.80 when the page is mounted. *)
Theorem slider_label (Number_toString : float -> string) :
  (forall k, In k slider_values ->
     toFixed2 Number_toString (lit (Z.of_nat k) 100) = two_decimals k) /\
  (forall w : World float,
     exists s w', mount w = (Some s, w') /\
       toFixed2 Number_toString (correlationValue s) = "0.80"%string).
Proof.
  split.
  - assert (H : forallb (fun k => String.eqb
                    (toFixed2 Number_toString (lit (Z.of_nat k) 100))
                    (two_decimals k)) slider_values = true)
      by (vm_compute; reflexivity).
    intros k Hk. apply String.eqb_eq.
    exact (proj1 (forallb_forall _ _) H k Hk).
  - intros w. destruct (mount_state w) as (s & w' & E & Hs & _).
    exists s, w'. split; [exact E|].
    rewrite Hs. vm_compute. reflexivity.
Qed.

Lemma slider_label_witness :
  In 35%nat slider_values /\
  forall Number_toString,
    toFixed2 Number_toString (lit 35 100) = "0.35"%string.
Proof.
  assert (Hk : In 35%nat slider_values) by (apply in_seq; lia).
  split; [exact Hk|].
  intros big. exact (proj1 (slider_label big) 35%nat Hk).
Defined.

End Binary64Rounding.

(** ** Words decided by rounding *)

Lemma bump_R (h : Z) :
  correlation (integer_points (num:=R) (bump h)) = 0 /\
  explanation (integer_points (num:=R) (bump h)) = ("debole", "nessuna")%string.
Proof.
  assert (E : correlation (integer_points (num:=R) (bump h)) = 0).
  { rewrite correlation_sums. cbn [integer_points bump map List.length Nat.ltb Nat.leb].
    assert (Exy : Sxy (integer_points (num:=R) (bump h)) = 0).
    { unfold Sxy, dx, dy, mean, integer_points, bump.
      cbn [map Rsum fold_right List.length x y fst snd of_Z Rnumber].
      rewrite ?INR_IZR_INZ; cbn [Z.of_nat Pos.of_succ_nat Pos.succ].
      generalize (IZR h). intros r. lra. }
    destruct (Req_dec_T _ 0); [reflexivity|].
    unfold integer_points, bump in Exy. cbn [map] in Exy. rewrite Exy.
    unfold Rdiv. ring. }
  split; [exact E|]. unfold explanation. rewrite E.
  f_equal.
  - apply strength_R. rewrite Rabs_R0. lra.
  - apply direction_R. reflexivity.
Qed.

Module Binary64Words.
Import PrimFloat.
Import Binary64 Binary64Display.

(** X22.  The words under the chart can come from rounding alone.  On
    the five points [(1,0), (2,0), (3,h), (4,0), (5,0)] the coefficient
    is 0 in exact arithmetic whatever [h], and the direction "nessuna";
    in binary64 the page shows "0.00" with "positiva" for [h = 1] and
    "-0.00" with "negativa" for [h = 3].  And the rounded value does
    not determine the words: two datasets show "0.70", one with
    "forte" and one with "moderata". *)
Theorem words_from_rounding (Number_toString : float -> string) :
  (forall h : Z,
     correlation (integer_points (num:=R) (bump h)) = 0%R /\
     explanation (integer_points (num:=R) (bump h)) = ("debole", "nessuna")%string) /\
  headline Number_toString (integer_points (bump 1)) =
    ("0.00", "debole", "positiva")%string /\
  headline Number_toString (integer_points (bump 3)) =
    ("-0.00", "debole", "negativa")%string /\
  headline Number_toString (integer_points above_threshold) =
    ("0.70", "forte", "positiva")%string /\
  headline Number_toString (integer_points below_threshold) =
    ("0.70", "moderata", "positiva")%string.
Proof.
  split; [exact bump_R|].
  repeat split; vm_compute; reflexivity.
Qed.

End Binary64Words.

(** * The guards of [correlation], in binary64 and in exact arithmetic *)

(** ** The loop computes the sums of the formula *)

Section FormulaFacts.

Context {num : Type} `{Number num}.

Lemma fold_left_map_add (f : Point num -> num) (l : list (Point num)) (a : num) :
  fold_left (fun a p => nadd a (f p)) l a = fold_left nadd (map f l) a.
Proof. revert a; induction l as [|p l IH]; intros a; [reflexivity|apply IH]. Qed.

Lemma fold_left_accumulate_split (mX mY : num) (l : list (Point num)) :
  forall a b c,
  fold_left (accumulate mX mY) l (a, b, c) =
  (fold_left nadd (map (fun p => nmul (nsub p.(x) mX) (nsub p.(y) mY)) l) a,
   fold_left nadd (map (fun p => nmul (nsub p.(x) mX) (nsub p.(x) mX)) l) b,
   fold_left nadd (map (fun p => nmul (nsub p.(y) mY) (nsub p.(y) mY)) l) c).
Proof.
  induction l as [|p l IH]; intros a b c; [reflexivity|].
  cbn [fold_left map]. unfold accumulate at 2. apply IH.
Qed.

(** The loop of [correlation] ends with the three sums of the formula,
    in any arithmetic. *)
Lemma loop_sums_formula (pts : list (Point num)) :
  loop_sums pts = (sum_xy pts, sum_xx pts, sum_yy pts).
Proof.
  unfold loop_sums. rewrite fold_left_accumulate_split, !fold_left_map_add.
  reflexivity.
Qed.

Lemma correlation_formula (pts : list (Point num)) :
  correlation pts =
  if (List.length pts <? 2)%nat then of_Z 0
  else if strict_eq (nmul (sum_xx pts) (sum_yy pts)) (of_Z 0) then of_Z 0
       else pearson_formula pts.
Proof.
  rewrite correlation_loop_sums, loop_sums_formula. reflexivity.
Qed.

End FormulaFacts.

(** ** Exact arithmetic never leaves the finite numbers *)

Lemma total_exact (f : Point R -> R) (l : list (Point R)) (a : R) :
  fold_left nadd (map (fun p => Fin (f p)) l) (Fin a) =
  Fin (fold_left nadd (map f l) a).
Proof. revert a; induction l as [|p l IH]; intros a; [reflexivity|apply IH]. Qed.

Lemma fold_left_nadd_R (l : list R) (a : R) : fold_left nadd l a = a + Rsum l.
Proof.
  revert a; induction l as [|u l IH]; intros a; cbn [fold_left Rsum fold_right].
  - lra.
  - rewrite IH. cbn [nadd Rnumber]. fold (Rsum l). lra.
Qed.

Lemma mean_of_R (f : Point R -> R) (pts : list (Point R)) : mean_of f pts = mean f pts.
Proof.
  unfold mean_of, mean, total, of_nat. rewrite fold_left_nadd_R.
  cbn [of_Z ndiv Rnumber]. rewrite <- INR_IZR_INZ. f_equal. lra.
Qed.

Lemma sums_R (pts : list (Point R)) :
  sum_xy pts = Sxy pts /\ sum_xx pts = Sxx pts /\ sum_yy pts = Syy pts.
Proof.
  pose proof (loop_sums_formula pts) as E. rewrite loop_sums_R in E.
  injection E as -> -> ->. auto.
Qed.

Lemma mean_of_exact (f : Point R -> R) (g : Point XR -> XR) (pts : list (Point R)) :
  (forall p, g (mkPoint p.(id) (Fin p.(x)) (Fin p.(y))) = Fin (f p)) ->
  pts <> [] ->
  mean_of g (exact_points pts) = Fin (mean_of f pts).
Proof.
  intros Hg Hne. unfold mean_of, total, exact_points. rewrite map_map, length_map.
  rewrite (map_ext _ (fun p => Fin (f p)) Hg).
  change (@of_Z XR Xnumber 0) with (Fin 0). rewrite total_exact.
  unfold of_nat. cbn [of_Z ndiv Xnumber Rnumber xdiv].
  destruct (Req_dec_T (IZR (Z.of_nat (List.length pts))) 0) as [E|_]; [|reflexivity].
  exfalso. rewrite <- INR_IZR_INZ in E. revert E. apply not_0_INR.
  destruct pts; [congruence|discriminate].
Qed.

Lemma sums_exact (pts : list (Point R)) :
  pts <> [] ->
  sum_xy (exact_points pts) = Fin (sum_xy pts) /\
  sum_xx (exact_points pts) = Fin (sum_xx pts) /\
  sum_yy (exact_points pts) = Fin (sum_yy pts).
Proof.
  intros Hne. unfold sum_xy, sum_xx, sum_yy.
  rewrite (mean_of_exact (@x R) (@x XR) pts (fun _ => eq_refl) Hne).
  rewrite (mean_of_exact (@y R) (@y XR) pts (fun _ => eq_refl) Hne).
  unfold total, exact_points. rewrite !map_map. cbn [x y].
  change (@of_Z XR Xnumber 0) with (Fin 0).
  repeat split; apply (total_exact _ pts 0).
Qed.

(** In exact arithmetic [correlation] never leaves the finite numbers:
    every division it evaluates has a non-zero divisor, and its result
    is the real number computed with the operations of the reals. *)
Lemma correlation_exact (pts : list (Point R)) :
  correlation (exact_points pts) = Fin (correlation pts).
Proof.
  rewrite !correlation_formula.
  replace (List.length (exact_points pts)) with (List.length pts)
    by (unfold exact_points; now rewrite length_map).
  destruct (Nat.ltb_spec (List.length pts) 2) as [|Hn]; [reflexivity|].
  assert (Hne : pts <> []) by (destruct pts; [simpl in Hn; lia|discriminate]).
  unfold pearson_formula.
  destruct (sums_exact pts Hne) as (-> & -> & ->).
  destruct (sums_R pts) as (-> & -> & ->).
  cbn [nmul ndiv nsqrt strict_eq of_Z Xnumber Rnumber xmul xeq xsqrt xdiv].
  pose proof (Sxx_nonneg pts) as Hx. pose proof (Syy_nonneg pts) as Hy.
  destruct (Req_dec_T (Sxx pts * Syy pts) 0) as [E|N]; [reflexivity|].
  assert (HP : 0 < Sxx pts * Syy pts).
  { destruct (Rmult_neq_0_reg _ _ N). apply Rmult_lt_0_compat; lra. }
  destruct (Rlt_dec (Sxx pts * Syy pts) 0) as [|_]; [lra|].
  pose proof (sqrt_lt_R0 _ HP).
  destruct (Req_dec_T (sqrt (Sxx pts * Syy pts)) 0) as [|_]; [lra|reflexivity].
Qed.

Lemma same_coordinate_R (f : Point R -> R) (c : R) (pts : list (Point R)) :
  (forall p, In p pts -> f p = c) ->
  Rsum (map (fun p => (f p - mean f pts) * (f p - mean f pts)) pts) = 0.
Proof.
  intros Hc. destruct pts as [|p0 l] eqn:E; [reflexivity|]. rewrite <- E in *.
  assert (Hn : INR (List.length pts) <> 0).
  { apply not_0_INR. rewrite E. discriminate. }
  assert (Em : mean f pts = c).
  { unfold mean.
    rewrite (Rsum_map_ext_in f (fun p => 0 * f p + c) pts)
      by (intros p Hp; rewrite (Hc p Hp); ring).
    rewrite Rsum_map_affine. field. exact Hn. }
  rewrite Em.
  rewrite (Rsum_map_ext_in _ (fun p => 0 * f p) pts)
    by (intros p Hp; cbv beta; rewrite (Hc p Hp); ring).
  rewrite Rsum_map_scale. ring.
Qed.

Lemma no_variance_Sxy (pts : list (Point R)) :
  Sxx pts = 0 \/ Syy pts = 0 -> Sxy pts = 0.
Proof.
  intros Hz. pose proof (sums_cauchy_schwarz pts) as H.
  assert (E : Sxx pts * Syy pts = 0) by (destruct Hz as [-> | ->]; ring).
  rewrite E in H.
  destruct (Req_dec_T (Sxy pts) 0) as [|N]; [assumption|exfalso].
  pose proof (Rsqr_pos_lt _ N) as Hp. unfold Rsqr in Hp. lra.
Qed.

(** Without the guard the formula is undefined on data with no
    variance: 0 / 0. *)
Lemma formula_no_variance (pts : list (Point R)) :
  pts <> [] -> Sxx pts = 0 \/ Syy pts = 0 ->
  pearson_formula (exact_points pts) = XNaN.
Proof.
  intros Hne Hz. unfold pearson_formula.
  destruct (sums_exact pts Hne) as (-> & -> & ->).
  destruct (sums_R pts) as (-> & -> & ->).
  rewrite (no_variance_Sxy pts Hz).
  assert (E : Sxx pts * Syy pts = 0) by (destruct Hz as [-> | ->]; ring).
  cbn [nmul ndiv nsqrt Xnumber xmul xsqrt xdiv]. rewrite E.
  destruct (Rlt_dec 0 0) as [|_]; [lra|]. rewrite sqrt_0.
  destruct (Req_dec_T 0 0) as [_|]; [reflexivity|lra].
Qed.

Lemma divisors_exact (pts : list (Point R)) (d : XR) :
  In d (divisors (exact_points pts)) -> exists r, d = Fin r /\ r <> 0.
Proof.
  unfold divisors.
  replace (List.length (exact_points pts)) with (List.length pts)
    by (unfold exact_points; now rewrite length_map).
  destruct (Nat.ltb_spec (List.length pts) 2) as [|Hn]; [intros []|].
  assert (Hne : pts <> []) by (destruct pts; [simpl in Hn; lia|discriminate]).
  rewrite loop_sums_formula. cbv iota beta.
  destruct (sums_exact pts Hne) as (_ & -> & ->).
  destruct (sums_R pts) as (_ & -> & ->).
  assert (Hlen : IZR (Z.of_nat (List.length pts)) <> 0).
  { rewrite <- INR_IZR_INZ. apply not_0_INR. lia. }
  unfold of_nat. cbn [nmul nsqrt strict_eq of_Z Xnumber xmul xeq xsqrt].
  pose proof (Sxx_nonneg pts) as Hx. pose proof (Syy_nonneg pts) as Hy.
  destruct (Req_dec_T (Sxx pts * Syy pts) 0) as [E|N]; cbn [app].
  - intros [<-|[<-|[]]]; eauto.
  - assert (HP : 0 < Sxx pts * Syy pts).
    { destruct (Rmult_neq_0_reg _ _ N). apply Rmult_lt_0_compat; lra. }
    destruct (Rlt_dec (Sxx pts * Syy pts) 0) as [|_]; [lra|].
    pose proof (sqrt_lt_R0 _ HP).
    intros [<-|[<-|[<-|[]]]]; eauto.
    exists (sqrt (Sxx pts * Syy pts)). split; [reflexivity|lra].
Qed.

Lemma tiny_scale_positive : 0 < tiny_scale (num:=R).
Proof.
  unfold tiny_scale. cbv zeta. cbn [of_Z ndiv nmul Rnumber].
  set (b := IZR (2 ^ 60)).
  assert (Hb : 0 < b) by (apply IZR_lt; reflexivity). clearbody b.
  apply Rdiv_lt_0_compat; [lra|].
  repeat apply Rmult_lt_0_compat; assumption.
Qed.

Lemma huge_scale_positive : 0 < huge_scale (num:=R).
Proof.
  unfold huge_scale. cbv zeta. cbn [of_Z nmul Rnumber].
  set (b := IZR (2 ^ 60)).
  assert (Hb : 0 < b) by (apply IZR_lt; reflexivity). clearbody b.
  repeat apply Rmult_lt_0_compat; assumption.
Qed.

(** Over the reals three points [(0,0), (s,s), (2s,2s)] with
    [s <> 0] have the coefficient 1. *)
Lemma scaled_line_R (s : R) : s <> 0 -> correlation (scaled_line s) = 1.
Proof.
  intros Hs.
  assert (Hl : on_line 1 0 (scaled_line s)).
  { intros p [<-|[<-|[<-|[]]]]; cbn [x y of_Z nmul Rnumber]; lra. }
  apply (proj2 (line_coefficient_R 1 0 _ Hl)); [|lra].
  exists (mkPoint EmptyString 0 0), (mkPoint EmptyString s s).
  split; [left; reflexivity|]. split; [right; left; reflexivity|].
  cbn [x]. lra.
Qed.

(** ** Rounding to binary64 never gives a zero above the least subnormal *)

Module Binary64Nonzero.
Import PrimFloat SpecFloat FloatOps FloatAxioms.
Local Open Scope Z_scope.

Lemma digits2_size (p : positive) : digits2_pos p = Pos.size p.
Proof. induction p; cbn [digits2_pos Pos.size]; congruence. Qed.

Lemma Zdigits2_log2 (m : Z) : 0 < m -> Zdigits2 m = Z.log2 m + 1.
Proof.
  destruct m as [|p|p]; try lia. intros _. cbn [Zdigits2].
  rewrite digits2_size. destruct p; cbn [Pos.size Z.log2]; lia.
Qed.

Lemma shr_1_div2 (mrs : shr_record) :
  0 <= shr_m mrs -> shr_m (shr_1 mrs) = Z.shiftr (shr_m mrs) 1.
Proof.
  destruct mrs as [m r s]. cbn [shr_m]. intros Hm.
  rewrite <- Z.div2_spec.
  destruct m as [|[p|p|]|p]; try lia; reflexivity.
Qed.

Lemma iter_shr_1 (p : positive) :
  forall mrs, 0 <= shr_m mrs ->
  shr_m (iter_pos shr_1 p mrs) = Z.shiftr (shr_m mrs) (Zpos p).
Proof.
  induction p as [p IH|p IH|]; intros mrs Hm; cbn [iter_pos].
  - assert (H1 : 0 <= shr_m (shr_1 mrs)).
    { rewrite shr_1_div2 by assumption. now apply Z.shiftr_nonneg. }
    assert (H2 : 0 <= shr_m (iter_pos shr_1 p (shr_1 mrs))).
    { rewrite IH by assumption. now apply Z.shiftr_nonneg. }
    rewrite IH, IH, shr_1_div2 by assumption.
    rewrite !Z.shiftr_shiftr by lia. f_equal. lia.
  - assert (H2 : 0 <= shr_m (iter_pos shr_1 p mrs)).
    { rewrite IH by assumption. now apply Z.shiftr_nonneg. }
    rewrite IH, IH by assumption.
    rewrite Z.shiftr_shiftr by lia. f_equal. lia.
  - now apply shr_1_div2.
Qed.

Lemma shr_record_of_loc_m (m : Z) (l : location) :
  shr_m (shr_record_of_loc m l) = m.
Proof. destruct l as [|[]]; reflexivity. Qed.

(** A shift to the canonical exponent keeps a mantissa positive when
    the number is not below the least subnormal. *)
Lemma shr_fexp_positive (m e : Z) (l : location) :
  0 < m -> -1074 < Zdigits2 m + e ->
  0 < shr_m (fst (shr_fexp prec emax m e l)) /\
  -1074 < Zdigits2 (shr_m (fst (shr_fexp prec emax m e l)))
          + snd (shr_fexp prec emax m e l).
Proof.
  intros Hm Hd. unfold shr_fexp, shr.
  rewrite (Zdigits2_log2 m Hm) in *.
  pose proof (Z.log2_nonneg m) as Hl.
  assert (Hf : fexp prec emax (Z.log2 m + 1 + e) - e <= Z.log2 m).
  { unfold fexp, SpecFloat.emin, prec, emax. lia. }
  destruct (fexp prec emax (Z.log2 m + 1 + e) - e) as [|p|p] eqn:En;
    cbn [fst snd]; rewrite ?shr_record_of_loc_m, ?Zdigits2_log2 by assumption;
    try (split; lia).
  rewrite iter_shr_1 by (rewrite shr_record_of_loc_m; lia).
  rewrite shr_record_of_loc_m.
  assert (Hpos : 0 < Z.shiftr m (Z.pos p)).
  { pose proof (Z.shiftr_nonneg m (Z.pos p)) as Hn.
    destruct (Z.eq_dec (Z.shiftr m (Z.pos p)) 0) as [E|]; [|lia].
    apply Z.shiftr_eq_0_iff in E. lia. }
  split; [exact Hpos|].
  rewrite (Zdigits2_log2 _ Hpos), Z.log2_shiftr by assumption. lia.
Qed.

Lemma round_nearest_even_ge (m : Z) (l : location) :
  m <= round_nearest_even m l.
Proof.
  unfold round_nearest_even. destruct l as [|[]]; try lia.
  destruct (Z.even m); lia.
Qed.

(** Rounding a positive mantissa that is not below the least subnormal
    never gives a zero. *)
Lemma binary_round_aux_nonzero (s : bool) (m e : Z) (l : location) :
  0 < m -> -1074 < Zdigits2 m + e ->
  nonzero_sf (binary_round_aux prec emax s m e l).
Proof.
  intros Hm Hd. unfold binary_round_aux.
  destruct (shr_fexp_positive m e l Hm Hd) as [H1 H2].
  destruct (shr_fexp prec emax m e l) as [mrs' e']. cbn [fst snd] in H1, H2.
  set (m1 := round_nearest_even (shr_m mrs') (loc_of_shr_record mrs')).
  pose proof (round_nearest_even_ge (shr_m mrs') (loc_of_shr_record mrs')) as Hge.
  fold m1 in Hge.
  assert (Hm1 : 0 < m1) by lia.
  assert (Hd1 : -1074 < Zdigits2 m1 + e').
  { rewrite Zdigits2_log2 in * by assumption.
    pose proof (Z.log2_le_mono _ _ Hge). lia. }
  destruct (shr_fexp_positive m1 e' loc_Exact Hm1 Hd1) as [H3 _].
  destruct (shr_fexp prec emax m1 e' loc_Exact) as [mrs'' e'']. cbn [fst] in H3.
  destruct (shr_m mrs''); try lia.
  destruct (e'' <=? emax - prec); exact I.
Qed.

Lemma digits2_iter_xO (k m : positive) :
  Zpos (digits2_pos (Pos.iter xO m k)) = Zpos (digits2_pos m) + Zpos k.
Proof.
  revert m. induction k using Pos.peano_ind; intros m.
  - cbn. lia.
  - rewrite Pos.iter_succ. cbn [digits2_pos]. rewrite Pos2Z.inj_succ, IHk. lia.
Qed.

Lemma binary_round_nonzero (s : bool) (m : positive) (e : Z) :
  -1074 < Zpos (digits2_pos m) + e ->
  nonzero_sf (binary_round prec emax s m e).
Proof.
  intros Hd. unfold binary_round, shl_align.
  destruct (fexp prec emax (Z.pos (digits2_pos m) + e) - e) as [|k|k] eqn:Ek;
    apply binary_round_aux_nonzero; cbn [Zdigits2]; try lia.
  rewrite digits2_iter_xO. lia.
Qed.

Lemma eqb_zero_nonzero (f : float) :
  (f =? 0)%float = false <-> nonzero_sf (Prim2SF f).
Proof.
  rewrite eqb_spec. change (Prim2SF 0%float) with (S754_zero false).
  destruct (Prim2SF f) as [s|s| |s m e]; cbn; try destruct s; cbn;
    split; intros H; try discriminate; try contradiction; auto.
Qed.

(** A positive integer below 2^63 is not zero as a binary64 number. *)
Lemma of_uint63_nonzero (n : Uint63.int) :
  0 < Uint63.to_Z n -> nonzero_sf (Prim2SF (of_uint63 n)).
Proof.
  intros Hn. rewrite of_uint63_spec.
  destruct (Uint63.to_Z n) as [|p|p]; try lia.
  cbn [binary_normalize]. apply binary_round_nonzero.
  pose proof (Pos2Z.is_pos (digits2_pos p)). lia.
Qed.

(** The length of an array of fewer than 2^63 elements (an engine
    allows fewer than 2^32) is not zero as a number, unless it is 0. *)
Lemma of_nat_nonzero (n : nat) :
  0 < Z.of_nat n < 2 ^ 63 -> (of_nat n =? 0)%float = false.
Proof.
  intros Hn. apply eqb_zero_nonzero. unfold of_nat. cbn [of_Z Fnumber].
  unfold float_of_Z. destruct (Z.of_nat n) as [|p|p] eqn:E; try lia.
  apply of_uint63_nonzero. rewrite Uint63.of_Z_spec.
  rewrite Z.mod_small; [lia|]. change Uint63.wB with (2 ^ 63). lia.
Qed.

Lemma valid_exponent (s : bool) (m : positive) (e : Z) (f : float) :
  Prim2SF f = S754_finite s m e -> -1074 <= e.
Proof.
  intros E. pose proof (Prim2SF_valid f) as Hv. rewrite E in Hv.
  cbn [valid_binary] in Hv. unfold bounded, canonical_mantissa in Hv.
  apply andb_prop in Hv as [Hc _]. apply Z.eqb_eq in Hc.
  unfold fexp, SpecFloat.emin, prec, emax in Hc. lia.
Qed.

(** [Math.sqrt] answers a zero on a zero only. *)
Lemma sqrt_nonzero (f : float) :
  (f =? 0)%float = false -> (sqrt f =? 0)%float = false.
Proof.
  rewrite !eqb_zero_nonzero, sqrt_spec.
  destruct (Prim2SF f) as [s|s| |s m e] eqn:E; cbn [nonzero_sf]; try contradiction.
  - intros _. destruct s; exact I.
  - intros _. exact I.
  - intros _. pose proof (valid_exponent s m e f E) as He.
    unfold SF64sqrt, SFsqrt. destruct s; [exact I|].
    unfold SFsqrt_core_binary.
    set (e' := Z.min _ _).
    set (m' := match e - 2 * e' with Z0 => _ | Zpos _ => _ | Zneg _ => _ end).
    assert (He' : -1074 <= e' /\ 2 * e' <= e).
    { unfold e', fexp, SpecFloat.emin, prec, emax.
      rewrite !Z.div2_div.
      pose proof (Z.div_mod e 2 ltac:(lia)).
      pose proof (Z.mod_pos_bound e 2 ltac:(lia)).
      destruct (Z.min_spec (Z.max (Z.div (Zdigits2 (Z.pos m) + e + 1) 2 - 53) (3 - 1024 - 53)) (e / 2))
        as [[? ->]|[? ->]]; lia. }
    assert (Hm' : 0 < m').
    { unfold m'. destruct (e - 2 * e') as [|p|p] eqn:Es; try lia.
      rewrite Z.shiftl_mul_pow2 by lia.
      apply Z.mul_pos_pos; [lia|]. apply Z.pow_pos_nonneg; lia. }
    pose proof (Z.sqrtrem_spec m' ltac:(lia)) as Hs.
    destruct (Z.sqrtrem m') as [q r].
    assert (Hq : 0 < q) by nia.
    apply binary_round_aux_nonzero; [exact Hq|].
    rewrite (Zdigits2_log2 q Hq). pose proof (Z.log2_nonneg q). lia.
Qed.

(** In binary64 no division of [correlation] has a zero divisor. *)
Lemma divisors_nonzero_binary64 (pts : list (Point float)) (d : float) :
  Z.of_nat (List.length pts) < 2 ^ 63 ->
  In d (divisors pts) -> (d =? 0)%float = false.
Proof.
  intros Hlen. unfold divisors.
  destruct (Nat.ltb_spec (List.length pts) 2) as [|Hn]; [intros []|].
  assert (Hn0 : (of_nat (List.length pts) =? 0)%float = false)
    by (apply of_nat_nonzero; lia).
  destruct (loop_sums pts) as [[n dX] dY].
  cbn [strict_eq nmul nsqrt Fnumber of_Z float_of_Z].
  change zero with 0%float.
  destruct (dX * dY =? 0)%float eqn:Eg; cbn [app].
  - intros [<-|[<-|[]]]; exact Hn0.
  - intros [<-|[<-|[<-|[]]]]; try exact Hn0.
    now apply sqrt_nonzero.
Qed.

End Binary64Nonzero.

(** ** The formula, the zero guard and the points on a line *)

Module Binary64Guard.
Import PrimFloat SpecFloat FloatOps FloatAxioms.
Import Binary64 Binary64Classes Binary64Display.
Import Binary64Nonzero.
Local Open Scope float_scope.

Lemma finite_cases (f : float) :
  is_finite f = true ->
  match Prim2SF f with
  | S754_zero _ | S754_finite _ _ _ => True
  | _ => False
  end.
Proof.
  unfold is_finite, is_nan, is_infinity.
  rewrite !eqb_spec, abs_spec.
  change (Prim2SF infinity) with (S754_infinity false).
  destruct (Prim2SF f) as [s|s| |s m e]; try (intros _; exact I);
    try destruct s; cbn; discriminate.
Qed.

(** A quotient by a zero is NaN or an infinity. *)
Lemma div_zero_not_finite (a d : float) :
  (d =? 0) = true -> is_finite (a / d) = false.
Proof.
  unfold is_finite, is_nan, is_infinity.
  rewrite !eqb_spec, abs_spec, div_spec.
  change (Prim2SF 0) with (S754_zero false).
  change (Prim2SF infinity) with (S754_infinity false).
  destruct (Prim2SF d) as [sd|sd| |sd md ed]; cbn; try discriminate;
    try (destruct sd; discriminate). intros _.
  destruct (Prim2SF a) as [sa|sa| |sa ma ea]; try destruct sa; destruct sd;
    reflexivity.
Qed.

Lemma sqrt_zero (f : float) : (f =? 0) = true -> (sqrt f =? 0) = true.
Proof.
  rewrite !eqb_spec, sqrt_spec.
  change (Prim2SF 0) with (S754_zero false).
  destruct (Prim2SF f) as [s|s| |s m e]; cbn; try discriminate;
    try (destruct s; discriminate). auto.
Qed.

(** A finite number minus itself is +0. *)
Lemma sub_diag (c : float) : is_finite c = true -> c - c = 0.
Proof.
  intros Hc. apply finite_cases in Hc. apply Prim2SF_inj. rewrite sub_spec.
  change (Prim2SF 0) with (S754_zero false).
  destruct (Prim2SF c) as [s|s| |s m e]; try contradiction.
  - destruct s; reflexivity.
  - unfold SF64sub, SFsub. rewrite Z.sub_diag. reflexivity.
Qed.

Lemma total_zeros (l : list (Point float)) (g : Point float -> float) :
  (forall p, In p l -> g p = 0) -> total (map g l) = 0.
Proof.
  unfold total. cbn [of_Z Fnumber float_of_Z]. change zero with 0.
  induction l as [|p l IH]; intros Hg; [reflexivity|].
  cbn [map fold_left nadd Fnumber].
  rewrite (Hg p (or_introl eq_refl)). change (0 + 0) with 0.
  apply IH. intros q Hq. apply Hg. now right.
Qed.

(** When every value of a coordinate is the finite [c] and the mean of
    the values is computed as [c], the sum of the squared deviations is
    exactly 0. *)
Lemma same_coordinate_sum (f : Point float -> float) (c : float)
    (pts : list (Point float)) :
  is_finite c = true -> (forall p, In p pts -> f p = c) -> mean_of f pts = c ->
  total (map (fun p => (f p - mean_of f pts) * (f p - mean_of f pts)) pts) = 0.
Proof.
  intros Hc Hall Hm. apply total_zeros. intros p Hp.
  rewrite Hm, (Hall p Hp), (sub_diag c Hc). reflexivity.
Qed.

Lemma guard_fires (pts : list (Point float)) :
  (sum_xx pts * sum_yy pts =? 0) = true -> correlation pts = 0.
Proof.
  intros Hg. rewrite correlation_formula.
  destruct (_ <? _)%nat; [reflexivity|].
  cbn [strict_eq nmul of_Z Fnumber float_of_Z]. change zero with 0.
  now rewrite Hg.
Qed.

Lemma zero_sum_guard (pts : list (Point float)) :
  ((sum_xx pts =? 0) = true /\ is_finite (sum_yy pts) = true) \/
  ((sum_yy pts =? 0) = true /\ is_finite (sum_xx pts) = true) ->
  (sum_xx pts * sum_yy pts =? 0) = true.
Proof.
  intros [[Hx Hy]|[Hy Hx]].
  - exact (proj1 (@Binary64Facts.zero_times_finite _ _ Hx Hy)).
  - exact (proj2 (@Binary64Facts.zero_times_finite _ _ Hy Hx)).
Qed.

(** C1 (amended).  In binary64, on every dataset of at least two points
    for which the product [Σdx² · Σdy²] of the variance sums, as the
    code computes it, is not zero, [correlation] returns the formula
    [Σ(dx·dy) / sqrt(Σdx² · Σdy²)] evaluated in binary64, the deviations
    being taken from the computed means, and the divisor of the formula
    is not zero.  In exact arithmetic, on every dataset of at least two
    points whose variance sums are both non-zero, [correlation]
    returns the value of the formula, which is the Pearson
    coefficient. *)
Theorem correlation_is_pearson :
  (forall pts : list (Point float),
     (2 <= List.length pts)%nat ->
     (sum_xx pts * sum_yy pts =? 0) = false ->
     correlation pts = pearson_formula pts /\
     (sqrt (sum_xx pts * sum_yy pts) =? 0) = false) /\
  (forall pts : list (Point R),
     (2 <= List.length pts)%nat -> Sxx pts <> 0%R -> Syy pts <> 0%R ->
     correlation (exact_points pts) = pearson_formula (exact_points pts) /\
     correlation (exact_points pts) = Fin (pearson pts)).
Proof.
  split.
  - intros pts Hn Hg. split; [|now apply sqrt_nonzero].
    rewrite correlation_formula.
    destruct (Nat.ltb_spec (List.length pts) 2) as [|_]; [lia|].
    cbn [strict_eq nmul of_Z Fnumber float_of_Z]. change zero with 0.
    now rewrite Hg.
  - intros pts Hn Hx Hy.
    assert (E : correlation (exact_points pts) = Fin (pearson pts)).
    { rewrite correlation_exact. f_equal. now apply correlation_pearson_R. }
    split; [|exact E].
    rewrite correlation_formula.
    replace (List.length (exact_points pts)) with (List.length pts)
      by (unfold exact_points; now rewrite length_map).
    destruct (Nat.ltb_spec (List.length pts) 2) as [|_]; [lia|].
    assert (Hne : pts <> []) by (destruct pts; [simpl in Hn; lia|discriminate]).
    destruct (sums_exact pts Hne) as (_ & -> & ->).
    destruct (sums_R pts) as (_ & -> & ->).
    cbn [nmul strict_eq of_Z Xnumber xmul xeq].
    destruct (Req_dec_T (Sxx pts * Syy pts) 0) as [Z|_]; [|reflexivity].
    apply Rmult_integral in Z. tauto.
Qed.

Lemma correlation_is_pearson_witness :
  ((2 <= List.length reference_A)%nat /\
   (sum_xx reference_A * sum_yy reference_A =? 0) = false /\
   correlation reference_A = pearson_formula reference_A) /\
  ((2 <= List.length [pt 1 2; pt 2 4; pt 3 5])%nat /\
   Sxx [pt 1 2; pt 2 4; pt 3 5] <> 0%R /\
   Syy [pt 1 2; pt 2 4; pt 3 5] <> 0%R /\
   correlation (exact_points [pt 1 2; pt 2 4; pt 3 5]) =
   Fin (pearson [pt 1 2; pt 2 4; pt 3 5])).
Proof.
  assert (Hn : (2 <= List.length reference_A)%nat) by (vm_compute; lia).
  assert (Hg : (sum_xx reference_A * sum_yy reference_A =? 0) = false)
    by (vm_compute; reflexivity).
  assert (Hn' : (2 <= List.length [pt 1 2; pt 2 4; pt 3 5])%nat) by (simpl; lia).
  assert (Hx : Sxx [pt 1 2; pt 2 4; pt 3 5] <> 0%R)
    by (unfold Sxx, dx, mean; simpl; lra).
  assert (Hy : Syy [pt 1 2; pt 2 4; pt 3 5] <> 0%R)
    by (unfold Syy, dy, mean; simpl; lra).
  split.
  - exact (conj Hn (conj Hg (proj1 (proj1 correlation_is_pearson reference_A Hn Hg)))).
  - exact (conj Hn' (conj Hx (conj Hy
             (proj2 (proj2 correlation_is_pearson _ Hn' Hx Hy))))).
Defined.

(** C1 as stated fails in binary64.  On the three points [(0,0)],
    [(s,s)], [(2s,2s)] with [s = 2^-300] neither variance sum is zero,
    as computed or exactly, but their product underflows to zero: the
    guard is taken and [correlation] returns 0, where the formula
    evaluated in binary64 is an infinity and the Pearson coefficient
    is 1.  With [s = 2^300] the product overflows to an infinity: the
    guard is not taken and the formula evaluated in binary64 is 0,
    where the Pearson coefficient is 1 again. *)
Lemma variance_product_underflows :
  ((2 <= List.length (scaled_line (num:=float) tiny_scale))%nat /\
   (sum_xx (scaled_line (num:=float) tiny_scale) =? 0) = false /\
   (sum_yy (scaled_line (num:=float) tiny_scale) =? 0) = false /\
   (sum_xx (scaled_line (num:=float) tiny_scale)
    * sum_yy (scaled_line (num:=float) tiny_scale) =? 0) = true /\
   correlation (scaled_line (num:=float) tiny_scale) = 0 /\
   pearson_formula (scaled_line (num:=float) tiny_scale) = infinity /\
   Sxx (scaled_line tiny_scale) <> 0%R /\ Syy (scaled_line tiny_scale) <> 0%R /\
   correlation (exact_points (scaled_line tiny_scale)) = Fin 1) /\
  ((sum_xx (scaled_line (num:=float) huge_scale) =? 0) = false /\
   (sum_yy (scaled_line (num:=float) huge_scale) =? 0) = false /\
   sum_xx (scaled_line (num:=float) huge_scale)
   * sum_yy (scaled_line (num:=float) huge_scale) = infinity /\
   correlation (scaled_line (num:=float) huge_scale) = 0 /\
   pearson_formula (scaled_line (num:=float) huge_scale) = 0 /\
   correlation (exact_points (scaled_line huge_scale)) = Fin 1).
Proof.
  split.
  - repeat (split; [vm_compute; (reflexivity || lia)|]).
    pose proof tiny_scale_positive as Ht.
    assert (E : correlation (scaled_line (tiny_scale (num:=R))) = 1%R)
      by (apply scaled_line_R; lra).
    split; [|split]; [| |rewrite correlation_exact; now f_equal].
    + intros Z. rewrite (correlation_no_variance _ (or_introl Z)) in E. lra.
    + intros Z. rewrite (correlation_no_variance _ (or_intror Z)) in E. lra.
  - repeat (split; [vm_compute; reflexivity|]).
    rewrite correlation_exact. f_equal. apply scaled_line_R.
    pose proof huge_scale_positive. lra.
Qed.

(** C2 (amended).  In binary64: [correlation] returns exactly 0 on a
    dataset of fewer than two points; on two points or more it returns
    exactly 0 whenever the product [Σdx² · Σdy²], as the code computes
    it, is zero, which is when the formula would divide by zero and be
    NaN or an infinity; the computed product is zero when one computed
    sum is zero and the other is finite, and so when all the points
    share one finite x (or one finite y), the mean computed for that
    coordinate is that very value and the other sum is finite; and no
    division that [correlation] evaluates has a zero divisor (on fewer
    than 2^63 points, which every array has).  In exact arithmetic:
    [correlation] is the real number that the operations of the reals
    give, never NaN or an infinity; it returns 0 on fewer than two
    points, when all the points share one x or one y, and whenever
    [Σdx²] or [Σdy²] is zero, where the formula alone is NaN; and no
    division it evaluates has a zero divisor. *)
Theorem correlation_zero_guard :
  (forall pts : list (Point float),
     ((List.length pts < 2)%nat -> correlation pts = 0) /\
     ((2 <= List.length pts)%nat ->
      (sum_xx pts * sum_yy pts =? 0) = true ->
      correlation pts = 0 /\ is_finite (pearson_formula pts) = false) /\
     (((sum_xx pts =? 0) = true /\ is_finite (sum_yy pts) = true) \/
      ((sum_yy pts =? 0) = true /\ is_finite (sum_xx pts) = true) ->
      correlation pts = 0) /\
     (forall c, is_finite c = true ->
        ((forall p, In p pts -> p.(x) = c) /\ mean_of (@x float) pts = c /\
         is_finite (sum_yy pts) = true) \/
        ((forall p, In p pts -> p.(y) = c) /\ mean_of (@y float) pts = c /\
         is_finite (sum_xx pts) = true) ->
        correlation pts = 0) /\
     ((Z.of_nat (List.length pts) < 2 ^ 63)%Z ->
      forall d, In d (divisors pts) -> (d =? 0) = false)) /\
  (forall pts : list (Point R),
     correlation (exact_points pts) = Fin (correlation pts) /\
     ((List.length pts < 2)%nat -> correlation (exact_points pts) = Fin 0) /\
     ((exists c, forall p, In p pts -> p.(x) = c) \/
      (exists c, forall p, In p pts -> p.(y) = c) ->
      correlation (exact_points pts) = Fin 0) /\
     (Sxx pts = 0%R \/ Syy pts = 0%R ->
      correlation (exact_points pts) = Fin 0 /\
      (pts <> [] -> pearson_formula (exact_points pts) = XNaN)) /\
     (forall d, In d (divisors (exact_points pts)) -> exists r, d = Fin r /\ r <> 0%R)).
Proof.
  split; intros pts.
  - split; [intros Hlt; rewrite (correlation_short pts Hlt); reflexivity|].
    split; [|split; [|split]].
    + intros Hn Hg. split; [now apply guard_fires|].
      unfold pearson_formula. cbn [ndiv nsqrt nmul Fnumber].
      apply div_zero_not_finite. now apply sqrt_zero.
    + intros Hz. apply guard_fires. now apply zero_sum_guard.
    + intros c Hc [(Hall & Hm & Hf)|(Hall & Hm & Hf)];
        apply guard_fires, zero_sum_guard; [left|right]; (split; [|exact Hf]).
      * unfold sum_xx. cbn [nmul nsub Fnumber].
        rewrite (same_coordinate_sum (@x float) c pts Hc Hall Hm). reflexivity.
      * unfold sum_yy. cbn [nmul nsub Fnumber].
        rewrite (same_coordinate_sum (@y float) c pts Hc Hall Hm). reflexivity.
    + intros Hlen d. now apply divisors_nonzero_binary64.
  - assert (Hz : Sxx pts = 0%R \/ Syy pts = 0%R -> correlation (exact_points pts) = Fin 0).
    { intros Hz. rewrite correlation_exact. f_equal. now apply correlation_no_variance. }
    split; [apply correlation_exact|]. split; [|split; [|split]].
    + intros Hlt. rewrite correlation_exact. f_equal. exact (correlation_short pts Hlt).
    + intros [[c Hc]|[c Hc]]; apply Hz; [left|right].
      * exact (same_coordinate_R (@x R) c pts Hc).
      * exact (same_coordinate_R (@y R) c pts Hc).
    + intros H0. split; [now apply Hz|]. intros Hne. now apply formula_no_variance.
    + apply divisors_exact.
Qed.

Lemma correlation_zero_guard_witness :
  is_finite 3 = true /\
  (forall p, In p no_spread_points -> p.(x) = 3) /\
  mean_of (@x float) no_spread_points = 3 /\
  is_finite (sum_yy no_spread_points) = true /\
  correlation no_spread_points = 0.
Proof.
  assert (Hc : is_finite 3 = true) by reflexivity.
  assert (Hall : forall p, In p no_spread_points -> p.(x) = 3).
  { intros p [<-|[<-|[]]]; reflexivity. }
  assert (Hm : mean_of (@x float) no_spread_points = 3) by (vm_compute; reflexivity).
  assert (Hf : is_finite (sum_yy no_spread_points) = true) by (vm_compute; reflexivity).
  repeat (split; [assumption|]).
  exact (proj1 (proj2 (proj2 (proj2 (proj1 correlation_zero_guard no_spread_points))))
           3 Hc (or_introl (conj Hall (conj Hm Hf)))).
Defined.

(** C2 as stated fails in binary64.  In [same_x_points] every x is
    5.1; the mean of eleven times 5.1 is not computed as 5.1, the sum
    [Σdx²] is not zero, and [correlation] returns a positive number
    (9.17e-16), shown as 0.00, weak and positive.  In
    [overflow_points] every x is 1 and [Σdx²] is exactly 0, but [Σdy²]
    has overflowed and [correlation] returns NaN. *)
Lemma shared_coordinate_not_zero :
  (forall p, In p same_x_points -> p.(x) = lit 51 10) /\
  (correlation same_x_points =? 0) = false /\
  (0 <? correlation same_x_points) = true /\
  (forall Number_toString,
     headline Number_toString same_x_points = ("0.00", "debole", "positiva")%string) /\
  (forall p, In p overflow_points -> p.(x) = 1) /\
  sum_xx overflow_points = 0 /\ sum_yy overflow_points = infinity /\
  is_nan (correlation overflow_points) = true.
Proof.
  split; [|split; [|split; [|split; [|split]]]].
  - intros p Hp. unfold same_x_points in Hp. apply in_map_iff in Hp as (q & <- & _).
    reflexivity.
  - vm_compute. reflexivity.
  - vm_compute. reflexivity.
  - intros big. vm_compute. reflexivity.
  - intros p [<-|[<-|[]]]; reflexivity.
  - repeat split; vm_compute; reflexivity.
Qed.

Lemma grid_lines :
  forallb (fun m => forallb (exact_on_grid m) grid) grid = true.
Proof. vm_compute. reflexivity. Qed.

(** C3 (amended).  In exact arithmetic, on every dataset whose points
    all lie on a line [y = m·x + b]: when [m = 0] (constant y)
    [correlation] returns 0; when two of the points have different
    x-coordinates, it returns 1 for [m > 0] and -1 for [m < 0].  In
    binary64 it returns exactly 1, -1 and 0, by the sign of [m], on the
    20 points of abscissas 1 to 20 of every line with integer [m] and
    [b] between -100 and 100. *)
Theorem correlation_on_line :
  (forall (m b : R) (pts : list (Point R)),
     on_line m b pts ->
     (m = 0%R -> correlation (exact_points pts) = Fin 0) /\
     ((exists p q, In p pts /\ In q pts /\ p.(x) <> q.(x)) ->
      ((0 < m)%R -> correlation (exact_points pts) = Fin 1) /\
      ((m < 0)%R -> correlation (exact_points pts) = Fin (-1)))) /\
  (forall m b : Z, In m grid -> In b grid ->
     correlation (integer_points (num:=float) (integer_line m b)) = of_Z (Z.sgn m)).
Proof.
  split.
  - intros m b pts Hl. rewrite correlation_exact.
    destruct (line_coefficient_R m b pts Hl) as [H0 H1]. split.
    + intros Hm. now rewrite (H0 Hm).
    + intros Hs. destruct (H1 Hs) as [Hp Hn]. split; intros Hm.
      * now rewrite (Hp Hm).
      * now rewrite (Hn Hm).
  - intros m b Hm Hb. apply Leibniz.eqb_spec.
    pose proof grid_lines as H.
    rewrite forallb_forall in H. specialize (H m Hm).
    rewrite forallb_forall in H. exact (H b Hb).
Qed.

Lemma correlation_on_line_witness :
  on_line 2 1 [pt 1 3; pt 2 5; pt 3 7] /\
  correlation (exact_points [pt 1 3; pt 2 5; pt 3 7]) = Fin 1 /\
  In 2%Z grid /\ In 1%Z grid /\
  correlation (integer_points (num:=float) (integer_line 2 1)) = 1.
Proof.
  assert (Hl : on_line 2 1 [pt 1 3; pt 2 5; pt 3 7]).
  { intros p [<-|[<-|[<-|[]]]]; simpl; lra. }
  assert (Hs : exists p q, In p [pt 1 3; pt 2 5; pt 3 7] /\
                 In q [pt 1 3; pt 2 5; pt 3 7] /\ p.(x) <> q.(x)).
  { exists (pt 1 3), (pt 2 5). simpl. repeat split; auto. lra. }
  assert (Hm : In 2%Z grid) by (apply in_map_iff; exists 102%nat; split; [reflexivity|apply in_seq; lia]).
  assert (Hb : In 1%Z grid) by (apply in_map_iff; exists 101%nat; split; [reflexivity|apply in_seq; lia]).
  split; [exact Hl|]. split.
  - exact (proj1 (proj2 (proj1 correlation_on_line 2%R 1%R _ Hl) Hs) ltac:(lra)).
  - repeat (split; [assumption|]).
    exact (proj2 correlation_on_line 2%Z 1%Z Hm Hb).
Defined.

(** C3 as stated fails.  A single point lies on a line of slope 1 and
    its coefficient is 0.  In binary64, on three points of the line
    [y = x + 1] the coefficient is above 1 (1.0000000000000002); on
    three points of the line [y = x] at the scale [2^-300] or [2^300]
    it is 0; and on eleven points of constant y = 5.1 it is not 0. *)
Lemma correlation_on_line_fails :
  (on_line 1 0 [pt 1 1] /\ correlation (exact_points [pt 1 1]) = Fin 0) /\
  (on_line 1 1 (integer_points (num:=R) offset_line) /\
   correlation (exact_points (integer_points offset_line)) = Fin 1 /\
   (1 <? correlation (integer_points (num:=float) offset_line)) = true) /\
  (on_line 1 0 (scaled_line (num:=R) tiny_scale) /\
   correlation (exact_points (scaled_line tiny_scale)) = Fin 1 /\
   correlation (scaled_line (num:=float) tiny_scale) = 0 /\
   correlation (scaled_line (num:=float) huge_scale) = 0) /\
  ((forall p, In p same_y_points -> p.(y) = lit 51 10) /\
   (correlation same_y_points =? 0) = false).
Proof.
  split; [|split; [|split]].
  - split; [intros p [<-|[]]; simpl; lra|]. rewrite correlation_exact. reflexivity.
  - assert (Hl : on_line 1 1 (integer_points (num:=R) offset_line)).
    { intros p [<-|[<-|[<-|[]]]]; cbn [x y fst snd of_Z Rnumber]; lra. }
    split; [exact Hl|]. split; [|vm_compute; reflexivity].
    rewrite correlation_exact. f_equal.
    apply (proj2 (line_coefficient_R 1 1 _ Hl)); [|lra].
    exists (mkPoint EmptyString 0%R 1%R), (mkPoint EmptyString 1%R 2%R).
    split; [left; reflexivity|]. split; [right; left; reflexivity|].
    cbn [x]. lra.
  - pose proof tiny_scale_positive as Ht.
    split; [|split; [|split; vm_compute; reflexivity]].
    + intros p [<-|[<-|[<-|[]]]]; cbn [x y of_Z nmul Rnumber]; lra.
    + rewrite correlation_exact. f_equal. apply scaled_line_R. lra.
  - split; [|vm_compute; reflexivity].
    intros p Hp. unfold same_y_points in Hp. apply in_map_iff in Hp as (q & <- & _).
    reflexivity.
Qed.

End Binary64Guard.
